(** * Karaoke player (TEJ3M-Summative.ino): synchronisation core

    A shallow embedding of the sketch's tempo clock, lyric indexer, line
    extractor and playback engine, and the properties of its design
    document that they satisfy.

    Conventions.
    - The target is the Arduino Uno R4 (header of the sketch): [int] is a
      32-bit two's complement integer, [unsigned long] a 32-bit unsigned
      integer, [byte] an 8-bit unsigned integer and [float] an IEEE 754
      binary32 number.  Integers are values of [Z]; every arithmetic
      operation of the sketch is followed by the wrap-around of its type.
    - A read or a write outside an array has no defined behaviour in C; the
      embedding returns [None] there.
    - The busy-wait loops on [millis()] are recorded as [Wait] events. *)

From Stdlib Require Import ZArith Lia List Bool Ascii String.
From Stdlib Require Import Floats.SpecFloat.
From Stdlib Require QArith Qround.
From stdpp Require Import base option list.
Import ListNotations.
Local Open Scope Z_scope.

(** ** Machine integers *)

Definition int_min : Z := - 2 ^ 31.
Definition int_max : Z := 2 ^ 31 - 1.
Definition ulong_max : Z := 2 ^ 32 - 1.

(** Conversion to [int]: two's complement wrap-around. *)
Definition to_int (z : Z) : Z := (z + 2 ^ 31) mod 2 ^ 32 - 2 ^ 31.

(** Conversion to [unsigned long]. *)
Definition to_ulong (z : Z) : Z := z mod 2 ^ 32.

(** Conversion to [byte]. *)
Definition to_byte (z : Z) : Z := z mod 256.

(** [a[i]] for an index held in a C integer: [None] outside the array. *)
Definition index {A} (a : list A) (i : Z) : option A :=
  if 0 <=? i then a !! Z.to_nat i else None.

(** ** Song settings *)

Definition NOTE_C4 : Z := 262.
Definition NOTE_D4 : Z := 294.
Definition NOTE_E4 : Z := 330.
Definition NOTE_F4 : Z := 349.
Definition NOTE_G4 : Z := 392.
Definition NOTE_A4 : Z := 440.
Definition NOTE_B4 : Z := 494.
Definition NOTE_C5 : Z := 523.
Definition NOTE_D5 : Z := 587.
Definition NOTE_E5 : Z := 659.
Definition NOTE_F5 : Z := 698.
Definition NOTE_G5 : Z := 784.
Definition NOTE_A5 : Z := 880.
Definition NOTE_REST : Z := 0.

Definition BUZZER_PIN : Z := 2.
Definition LED_PINS : list Z := [4; 5; 6; 7; 8].

Definition SONG_COUNT : Z := 3.
Definition MAX_NOTES : Z := 65.
Definition MAX_LINES : Z := 30.

(** ** Tempo clock *)

(** [eighthMs(bpm)]: [(unsigned long)(60000UL / (unsigned long)bpm) / 2UL].
    The division by zero of [bpm = 0] is undefined. *)
Definition eighthMs (bpm : Z) : option Z :=
  let b := to_ulong bpm in
  if b =? 0 then None else Some (to_ulong (60000 / b) / 2).

(** ** Lyric indexer *)

Section LyricIndexer.

(** The table [lineNoteCounts[SONG_COUNT][MAX_LINES]] of the flash memory. *)
Variable lineNoteCounts : list (list Z).

(** [(byte)pgm_read_byte(&(lineNoteCounts[songIdx][i]))] *)
Definition read_count (songIdx i : Z) : option Z :=
  row ← index lineNoteCounts songIdx;
  c ← index row i;
  Some (to_byte c).

(** The first loop of [getLineInfoFromNotesPlayed]:
    [while (lineIndex < MAX_LINES) { ... lineIndex++; }].  [fuel] bounds
    the iterations that remain; the loop needs at most
    [MAX_LINES - lineIndex] of them. *)
Fixpoint find_line (fuel : nat) (songIdx lineIndex tmp : Z) : option Z :=
  if lineIndex <? MAX_LINES then
    match fuel with
    | O => None
    | S fuel' =>
        c ← read_count songIdx lineIndex;
        if c =? 0 then Some lineIndex
        else
          let tmp' := to_int (tmp - c) in
          if tmp' <? 0 then Some lineIndex
          else find_line fuel' songIdx (to_int (lineIndex + 1)) tmp'
    end
  else Some lineIndex.

(** The second loop: [for (int i = 0; i < lineIndex; i++) startNote += c]. *)
Fixpoint sum_before (fuel : nat) (songIdx lineIndex i startNote : Z)
  : option Z :=
  if i <? lineIndex then
    match fuel with
    | O => None
    | S fuel' =>
        c ← read_count songIdx i;
        sum_before fuel' songIdx lineIndex (to_int (i + 1))
          (to_int (startNote + c))
    end
  else Some startNote.

(** [getLineInfoFromNotesPlayed]; the result is the triple of the three
    reference parameters [(outLineIndex, outLineStartNote,
    outLineNoteCount)]. *)
Definition getLineInfoFromNotesPlayed (songIdx notesPlayed totalNotes : Z)
  : option (Z * Z * Z) :=
  lineIndex ← find_line (Z.to_nat MAX_LINES) songIdx 0 notesPlayed;
  startNote ← sum_before (Z.to_nat lineIndex) songIdx lineIndex 0 0;
  count ← read_count songIdx lineIndex;
  let count :=
    if count =? 0 then
      let count := to_int (totalNotes - startNote) in
      if count <=? 0 then 1 else count
    else count in
  Some (lineIndex, startNote, count).

End LyricIndexer.

(** ** Lyrics in flash *)

Definition NUL : ascii := "000"%char.
Definition LF : ascii := "010"%char.
Definition CR : ascii := "013"%char.
Definition SPACE : ascii := " "%char.

(** A C string literal whose lines are separated by ['\n']:
    ["l1\nl2\nl3"] is [packed ["l1"; "l2"; "l3"]].  The terminating NUL of
    the literal is implicit: reading at the end of the list yields it. *)
Fixpoint packed (lines : list string) : list ascii :=
  match lines with
  | [] => []
  | [l] => list_ascii_of_string l
  | l :: ls => list_ascii_of_string l ++ LF :: packed ls
  end.

Section LineExtractor.

(** The three flash strings [lyrics1], [lyrics2], [lyrics3]. *)
Variables lyrics1 lyrics2 lyrics3 : list ascii.

(** [getLyricsPtr]: [None] is the NULL pointer. *)
Definition getLyricsPtr (songIdx : Z) : option (list ascii) :=
  match songIdx with
  | 0 => Some lyrics1
  | 1 => Some lyrics2
  | 2 => Some lyrics3
  | _ => None
  end.

(** [out[i] = c] on the array [out]; a write outside it is undefined. *)
Definition store (out : list ascii) (i : Z) (c : ascii)
  : option (list ascii) :=
  if (0 <=? i) && (i <? Z.of_nat (length out))
  then Some (<[Z.to_nat i := c]> out) else None.

(** What [getLyricLine] does after its scanning loop. *)
Definition finish (lineIndex curLine pos : Z) (out : list ascii)
  : option (bool * list ascii) :=
  if curLine =? lineIndex then
    out' ← store out pos NUL; Some (true, out')
  else
    out' ← store out 0 NUL; Some (false, out').

(** The scanning loop [while (true) { c = pgm_read_byte(p); p++; ... }] of
    [getLyricLine], by recursion on the text that [p] points to. *)
Fixpoint scan (p : list ascii) (lineIndex outSize curLine pos : Z)
    (out : list ascii) : option (bool * list ascii) :=
  match p with
  | [] => finish lineIndex curLine pos out
  | c :: p' =>
      if Ascii.eqb c NUL then finish lineIndex curLine pos out
      else if Ascii.eqb c CR then scan p' lineIndex outSize curLine pos out
      else if Ascii.eqb c LF then
        if curLine =? lineIndex then
          out' ← store out pos NUL; Some (true, out')
        else scan p' lineIndex outSize (to_byte (curLine + 1)) 0 out
      else if curLine =? lineIndex then
        if pos <? to_byte (outSize - 1) then
          out' ← store out pos c;
          scan p' lineIndex outSize curLine (to_byte (pos + 1)) out'
        else scan p' lineIndex outSize curLine pos out
      else scan p' lineIndex outSize curLine pos out
  end.

(** [getLyricLine(songIdx, lineIndex, out, outSize)]: the returned flag
    and the contents of the array [out] afterwards. *)
Definition getLyricLine (songIdx lineIndex : Z) (out : list ascii)
    (outSize : Z) : option (bool * list ascii) :=
  if outSize =? 0 then Some (false, out)
  else
    out ← store out 0 NUL;
    match getLyricsPtr songIdx with
    | None => Some (false, out)
    | Some p => scan p lineIndex outSize 0 0 out
    end.

End LineExtractor.

(** ** Single precision arithmetic of the articulation split *)

Definition prec32 : Z := 24.
Definition emax32 : Z := 128.

(** [(float)n] for an [unsigned long] [n]. *)
Definition float_of_ulong (n : Z) : spec_float :=
  binary_normalize prec32 emax32 n 0 false.

(** [const float GATE = 0.93]: the binary32 number nearest to 0.93,
    [15602811 * 2^-24] (bit pattern [0x3F6E147B]). *)
Definition GATE : spec_float := S754_finite false 15602811 (-24).

(** [(unsigned long)f]: truncation towards zero; undefined when the value
    is not a finite number of the range of [unsigned long]. *)
Definition ulong_of_float (f : spec_float) : option Z :=
  match f with
  | S754_zero _ => Some 0
  | S754_finite false m e =>
      let v := if 0 <=? e then Z.pos m * 2 ^ e else Z.pos m / 2 ^ (- e) in
      if v <=? ulong_max then Some v else None
  | S754_finite true m e =>
      if (e <? 0) && (Z.pos m / 2 ^ (- e) =? 0) then Some 0 else None
  | _ => None
  end.

(** The total time of a note in [playSong]:
    [noteTotal = (unsigned long)durU * unitMs; if (noteTotal == 0) noteTotal = 1]. *)
Definition note_total (durU unitMs : Z) : Z :=
  let noteTotal := to_ulong (durU * unitMs) in
  if noteTotal =? 0 then 1 else noteTotal.

(** The articulation split of [playSong]:
    [noteOnMs = (unsigned long)((float)noteTotal * GATE)] and
    [noteOffMs = noteTotal - noteOnMs]. *)
Definition gate_split (noteTotal : Z) : option (Z * Z) :=
  noteOnMs ← ulong_of_float (SFmul prec32 emax32 (float_of_ulong noteTotal) GATE);
  Some (noteOnMs, to_ulong (noteTotal - noteOnMs)).

(** ** Output sinks *)

(** The commands that the sketch sends to the display, the pins, the tone
    generator and the serial line, and its busy-waits. *)
Inductive event : Type :=
  | LcdClear
  | LcdSetCursor (col row : Z)
  | LcdPrint (c : ascii)
  | DigitalWrite (pin : Z) (level : bool)
  | Tone (pin hz : Z)
  | NoTone (pin : Z)
  | Wait (ms : Z)
  | SerialPrintln (s : string).

(** The state of the pins and of the tone generator. *)
Record sinks : Type := {
  level : Z -> bool;
  sounding : option Z
}.

Definition run_event (s : sinks) (e : event) : sinks :=
  match e with
  | DigitalWrite pin l =>
      {| level := fun q => if q =? pin then l else level s q;
         sounding := sounding s |}
  | Tone _ hz => {| level := level s; sounding := Some hz |}
  | NoTone _ => {| level := level s; sounding := None |}
  | _ => s
  end.

Definition run (s : sinks) (tr : list event) : sinks :=
  fold_left run_event tr s.

(** All five indicator lights are off. *)
Definition leds_off (s : sinks) : Prop :=
  forall pin, pin ∈ LED_PINS -> level s pin = false.

(** The number of times a light is switched on in a trace. *)
Definition is_light_on (e : event) : bool :=
  match e with
  | DigitalWrite _ true => true
  | _ => false
  end.

Definition lights_on (tr : list event) : nat :=
  length (List.filter is_light_on tr).

(** The two loops of [lcdPrintFixed]: the characters of [text] up to its
    NUL, at most [cols] of them, then spaces up to [cols] columns. *)
Fixpoint print_row (cols : nat) (text : list ascii) : list event :=
  match cols with
  | O => []
  | S cols' =>
      match text with
      | c :: text' =>
          if Ascii.eqb c NUL then replicate cols (LcdPrint SPACE)
          else LcdPrint c :: print_row cols' text'
      | [] => replicate cols (LcdPrint SPACE)
      end
  end.

Definition lcdPrintFixed (col row : Z) (text : list ascii) : list event :=
  LcdSetCursor col row :: print_row 16 text.

Definition showTwoLines (l1 l2 : list ascii) : list event :=
  lcdPrintFixed 0 0 l1 ++ lcdPrintFixed 0 1 l2.

Definition allLEDsOff : list event :=
  (fun pin => DigitalWrite pin false) <$> LED_PINS.

(** ** Song catalog *)

(** The constant tables of the sketch. *)
Record catalog : Type := {
  melodyLen : list Z;
  tempoBPM : list Z;
  melodyNotes : list (list Z);
  durationUnits : list (list Z);
  ledIndex : list (list Z);
  lyrics1 : list ascii;
  lyrics2 : list ascii;
  lyrics3 : list ascii;
  lineNoteCounts : list (list Z)
}.

(** ** Playback engine *)

(** The local variables of [playSong] that live across iterations. *)
Record cursor : Type := {
  notesPlayed : Z;
  lastLineDisplayed : Z;
  top : list ascii;
  bot : list ascii
}.

Section PlaybackEngine.

Variable cat : catalog.
Variable songIdx : Z.

Definition lyricLine (lineIndex : Z) (out : list ascii) (outSize : Z)
  : option (bool * list ascii) :=
  getLyricLine (lyrics1 cat) (lyrics2 cat) (lyrics3 cat)
    songIdx lineIndex out outSize.

(** [if (!ok) buf[0] = '\0';] on a result [(ok, buf)] of [getLyricLine]. *)
Definition blank_unless (r : bool * list ascii) : option (list ascii) :=
  if r.1 then Some r.2 else store r.2 0 NUL.

(** The lyric part of the loop body: the display is rewritten when the
    line changes. *)
Definition refresh_lyrics (c : cursor) (lineIndex0 : Z)
  : option (cursor * list event) :=
  if lineIndex0 =? lastLineDisplayed c then Some (c, [])
  else
    r1 ← lyricLine (to_byte lineIndex0) (top c) 17;
    r2 ← lyricLine (to_byte (to_int (lineIndex0 + 1))) (bot c) 17;
    top2 ← blank_unless r1;
    bot2 ← blank_unless r2;
    Some ({| notesPlayed := notesPlayed c;
             lastLineDisplayed := lineIndex0;
             top := top2; bot := bot2 |},
          showTwoLines top2 bot2).

(** The light and tone commands of one note: [li] is clamped to 4, then
    the note or the rest is started. *)
Definition start_note (noteHz li : Z) : option (list event) :=
  let li := if li >? 4 then 4 else li in
  if noteHz =? NOTE_REST then Some [NoTone BUZZER_PIN]
  else
    pin ← index LED_PINS li;
    Some [DigitalWrite pin true; Tone BUZZER_PIN noteHz].

(** The body of [while (notesPlayed < totalNotes)]. *)
Definition note_step (totalNotes unitMs : Z) (c : cursor)
  : option (cursor * list event) :=
  '(lineIndex0, _, _) ←
    getLineInfoFromNotesPlayed (lineNoteCounts cat) songIdx
      (notesPlayed c) totalNotes;
  '(c1, shown) ← refresh_lyrics c lineIndex0;
  notes ← index (melodyNotes cat) songIdx;
  noteHz ← index notes (notesPlayed c);
  durs ← index (durationUnits cat) songIdx;
  durU ← index durs (notesPlayed c);
  '(noteOnMs, noteOffMs) ← gate_split (note_total (to_byte durU) unitMs);
  leds ← index (ledIndex cat) songIdx;
  li ← index leds (notesPlayed c);
  started ← start_note (to_int noteHz) (to_byte li);
  Some ({| notesPlayed := to_int (notesPlayed c + 1);
           lastLineDisplayed := lastLineDisplayed c1;
           top := top c1; bot := bot c1 |},
        shown ++ allLEDsOff ++ started
          ++ [Wait noteOnMs; NoTone BUZZER_PIN] ++ allLEDsOff
          ++ [Wait noteOffMs]).

(** [while (notesPlayed < totalNotes) { ... notesPlayed++; }]: the final
    cursor and the event list of every iteration, in order. *)
Fixpoint play_loop (fuel : nat) (totalNotes unitMs : Z) (c : cursor)
  : option (cursor * list (list event)) :=
  if notesPlayed c <? totalNotes then
    match fuel with
    | O => None
    | S fuel' =>
        '(c1, ev) ← note_step totalNotes unitMs c;
        '(c2, evs) ← play_loop fuel' totalNotes unitMs c1;
        Some (c2, ev :: evs)
    end
  else Some (c, []).

(** What [playSong] does before its loop, once the song is accepted. *)
Definition announce : list event :=
  [LcdClear]
    ++ lcdPrintFixed 0 0 (list_ascii_of_string "Now Playing:")
    ++ (if songIdx =? 0
        then lcdPrintFixed 0 1 (list_ascii_of_string "Country Roads")
        else [])
    ++ (if songIdx =? 1
        then lcdPrintFixed 0 1 (list_ascii_of_string "Baa Baa Sheep")
        else [])
    ++ (if songIdx =? 2
        then lcdPrintFixed 0 1 (list_ascii_of_string "Itsy Spider")
        else [])
    ++ [Wait 900; LcdClear] ++ allLEDsOff ++ [NoTone BUZZER_PIN].

(** The end of song cleanup. *)
Definition cleanup : list event :=
  [NoTone BUZZER_PIN] ++ allLEDsOff ++ [LcdClear]
    ++ lcdPrintFixed 0 0 (list_ascii_of_string "Song Complete!")
    ++ lcdPrintFixed 0 1 (list_ascii_of_string "Choose another!")
    ++ [SerialPrintln "Song Complete!"; Wait 1200].

(** The buffers [top] and [bot] are [char[17]] whose first byte is
    cleared; their other bytes are indeterminate and are never read
    before [getLyricLine] has written them: they are taken as NUL. *)
Definition cursor0 : cursor :=
  {| notesPlayed := 0; lastLineDisplayed := -999;
     top := replicate 17 NUL; bot := replicate 17 NUL |}.

(** [playSong(songIdx)]: the preamble, the event list of every
    iteration of the loop, and the cleanup.  A rejected song yields
    three empty parts. *)
Definition playSong_parts
  : option (list event * list (list event) * list event) :=
  len ← index (melodyLen cat) songIdx;
  bpm ← index (tempoBPM cat) songIdx;
  let totalNotes := to_byte len in
  let bpm := to_int bpm in
  if (totalNotes <=? 0) || (bpm <=? 0) then Some ([], [], [])
  else
    unitMs ← eighthMs bpm;
    '(_, steps) ← play_loop (Z.to_nat totalNotes) totalNotes unitMs cursor0;
    Some (announce, steps, cleanup).

(** [playSong(songIdx)]: every command sent to the sinks, in order. *)
Definition playSong : option (list event) :=
  '(pre, steps, post) ← playSong_parts;
  Some (pre ++ concat steps ++ post).

End PlaybackEngine.

(** ** The catalog of the sketch *)

(** Aggregate initialisation: the elements that a row does not list are
    zero. *)
Definition zero_filled (width : Z) (row : list Z) : list Z :=
  row ++ replicate (Z.to_nat width - length row)%nat 0.

Local Open Scope string_scope.

Definition sketch : catalog := {|
  melodyLen := [65; 42; 48];
  tempoBPM := [45; 96; 66];
  melodyNotes :=
    [
      zero_filled MAX_NOTES
        [ NOTE_B4; NOTE_B4; NOTE_B4; NOTE_A4;
          NOTE_G4; NOTE_G4; NOTE_A4; NOTE_B4;
          NOTE_B4; NOTE_B4; NOTE_B4; NOTE_A4;
          NOTE_G4; NOTE_G4; NOTE_A4; NOTE_B4; NOTE_A4; NOTE_G4;
          NOTE_B4; NOTE_B4; NOTE_B4; NOTE_A4;
          NOTE_G4; NOTE_G4; NOTE_A4; NOTE_B4; NOTE_D5;
          NOTE_D4; NOTE_D4; NOTE_D4; NOTE_E4; NOTE_B4; NOTE_B4;
          NOTE_A4; NOTE_G4; NOTE_A4; NOTE_B4; NOTE_G4;
          NOTE_D5; NOTE_B4; NOTE_A4;
          NOTE_G4; NOTE_A4; NOTE_G4;
          NOTE_G4; NOTE_A4; NOTE_B4;
          NOTE_D5; NOTE_E5; NOTE_D5;
          NOTE_D5; NOTE_D5; NOTE_E5; NOTE_B4;
          NOTE_B4; NOTE_A4; NOTE_G4; NOTE_G4;
          NOTE_G4; NOTE_A4; NOTE_B4;
          NOTE_A4; NOTE_G4; NOTE_G4 ];
      zero_filled MAX_NOTES
        [ NOTE_C4; NOTE_C4; NOTE_G4; NOTE_G4; NOTE_A4; NOTE_A4; NOTE_G4;
          NOTE_F4; NOTE_F4; NOTE_E4; NOTE_E4; NOTE_D4; NOTE_D4; NOTE_C4;
          NOTE_G4; NOTE_G4; NOTE_F4; NOTE_F4; NOTE_E4; NOTE_E4; NOTE_D4;
          NOTE_G4; NOTE_G4; NOTE_F4; NOTE_F4; NOTE_E4; NOTE_E4; NOTE_D4;
          NOTE_C4; NOTE_C4; NOTE_G4; NOTE_G4; NOTE_A4; NOTE_A4; NOTE_G4;
          NOTE_F4; NOTE_F4; NOTE_E4; NOTE_E4; NOTE_D4; NOTE_D4; NOTE_C4;
          NOTE_REST; NOTE_REST; NOTE_REST; NOTE_REST; NOTE_REST; NOTE_REST;
          NOTE_REST; NOTE_REST; NOTE_REST; NOTE_REST; NOTE_REST; NOTE_REST;
          NOTE_REST; NOTE_REST; NOTE_REST; NOTE_REST; NOTE_REST; NOTE_REST;
          NOTE_REST; NOTE_REST; NOTE_REST; NOTE_REST; NOTE_REST ];
      zero_filled MAX_NOTES
        [ NOTE_G4; NOTE_C5; NOTE_C5; NOTE_C5; NOTE_D5; NOTE_E5; NOTE_E5;
          NOTE_E5; NOTE_D5; NOTE_C5; NOTE_D5; NOTE_E5; NOTE_C5;
          NOTE_E5; NOTE_E5; NOTE_F5; NOTE_G5;
          NOTE_G5; NOTE_F5; NOTE_E5; NOTE_F5; NOTE_G5; NOTE_E5;
          NOTE_C5; NOTE_C5; NOTE_D5; NOTE_E5;
          NOTE_E5; NOTE_D5; NOTE_C5; NOTE_D5; NOTE_E5; NOTE_C5;
          NOTE_G4; NOTE_G4; NOTE_C5; NOTE_C5; NOTE_C5; NOTE_D5; NOTE_E5; NOTE_E5;
          NOTE_E5; NOTE_D5; NOTE_C5; NOTE_D5; NOTE_E5; NOTE_C5;
          NOTE_REST; NOTE_REST; NOTE_REST; NOTE_REST; NOTE_REST;
          NOTE_REST; NOTE_REST; NOTE_REST; NOTE_REST; NOTE_REST;
          NOTE_REST; NOTE_REST; NOTE_REST; NOTE_REST; NOTE_REST;
          NOTE_REST; NOTE_REST ]
    ];
  durationUnits :=
    [
      zero_filled MAX_NOTES
        [ 1; 1; 1; 2;
          1; 1; 1; 2;
          1; 1; 1; 2;
          1; 1; 1; 1; 1; 2;
          1; 1; 1; 2;
          1; 1; 1; 1; 2;
          1; 1; 1; 1; 1; 2;
          1; 1; 1; 1; 2;
          1; 1; 2;
          1; 1; 2;
          1; 1; 2;
          1; 1; 2;
          1; 1; 1; 2;
          1; 1; 1; 2;
          1; 1; 2;
          1; 1; 4 ];
      zero_filled MAX_NOTES
        [ 2; 2; 2; 2; 2; 2; 4;
          2; 2; 2; 2; 2; 2; 4;
          2; 2; 2; 2; 2; 2; 4;
          2; 2; 2; 2; 2; 2; 4;
          2; 2; 2; 2; 2; 2; 4;
          2; 2; 2; 2; 2; 2; 4;
          1; 1; 1; 1; 1; 1;
          1; 1; 1; 1; 1; 1;
          1; 1; 1; 1; 1; 1;
          1; 1; 1; 1; 1 ];
      zero_filled MAX_NOTES
        [ 1; 1; 1; 1; 1; 1; 2;
          1; 1; 1; 1; 1; 2;
          1; 1; 1; 2;
          1; 1; 1; 1; 1; 2;
          1; 1; 1; 2;
          1; 1; 1; 1; 1; 2;
          1; 1; 1; 1; 1; 1; 1; 2;
          1; 1; 1; 1; 1; 4;
          1; 1; 1; 1; 1;
          1; 1; 1; 1; 1;
          1; 1; 1; 1; 1;
          1; 1 ]
    ];
  ledIndex :=
    [
      zero_filled MAX_NOTES
        [ 2; 2; 2; 1;
          0; 0; 1; 2;
          2; 2; 2; 1;
          0; 0; 1; 2; 1; 0;
          2; 2; 2; 1;
          0; 0; 1; 2; 3;
          3; 3; 3; 4; 2; 2;
          1; 0; 1; 2; 0;
          3; 2; 1;
          0; 1; 0;
          0; 1; 2;
          3; 4; 3;
          3; 3; 4; 2;
          2; 1; 0; 0;
          0; 1; 2;
          1; 0; 0 ];
      zero_filled MAX_NOTES
        [ 0; 0; 1; 1; 2; 2; 1;
          3; 3; 4; 4; 0; 0; 0;
          1; 1; 3; 3; 4; 4; 0;
          1; 1; 3; 3; 4; 4; 0;
          0; 0; 1; 1; 2; 2; 1;
          3; 3; 4; 4; 0; 0; 0;
          0; 0; 0; 0; 0; 0;
          0; 0; 0; 0; 0; 0;
          0; 0; 0; 0; 0; 0;
          0; 0; 0; 0; 0 ];
      zero_filled MAX_NOTES
        [ 0; 0; 0; 0; 1; 2; 2;
          2; 1; 0; 1; 2; 0;
          2; 2; 3; 4;
          4; 3; 2; 3; 4; 2;
          0; 0; 1; 2;
          2; 1; 0; 1; 2; 0;
          4; 4; 0; 0; 0; 1; 2; 2;
          2; 1; 0; 1; 2; 0;
          0; 0; 0; 0; 0;
          0; 0; 0; 0; 0;
          0; 0; 0; 0; 0;
          0; 0 ]
    ];
  lyrics1 :=
    packed
      [ "Almost heaven,";
        "West Virginia,";
        "Blue Ridge Mtns,";
        "Shenandoah Rvr";
        "Life's old there,";
        "older than trees,";
        "Younger than mtn";
        "growin like brz";
        "Country roads,";
        "take me home,";
        "To the place";
        "I belong,";
        "West Virginia,";
        "mountain mama,";
        "Take me home,";
        "country roads." ];
  lyrics2 :=
    packed
      [ "Baa baa";
        "black sheep";
        "have you";
        "any wool?";
        "Yes sir";
        "yes sir";
        "three bags full";
        "One for the";
        "master";
        "And one for";
        "the dame";
        "And one for";
        "the little boy";
        "who lives down";
        "the lane";
        "Baa baa";
        "black sheep";
        "have you";
        "any wool?";
        "Yes sir";
        "yes sir";
        "three bags full" ];
  lyrics3 :=
    packed
      [ "The itsy bitsy";
        "spider";
        "climbed up the";
        "water spout";
        "Down came the";
        "rain and";
        "washed the";
        "spider out";
        "Out came the";
        "sun and";
        "dried up all";
        "the rain";
        "And the itsy";
        "bitsy spider";
        "climbed up the";
        "spout again" ];
  lineNoteCounts :=
    [
      zero_filled MAX_LINES
        [ 4; 4; 4; 6; 4; 5; 6; 5;
          3; 3; 3; 3; 4; 4; 3; 4;
          0 ];
      zero_filled MAX_LINES
        [ 2; 2; 2; 1; 2; 2; 3;
          2; 2;
          2; 2;
          2; 2;
          2; 2;
          2; 2; 2; 1; 2; 2; 3;
          0 ];
      zero_filled MAX_LINES
        [ 5; 2; 3; 3;
          3; 2; 2; 2;
          3; 2; 2; 3;
          4; 4; 3; 4;
          0 ]
    ]
|}.

Local Close Scope string_scope.

(** * Specification-side definitions

    What follows is not code of the sketch: the notions that the
    properties of the design document are stated with. *)

(** ** Tempo clock *)

(** The tempo clock of the design document, over the rationals:
    [wholeBeatDuration(tempo) = 60000 / tempo] and
    [unitDuration(tempo) = floor(wholeBeatDuration(tempo) / 2)]. *)
Definition wholeBeatDuration (tempo : Z) : QArith_base.Q :=
  QArith_base.Qmake 60000 (Z.to_pos tempo).

Definition unitDuration (tempo : Z) : Z :=
  Qround.Qfloor
    (QArith_base.Qdiv (wholeBeatDuration tempo) (QArith_base.Qmake 2 1)).

(** ** Lyric indexer *)

(** Every entry of the row fits the type [byte] of the table. *)
Definition byte_row (row : list Z) : Prop :=
  Forall (fun c => 0 <= c <= 255) row.

(** The sum of a list of counts. *)
Definition sumZ (l : list Z) : Z := foldr Z.add 0 l.

(** The sum of the counts strictly before index [i]. *)
Definition prefix (row : list Z) (i : Z) : Z := sumZ (take (Z.to_nat i) row).

(** The walk over the counts stops at index [i] for [n] notes played: the
    count there is the zero terminator, or the remainder of [n] after the
    counts up to and including it is negative. *)
Definition stops (row : list Z) (n i : Z) : Prop :=
  exists c, index row i = Some c /\ (c = 0 \/ n - prefix row (i + 1) < 0).

(** [i] is the first index at which the walk stops. *)
Definition first_stop (row : list Z) (n i : Z) : Prop :=
  0 <= i /\ stops row n i /\ forall j, 0 <= j < i -> ~ stops row n j.

(** The zero terminator of a row is at index [k]: the counts before it,
    none of them zero, are the defined lines [0 .. k-1]. *)
Definition terminator_at (row : list Z) (k : Z) : Prop :=
  0 <= k < MAX_LINES /\ index row k = Some 0 /\
  Forall (fun c => c <> 0) (take (Z.to_nat k) row).

(** The coverage property read with the last defined line, the one before
    the terminator, as the line of the notes that the counts leave over. *)
Definition remainder_on_last_line (tbl : list (list Z))
    (songIdx trueLength : Z) : Prop :=
  forall row k,
    index tbl songIdx = Some row -> terminator_at row k ->
    prefix row k < trueLength ->
    forall n, prefix row k <= n < trueLength ->
    exists st sp,
      getLineInfoFromNotesPlayed tbl songIdx n trueLength
        = Some (k - 1, st, sp).

(** ** Line extractor *)

(** The string held by a C character array: the characters before the
    first NUL (all of them when there is none, as for the implicit
    terminator of a literal). *)
Fixpoint cstring (a : list ascii) : list ascii :=
  match a with
  | [] => []
  | c :: a' => if Ascii.eqb c NUL then [] else c :: cstring a'
  end.

(** The lines of a text: the segments between its ['\n']; the last one
    has no ['\n'] after it and may be empty. *)
Fixpoint split_lines (s : list ascii) : list (list ascii) :=
  match s with
  | [] => [[]]
  | c :: s' =>
      if Ascii.eqb c LF then [] :: split_lines s'
      else match split_lines s' with
           | l :: ls => (c :: l) :: ls
           | [] => [[c]]
           end
  end.

(** The lines of a lyric text in flash. *)
Definition lyric_lines (p : list ascii) : list (list ascii) :=
  split_lines (cstring p).

(** The characters of a line that are not carriage returns. *)
Fixpoint line_chars (l : list ascii) : list ascii :=
  match l with
  | [] => []
  | c :: l' => if Ascii.eqb c CR then line_chars l' else c :: line_chars l'
  end.

(** The array [out] once the string [w] and its terminator are written at
    its start; the bytes after the terminator are those of [out]. *)
Definition holding (w out : list ascii) : list ascii :=
  w ++ NUL :: drop (S (length w)) out.

(** The line extractor read as emptying the buffer when [outSize] is
    zero. *)
Definition empties_without_room (l1 l2 l3 : list ascii)
    (songIdx lineIndex : Z) (out : list ascii) : Prop :=
  exists found out',
    getLyricLine l1 l2 l3 songIdx lineIndex out 0 = Some (found, out') /\
    cstring out' = [].

(** ** Articulation split *)

(** The articulation split read over the reals, for a note of [durU]
    units at tempo [bpm]: [onTime = floor(noteTotal * 0.93)] and
    [offTime = noteTotal - onTime]. *)
Definition split_is_floor (bpm durU : Z) : Prop :=
  exists unitMs,
    eighthMs bpm = Some unitMs /\
    gate_split (note_total durU unitMs)
      = Some (note_total durU unitMs * 93 / 100,
              note_total durU unitMs - note_total durU unitMs * 93 / 100).

(** The result of a rounding, as a non-negative significand and an
    exponent. *)
Definition rounded (m e : Z) : spec_float :=
  match m with
  | Z0 => S754_zero false
  | Z.pos p => S754_finite false p e
  | Z.neg _ => S754_nan
  end.

(** [gate_split] agrees with [floor(n * 93 / 100)] for the [fuel] totals
    [n], [n + step], [n + 2 * step], ... *)
Fixpoint split_agrees (fuel : nat) (n step : Z) : bool :=
  match fuel with
  | O => true
  | S fuel' =>
      match gate_split n with
      | Some (on, off) =>
          (on =? n * 93 / 100) && (off =? n - on)
            && split_agrees fuel' (n + step) step
      | None => false
      end
  end.

(** ** Playback engine *)

(** An event that changes neither a pin nor the tone generator. *)
Definition is_inert (e : event) : bool :=
  match e with
  | DigitalWrite _ _ | Tone _ _ | NoTone _ => false
  | _ => true
  end.

(** An event that, when it writes to a pin, writes to one of the five
    indicator pins. *)
Definition addresses_led (e : event) : bool :=
  match e with
  | DigitalWrite pin _ => existsb (Z.eqb pin) LED_PINS
  | _ => true
  end.

(** A song that [playSong] accepts and whose tables cover its [len]
    notes: the index is within every table, the rows hold at least [len]
    entries and the row of line counts holds a zero. *)
Definition playable (cat : catalog) (songIdx len bpm : Z) : Prop :=
  index (melodyLen cat) songIdx = Some len /\ 0 < len <= 255 /\
  index (tempoBPM cat) songIdx = Some bpm /\ 0 < bpm <= int_max /\
  (exists notes, index (melodyNotes cat) songIdx = Some notes /\
                 len <= Z.of_nat (length notes)) /\
  (exists durs, index (durationUnits cat) songIdx = Some durs /\
                len <= Z.of_nat (length durs)) /\
  (exists leds, index (ledIndex cat) songIdx = Some leds /\
                len <= Z.of_nat (length leds)) /\
  (exists row k, index (lineNoteCounts cat) songIdx = Some row /\
                 byte_row row /\ 0 <= k < MAX_LINES /\ index row k = Some 0).

(** Note [i] of a song is not a rest. *)
Definition sounds (cat : catalog) (songIdx : Z) (i : nat) : bool :=
  match index (melodyNotes cat) songIdx ≫= (fun notes => notes !! i) with
  | Some noteHz => negb (to_int noteHz =? NOTE_REST)
  | None => false
  end.

(** The number of notes among the first [n] that are not rests. *)
Fixpoint sounding_notes (cat : catalog) (songIdx : Z) (n : nat) : nat :=
  match n with
  | O => O
  | S n' =>
      (sounding_notes cat songIdx n'
       + if sounds cat songIdx n' then 1 else 0)%nat
  end.

(** A catalog of one song of three notes, none of them a rest, with the
    lyric text of the three lines A, BB, CCC. *)
Definition three_notes : catalog := {|
  melodyLen := [3];
  tempoBPM := [120];
  melodyNotes := [[NOTE_C4; NOTE_E4; NOTE_G4]];
  durationUnits := [[1; 1; 2]];
  ledIndex := [[0; 2; 7]];
  lyrics1 := packed ["A"; "BB"; "CCC"]%string;
  lyrics2 := [];
  lyrics3 := [];
  lineNoteCounts := [zero_filled MAX_LINES [1; 1; 1; 0]]
|}.

(** The same song constructed with tempo 0. *)
Definition tempo_zero : catalog := {|
  melodyLen := melodyLen three_notes;
  tempoBPM := [0];
  melodyNotes := melodyNotes three_notes;
  durationUnits := durationUnits three_notes;
  ledIndex := ledIndex three_notes;
  lyrics1 := lyrics1 three_notes;
  lyrics2 := lyrics2 three_notes;
  lyrics3 := lyrics3 three_notes;
  lineNoteCounts := lineNoteCounts three_notes
|}.

(** * Menu and song selection *)

(** ** [displayMenu] and [handleInvalidInput] *)

(** [displayMenu()]: the prompt on the display and the list of songs on
    the serial line. *)
Definition displayMenu : list event :=
  [LcdClear]
    ++ lcdPrintFixed 0 0 (list_ascii_of_string "Enter 1, 2 or 3")
    ++ lcdPrintFixed 0 1 (list_ascii_of_string "into monitor")
    ++ [SerialPrintln (String LF "Song Selection:");
        SerialPrintln "1 - Country Roads";
        SerialPrintln "2 - Baa Baa Black Sheep";
        SerialPrintln "3 - Itsy Bitsy Spider"].

(** [handleInvalidInput()]: the error message, a pause of 1400 ms, then
    the menu again. *)
Definition handleInvalidInput : list event :=
  [SerialPrintln "ERROR: Invalid input! Enter 1, 2, or 3."; LcdClear]
    ++ lcdPrintFixed 0 0 (list_ascii_of_string "Invalid input!")
    ++ lcdPrintFixed 0 1 (list_ascii_of_string "Try again!")
    ++ [Wait 1400]
    ++ displayMenu.

(** ** [readChoiceChar] *)

Definition TAB : ascii := "009"%char.

(** [c == '\n' || c == '\r' || c == ' ' || c == '\t'] *)
Definition is_blank (c : ascii) : bool :=
  Ascii.eqb c LF || Ascii.eqb c CR || Ascii.eqb c SPACE || Ascii.eqb c TAB.

(** The serial line is the queue of the characters received and not yet
    read: [Serial.available() > 0] is that the queue is not empty and
    [Serial.read()] takes its first character.  A character that arrives
    while the queue is not empty is read as if it had been there before;
    the queue [serial] that a function is given holds those as well.

    [while (Serial.available() > 0) { d = Serial.read(); if (d == '\n')
    break; }]: what is left of the queue. *)
Fixpoint drain_line (serial : list ascii) : list ascii :=
  match serial with
  | [] => []
  | d :: rest => if Ascii.eqb d LF then rest else drain_line rest
  end.

(** [while (millis() - t0 < 25) { ... }]: the clock decides how many
    times the body runs, and the sender what arrives meanwhile.
    [arrivals] has one entry for each run of the body: the characters
    that joined the queue since the run before. *)
Fixpoint drain (arrivals : list (list ascii)) (serial : list ascii)
  : list ascii :=
  match arrivals with
  | [] => serial
  | a :: arrivals' => drain arrivals' (drain_line (serial ++ a))
  end.

(** [readChoiceChar()]: the character returned and the queue
    afterwards. *)
Fixpoint readChoiceChar (arrivals : list (list ascii)) (serial : list ascii)
  : ascii * list ascii :=
  match serial with
  | [] => (NUL, [])
  | c :: rest =>
      if is_blank c then readChoiceChar arrivals rest
      else (c, drain arrivals rest)
  end.

(** ** [setup] and [loop] *)

(** The value of a [char], a signed byte. *)
Definition char_value (c : ascii) : Z :=
  let n := Z.of_N (N_of_ascii c) in if n <? 128 then n else n - 256.

(** What [loop()] prints on the serial line before it plays. *)
Definition playing_banner (songNum : Z) : list event :=
  (if songNum =? 1
   then [SerialPrintln (String LF "Playing: Country Roads")] else [])
    ++ (if songNum =? 2
        then [SerialPrintln (String LF "Playing: Baa Baa Black Sheep")]
        else [])
    ++ (if songNum =? 3
        then [SerialPrintln (String LF "Playing: Itsy Bitsy Spider")]
        else []).

(** One run of [loop()]: the commands sent, and the queue of the serial
    line as [readChoiceChar] left it. *)
Definition loop (cat : catalog) (arrivals : list (list ascii))
    (serial : list ascii) : option (list event * list ascii) :=
  match serial with
  | [] => Some ([], [])
  | _ :: _ =>
      let '(choice, serial') := readChoiceChar arrivals serial in
      if (char_value "1" <=? char_value choice)
           && (char_value choice <=? char_value "3") then
        let songNum := to_byte (char_value choice - char_value "0") in
        let songIdx := to_byte (songNum - 1) in
        played ← playSong cat songIdx;
        Some (playing_banner songNum ++ played ++ displayMenu, serial')
      else Some (handleInvalidInput, serial')
  end.

(** The commands of [setup()] that are not commands of the playback:
    the bring-up of the serial line, the bus, the display and the pins. *)
Inductive boot_event : Type :=
  | SerialBegin (baud : Z)
  | WireBegin
  | LcdInit
  | LcdBacklight
  | PinModeOutput (pin : Z)
  | Command (e : event).

(** [setup()] *)
Definition setup : list boot_event :=
  [SerialBegin 9600; WireBegin; LcdInit; LcdBacklight; Command LcdClear;
   PinModeOutput BUZZER_PIN]
    ++ flat_map (fun pin => [PinModeOutput pin;
                             Command (DigitalWrite pin false)]) LED_PINS
    ++ (Command <$> displayMenu).

(** * Specification-side definitions for the display and the menu *)

(** The display memory: rows of cells, of which the first 16 of rows 0
    and 1 are visible, and the cursor.  [lcd.clear()] blanks the cells and
    homes the cursor, [lcd.setCursor(col, row)] moves it, [lcd.print(c)]
    writes at the cursor and moves it one cell to the right.  A row of the
    memory has 40 cells; the properties below concern prints that stay
    within a row. *)
Record display : Type := {
  cell : Z -> Z -> ascii;
  cursor_col : Z;
  cursor_row : Z
}.

Definition show_event (d : display) (e : event) : display :=
  match e with
  | LcdClear =>
      {| cell := fun _ _ => SPACE; cursor_col := 0; cursor_row := 0 |}
  | LcdSetCursor col row =>
      {| cell := cell d; cursor_col := col; cursor_row := row |}
  | LcdPrint c =>
      {| cell := fun r k =>
                   if (r =? cursor_row d) && (k =? cursor_col d) then c
                   else cell d r k;
         cursor_col := cursor_col d + 1;
         cursor_row := cursor_row d |}
  | _ => d
  end.

Definition show (d : display) (tr : list event) : display :=
  fold_left show_event tr d.

(** The 16 characters that row [r] shows. *)
Definition visible (d : display) (r : Z) : list ascii :=
  (fun k => cell d r (Z.of_nat k)) <$> seq 0 16.

(** A string as a row of the display: its first 16 characters, then
    spaces. *)
Definition padded (w : list ascii) : list ascii :=
  take 16 w ++ replicate (16 - length (take 16 w)) SPACE.

(** A command to the display. *)
Definition is_lcd (e : event) : bool :=
  match e with
  | LcdClear | LcdSetCursor _ _ | LcdPrint _ => true
  | _ => false
  end.

(** The two rows of the menu. *)
Definition menu_shown (d : display) : Prop :=
  visible d 0 = list_ascii_of_string "Enter 1, 2 or 3 " /\
  visible d 1 = list_ascii_of_string "into monitor    ".

(** The lights are off and the tone is stopped. *)
Definition quiet (s : sinks) : Prop := leds_off s /\ sounding s = None.

(** The pins, the tone generator and the display after the commands of
    [setup]. *)
Definition boot (s : sinks) (tr : list boot_event) : sinks :=
  fold_left (fun s b => match b with
                        | Command e => run_event s e
                        | _ => s
                        end) tr s.

Definition boot_show (d : display) (tr : list boot_event) : display :=
  fold_left (fun d b => match b with
                        | Command e => show_event d e
                        | _ => d
                        end) tr d.

(** The first character of the queue that is not blank, NUL when there
    is none. *)
Definition first_nonblank (serial : list ascii) : ascii :=
  default NUL (head (List.filter (fun c => negb (is_blank c)) serial)).

(** The number of newlines in the queue. *)
Definition newlines (serial : list ascii) : nat :=
  length (List.filter (fun c => Ascii.eqb c LF) serial).

(** The line of index [i] of the lyric text of a song as a row of the
    display: without carriage returns, cut to 16 characters, and empty
    when there is no such line. *)
Definition lyric_row (cat : catalog) (songIdx i : Z) : list ascii :=
  match getLyricsPtr (lyrics1 cat) (lyrics2 cat) (lyrics3 cat) songIdx
        ≫= (fun p => lyric_lines p !! Z.to_nat i) with
  | Some l => take 16 (line_chars l)
  | None => []
  end.

(** A line as it is written in a lyric literal: no NUL, no newline, no
    carriage return. *)
Definition plain (l : string) : Prop :=
  Forall (fun c => c <> NUL /\ c <> LF /\ c <> CR) (list_ascii_of_string l).

(** The time that a trace spends in its busy-waits. *)
Definition wait_ms (e : event) : Z :=
  match e with
  | Wait ms => ms
  | _ => 0
  end.

Definition waits (tr : list event) : Z := sumZ (wait_ms <$> tr).

(** The time of note [i] of a song at [unitMs] per duration unit, and
    the time of its first [n] notes. *)
Definition note_ms (cat : catalog) (songIdx unitMs : Z) (i : nat) : Z :=
  match index (durationUnits cat) songIdx ≫= (fun durs => durs !! i) with
  | Some durU => note_total (to_byte durU) unitMs
  | None => 0
  end.

Fixpoint song_ms (cat : catalog) (songIdx unitMs : Z) (n : nat) : Z :=
  match n with
  | O => 0
  | S n' => song_ms cat songIdx unitMs n' + note_ms cat songIdx unitMs n'
  end.

(** The song that a character selects: ['1'], ['2'] and ['3'] select the
    songs of index 0, 1 and 2, no other character selects one. *)
Definition selection (c : ascii) : option Z :=
  if Ascii.eqb c "1" then Some 0
  else if Ascii.eqb c "2" then Some 1
  else if Ascii.eqb c "3" then Some 2
  else None.

(** The number of lights that are on. *)
Definition lit (s : sinks) : nat := length (List.filter (level s) LED_PINS).

(** At most one light is on, and exactly one while the tone sounds. *)
Definition light_with_tone (s : sinks) : Prop :=
  (lit s <= 1)%nat /\ (sounding s <> None -> lit s = 1%nat).

(** [P] holds in every state that the sinks go through while a trace
    runs, from the state before its first command to the state after its
    last one. *)
Fixpoint along (P : sinks -> Prop) (s : sinks) (tr : list event) : Prop :=
  match tr with
  | [] => P s
  | e :: tr' => P s /\ along P (run_event s e) tr'
  end.

(** A command that switches no light on and starts no tone. *)
Definition keeps_quiet (e : event) : bool :=
  match e with
  | DigitalWrite _ true | Tone _ _ => false
  | _ => true
  end.

(** The busy-waits of a trace, each with its time and with what the tone
    generator does while it lasts: the frequency that sounds, or [None]
    for silence. *)
Fixpoint timeline (s : sinks) (tr : list event) : list (Z * option Z) :=
  match tr with
  | [] => []
  | Wait ms :: tr' => (ms, sounding s) :: timeline s tr'
  | e :: tr' => timeline (run_event s e) tr'
  end.

(** * Properties *)

(** ** Machine integers and arrays *)

Lemma to_int_id z : int_min <= z <= int_max -> to_int z = z.
Proof.
  unfold to_int, int_min, int_max. intros H.
  rewrite Z.mod_small; lia.
Qed.

Lemma to_byte_id z : 0 <= z <= 255 -> to_byte z = z.
Proof. unfold to_byte. intros H. rewrite Z.mod_small; lia. Qed.

Lemma to_ulong_id z : 0 <= z <= ulong_max -> to_ulong z = z.
Proof. unfold to_ulong, ulong_max. intros H. rewrite Z.mod_small; lia. Qed.

Lemma index_Some {A} (a : list A) i x :
  index a i = Some x <-> 0 <= i /\ a !! Z.to_nat i = Some x.
Proof.
  unfold index. destruct (Z.leb_spec 0 i); split; intros; try tauto; try easy.
  lia.
Qed.

Lemma index_lt {A} (a : list A) i x :
  index a i = Some x -> 0 <= i < Z.of_nat (length a).
Proof.
  rewrite index_Some. intros [H0 H]. apply lookup_lt_Some in H. lia.
Qed.

Lemma index_is_Some {A} (a : list A) i :
  0 <= i < Z.of_nat (length a) -> exists x, index a i = Some x.
Proof.
  intros H. destruct (lookup_lt_is_Some_2 a (Z.to_nat i)) as [x Hx]; [lia|].
  exists x. apply index_Some. split; [lia|done].
Qed.

Lemma index_mono {A} (a : list A) i j x :
  index a j = Some x -> 0 <= i <= j -> exists y, index a i = Some y.
Proof.
  intros H Hi. apply index_lt in H. apply index_is_Some. lia.
Qed.

Lemma byte_row_index row i c :
  byte_row row -> index row i = Some c -> 0 <= c <= 255.
Proof.
  intros Hb H. apply index_Some in H as [_ H].
  exact (proj1 (Forall_lookup _ _) Hb _ _ H).
Qed.

(** ** Lyric indexer *)

Lemma sumZ_app l1 l2 : sumZ (l1 ++ l2) = sumZ l1 + sumZ l2.
Proof. unfold sumZ. induction l1 as [|x l1 IH]; simpl; lia. Qed.

Lemma prefix_0 row : prefix row 0 = 0.
Proof. reflexivity. Qed.

Lemma prefix_succ row i c :
  index row i = Some c -> prefix row (i + 1) = prefix row i + c.
Proof.
  intros H. apply index_Some in H as [H0 H]. unfold prefix.
  replace (Z.to_nat (i + 1)) with (S (Z.to_nat i)) by lia.
  rewrite (take_S_r _ _ _ H), sumZ_app. simpl. lia.
Qed.

Lemma prefix_bounds row k c :
  byte_row row -> index row k = Some c ->
  forall j, 0 <= j <= k + 1 -> 0 <= prefix row j <= 255 * j.
Proof.
  intros Hb Hk j [Hj0 Hj]. revert Hj. pattern j.
  apply natlike_ind; [| |exact Hj0].
  - intros _. rewrite prefix_0. lia.
  - intros x Hx IH Hle. unfold Z.succ in *.
    destruct (index_mono row x k c Hk) as [y Hy]; [lia|].
    rewrite (prefix_succ _ _ _ Hy).
    pose proof (byte_row_index _ _ _ Hb Hy). lia.
Qed.

Lemma prefix_mono row k c i j :
  byte_row row -> index row k = Some c ->
  0 <= i <= j -> j <= k + 1 -> prefix row i <= prefix row j.
Proof.
  intros Hb Hk [Hi Hij] Hj.
  assert (Hd : forall d : nat,
             i + Z.of_nat d <= k + 1 -> prefix row i <= prefix row (i + Z.of_nat d)).
  { induction d as [|d IH]; intros Hle.
    - rewrite Z.add_0_r. lia.
    - rewrite Nat2Z.inj_succ in *. unfold Z.succ in *.
      rewrite Z.add_assoc.
      destruct (index_mono row (i + Z.of_nat d) k c Hk) as [y Hy]; [lia|].
      rewrite (prefix_succ _ _ _ Hy).
      pose proof (byte_row_index _ _ _ Hb Hy). lia. }
  specialize (Hd (Z.to_nat (j - i))).
  replace (i + Z.of_nat (Z.to_nat (j - i))) with j in Hd by lia. lia.
Qed.

Lemma read_count_row tbl songIdx row i c :
  index tbl songIdx = Some row -> byte_row row -> index row i = Some c ->
  read_count tbl songIdx i = Some c.
Proof.
  intros Hr Hb Hi. unfold read_count. rewrite Hr. simpl. rewrite Hi. simpl.
  rewrite to_byte_id; [done|]. eapply byte_row_index; eauto.
Qed.

Section Indexer.

Variable tbl : list (list Z).
Variables (songIdx : Z) (row : list Z).
Hypothesis Hrow : index tbl songIdx = Some row.
Hypothesis Hbytes : byte_row row.

Lemma find_line_first_stop n k fuel :
  forall li tmp,
  0 <= li <= k -> k < MAX_LINES -> index row k = Some 0 ->
  MAX_LINES - li <= Z.of_nat fuel ->
  tmp = n - prefix row li -> 0 <= tmp <= int_max ->
  (forall j, 0 <= j < li -> ~ stops row n j) ->
  exists r, find_line tbl fuel songIdx li tmp = Some r /\
            li <= r <= k /\ first_stop row n r.
Proof.
  induction fuel as [|fuel IH]; intros li tmp Hli Hk Hz Hfuel Htmp Hrange Hbefore.
  - lia.
  - cbn [find_line].
    destruct (Z.ltb_spec li MAX_LINES) as [_|]; [|lia].
    destruct (index_mono row li k 0 Hz) as [c Hc]; [lia|].
    rewrite (read_count_row _ _ _ _ _ Hrow Hbytes Hc). cbn [mbind option_bind].
    pose proof (byte_row_index _ _ _ Hbytes Hc) as Hcb.
    destruct (Z.eqb_spec c 0) as [->|Hc0].
    { exists li. split; [done|]. split; [lia|].
      split; [lia|]. split; [|done]. exists 0. auto. }
    rewrite (to_int_id (tmp - c)) by (unfold int_min, int_max in *; lia).
    destruct (Z.ltb_spec (tmp - c) 0) as [Hneg|Hpos].
    { exists li. split; [done|]. split; [lia|].
      split; [lia|]. split; [|done]. exists c. split; [done|]. right.
      rewrite (prefix_succ _ _ _ Hc). lia. }
    assert (li <> k) by (intros ->; congruence).
    rewrite (to_int_id (li + 1)) by (unfold int_min, int_max, MAX_LINES in *; lia).
    destruct (IH (li + 1) (tmp - c)) as (r & Hr & Hle & Hfs); try lia; try done.
    + rewrite (prefix_succ _ _ _ Hc). lia.
    + intros j Hj. destruct (Z.eq_dec j li) as [->|]; [|apply Hbefore; lia].
      intros (c' & Hc' & Hs). rewrite Hc in Hc'. injection Hc' as <-.
      rewrite (prefix_succ _ _ _ Hc) in Hs. lia.
    + exists r. split; [done|]. split; [lia|done].
Qed.

Lemma sum_before_prefix li k fuel :
  forall i acc,
  0 <= i <= li -> li <= k -> k < MAX_LINES -> index row k = Some 0 ->
  li - i <= Z.of_nat fuel -> acc = prefix row i ->
  sum_before tbl fuel songIdx li i acc = Some (prefix row li).
Proof.
  induction fuel as [|fuel IH]; intros i acc Hi Hli Hk Hz Hfuel ->; cbn [sum_before].
  - destruct (Z.ltb_spec i li); [lia|]. by replace i with li by lia.
  - destruct (Z.ltb_spec i li); [|by replace i with li by lia].
    destruct (index_mono row i k 0 Hz) as [c Hc]; [lia|].
    rewrite (read_count_row _ _ _ _ _ Hrow Hbytes Hc). cbn [mbind option_bind].
    pose proof (byte_row_index _ _ _ Hbytes Hc) as Hcb.
    pose proof (prefix_bounds row k 0 Hbytes Hz i ltac:(lia)).
    rewrite (to_int_id (i + 1)) by (unfold int_min, int_max, MAX_LINES in *; lia).
    rewrite (to_int_id (prefix row i + c)) by (unfold int_min, int_max, MAX_LINES in *; lia).
    apply IH; try lia; try done.
    by rewrite (prefix_succ _ _ _ Hc).
Qed.

Lemma first_stop_unique n a b :
  first_stop row n a -> first_stop row n b -> a = b.
Proof.
  intros (Ha0 & Ha & Hna) (Hb0 & Hb & Hnb).
  destruct (Z.lt_trichotomy a b) as [H|[H|H]]; [|done|].
  - exfalso. apply (Hnb a); [lia|done].
  - exfalso. apply (Hna b); [lia|done].
Qed.

(** The indexer as a whole, for a row with a zero within its
    [MAX_LINES] entries. *)
Lemma getLineInfo_first_stop n totalNotes k :
  0 <= k < MAX_LINES -> index row k = Some 0 ->
  0 <= n <= int_max ->
  int_min + 255 * MAX_LINES <= totalNotes <= int_max ->
  exists li c,
    (getLineInfoFromNotesPlayed tbl songIdx n totalNotes
      = Some (li, prefix row li,
              if c =? 0 then Z.max 1 (totalNotes - prefix row li) else c))
    /\ (li <= k) /\ (index row li = Some c) /\ first_stop row n li.
Proof.
  intros Hk Hz Hn Ht.
  destruct (find_line_first_stop n k (Z.to_nat MAX_LINES) 0 n)
    as (li & Hfind & Hle & Hfs); try lia; try done.
  { rewrite prefix_0. lia. }
  destruct (index_mono row li k 0 Hz) as [c Hc]; [lia|].
  exists li, c. unfold getLineInfoFromNotesPlayed.
  rewrite Hfind. cbn [mbind option_bind].
  rewrite (sum_before_prefix li k (Z.to_nat li) 0 0); try lia; try done.
  cbn [mbind option_bind].
  rewrite (read_count_row _ _ _ _ _ Hrow Hbytes Hc). cbn [mbind option_bind].
  split; [|split; [lia|done]].
  pose proof (prefix_bounds row k 0 Hbytes Hz li ltac:(lia)).
  destruct (Z.eqb_spec c 0); [|done].
  rewrite to_int_id by (unfold int_min, int_max, MAX_LINES in *; lia).
  destruct (Z.leb_spec (totalNotes - prefix row li) 0);
    do 2 f_equal; lia.
Qed.

End Indexer.

(** ** Tempo clock *)

Lemma unitDuration_nested tempo :
  0 < tempo -> unitDuration tempo = 60000 / tempo / 2.
Proof.
  intros H. unfold unitDuration, wholeBeatDuration, Qround.Qfloor.
  cbn [QArith_base.Qdiv QArith_base.Qinv QArith_base.Qmult
       QArith_base.Qnum QArith_base.Qden].
  rewrite Z.div_div by lia.
  rewrite Pos2Z.inj_mul, Z2Pos.id by lia.
  f_equal.
Qed.

Lemma eighthMs_nested tempo :
  0 < tempo <= int_max -> eighthMs tempo = Some (60000 / tempo / 2).
Proof.
  intros [Hpos Hmax]. unfold eighthMs.
  rewrite (to_ulong_id tempo) by (unfold ulong_max, int_max in *; lia).
  destruct (Z.eqb_spec tempo 0); [lia|].
  assert (0 <= 60000 / tempo <= 60000).
  { split; [apply Z.div_pos; lia|]. apply Z.div_le_upper_bound; nia. }
  rewrite to_ulong_id by (unfold ulong_max; lia). done.
Qed.

(** C2. For every tempo > 0 held in an [int], [eighthMs] returns
    [floor(wholeBeatDuration(tempo) / 2)] with [wholeBeatDuration(tempo) =
    60000 / tempo], which is the nested integer division
    [(60000 / tempo) / 2]; [eighthMs(96) = 312]. *)
Theorem eighthMs_unitDuration :
  forall tempo, 0 < tempo <= int_max ->
    eighthMs tempo = Some (unitDuration tempo) /\
    unitDuration tempo = 60000 / tempo / 2 /\
    eighthMs 96 = Some 312.
Proof.
  intros tempo Htempo.
  rewrite unitDuration_nested by lia.
  split; [by apply eighthMs_nested|]. split; done.
Qed.

Lemma eighthMs_unitDuration_witness :
  0 < 45 <= int_max /\
  eighthMs 45 = Some (unitDuration 45) /\
  unitDuration 45 = 60000 / 45 / 2 /\
  eighthMs 96 = Some 312.
Proof.
  split; [unfold int_max; lia|].
  apply (eighthMs_unitDuration 45). unfold int_max; lia.
Defined.

(** ** Lyric indexer: the returned triple *)

(** C1. For a song whose row of counts holds a zero within its
    [MAX_LINES] entries and for every [notesPlayed >= 0], the indexer
    returns a triple: [lineIndex] is the first index where the terminator
    is reached or the remainder becomes negative, [lineStartNote] the sum
    of the counts before it, [lineNoteSpan] the count there or, when that
    is zero, [max(1, trueLength - lineStartNote)]; the span is at least 1,
    also when [notesPlayed >= trueLength]. *)
Theorem getLineInfo_subtraction_algorithm :
  forall tbl songIdx row notesPlayed trueLength,
    index tbl songIdx = Some row -> byte_row row ->
    (exists k, 0 <= k < MAX_LINES /\ index row k = Some 0) ->
    0 <= notesPlayed <= int_max ->
    int_min + 255 * MAX_LINES <= trueLength <= int_max ->
    exists lineIndex lineStartNote lineNoteSpan count,
      getLineInfoFromNotesPlayed tbl songIdx notesPlayed trueLength
        = Some (lineIndex, lineStartNote, lineNoteSpan) /\
      first_stop row notesPlayed lineIndex /\
      lineStartNote = prefix row lineIndex /\
      index row lineIndex = Some count /\
      lineNoteSpan
        = (if count =? 0 then Z.max 1 (trueLength - lineStartNote)
           else count) /\
      1 <= lineNoteSpan.
Proof.
  intros tbl songIdx row n tl Hrow Hb (k & Hk & Hz) Hn Htl.
  destruct (getLineInfo_first_stop tbl songIdx row Hrow Hb n tl k Hk Hz Hn Htl)
    as (li & c & Hget & Hle & Hc & Hfs).
  exists li, (prefix row li),
    (if c =? 0 then Z.max 1 (tl - prefix row li) else c), c.
  split; [exact Hget|]. repeat (split; [done|]).
  pose proof (byte_row_index _ _ _ Hb Hc).
  destruct (Z.eqb_spec c 0); lia.
Qed.

Lemma getLineInfo_subtraction_algorithm_witness :
  exists lineIndex lineStartNote lineNoteSpan count,
    getLineInfoFromNotesPlayed (lineNoteCounts sketch) 2 47 48
      = Some (lineIndex, lineStartNote, lineNoteSpan) /\
    first_stop (zero_filled MAX_LINES
                  [5; 2; 3; 3; 3; 2; 2; 2; 3; 2; 2; 3; 4; 4; 3; 4; 0])
      47 lineIndex /\
    lineStartNote
      = prefix (zero_filled MAX_LINES
                  [5; 2; 3; 3; 3; 2; 2; 2; 3; 2; 2; 3; 4; 4; 3; 4; 0])
          lineIndex /\
    index (zero_filled MAX_LINES
             [5; 2; 3; 3; 3; 2; 2; 2; 3; 2; 2; 3; 4; 4; 3; 4; 0])
      lineIndex = Some count /\
    lineNoteSpan
      = (if count =? 0 then Z.max 1 (48 - lineStartNote) else count) /\
    1 <= lineNoteSpan.
Proof.
  apply (getLineInfo_subtraction_algorithm (lineNoteCounts sketch) 2).
  - reflexivity.
  - unfold byte_row. vm_compute. repeat (constructor; [split; discriminate|]).
    constructor.
  - exists 16. split; [unfold MAX_LINES; lia|reflexivity].
  - unfold int_max; lia.
  - unfold int_min, int_max, MAX_LINES; lia.
Defined.

Lemma terminator_at_nonzero row k j c :
  terminator_at row k -> 0 <= j < k -> index row j = Some c -> c <> 0.
Proof.
  intros (Hk & Hz & Hall) Hj Hc. apply index_Some in Hc as [_ Hc].
  apply (proj1 (Forall_lookup _ _) Hall (Z.to_nat j)).
  rewrite lookup_take_lt by lia. done.
Qed.

(** The index that the walk reaches for the first note of a defined
    line. *)
Lemma first_stop_line_start row k i :
  byte_row row -> terminator_at row k -> 0 <= i < k ->
  first_stop row (prefix row i) i.
Proof.
  intros Hb Ht Hi. pose proof Ht as (Hk & Hz & _).
  destruct (index_mono row i k 0 Hz) as [c Hc]; [lia|].
  pose proof (terminator_at_nonzero _ _ _ _ Ht Hi Hc).
  pose proof (byte_row_index _ _ _ Hb Hc).
  split; [lia|]. split.
  - exists c. split; [done|]. right. rewrite (prefix_succ _ _ _ Hc). lia.
  - intros j Hj (cj & Hcj & Hs).
    pose proof (terminator_at_nonzero row k j cj Ht ltac:(lia) Hcj).
    pose proof (prefix_mono row k 0 (j + 1) i Hb Hz ltac:(lia) ltac:(lia)).
    lia.
Qed.

(** The index that the walk reaches once every count is used up. *)
Lemma first_stop_terminator row k n :
  byte_row row -> terminator_at row k -> prefix row k <= n ->
  first_stop row n k.
Proof.
  intros Hb Ht Hn. pose proof Ht as (Hk & Hz & _).
  split; [lia|]. split.
  - exists 0. auto.
  - intros j Hj (cj & Hcj & Hs).
    pose proof (terminator_at_nonzero row k j cj Ht ltac:(lia) Hcj).
    pose proof (prefix_mono row k 0 (j + 1) k Hb Hz ltac:(lia) ltac:(lia)).
    lia.
Qed.

(** C9, as stated: for the third song of the sketch the counts sum to 47,
    one less than its length 48, and note 47 is mapped to line 16, the
    index of the terminator, not to the last defined line 15. *)
Lemma remainder_on_last_line_fails :
  ~ remainder_on_last_line (lineNoteCounts sketch) 2 48.
Proof.
  intros H.
  set (row := zero_filled MAX_LINES
                [5; 2; 3; 3; 3; 2; 2; 2; 3; 2; 2; 3; 4; 4; 3; 4; 0]).
  assert (Hterm : terminator_at row 16).
  { split; [unfold MAX_LINES; lia|]. split; [reflexivity|].
    vm_compute. repeat (constructor; [discriminate|]). constructor. }
  assert (Hsum : prefix row 16 = 47) by reflexivity.
  destruct (H row 16 eq_refl Hterm ltac:(lia) 47 ltac:(lia))
    as (st & sp & Hget).
  vm_compute in Hget. discriminate.
Qed.

(** C9, amended. When the counts of the defined lines sum to exactly
    [trueLength], every defined line index is returned for some [n] in
    [0 .. trueLength-1]; when they sum to less, every remaining [n] is
    mapped to one line, the index [k] of the terminator (one past the last
    defined line), which starts at the sum and spans the notes left. *)
Theorem getLineInfo_coverage :
  forall tbl songIdx row k trueLength,
    index tbl songIdx = Some row -> byte_row row -> terminator_at row k ->
    0 <= trueLength <= int_max ->
    (prefix row k = trueLength ->
     forall i, 0 <= i < k ->
     exists n st sp,
       0 <= n < trueLength /\
       getLineInfoFromNotesPlayed tbl songIdx n trueLength
         = Some (i, st, sp)) /\
    (prefix row k < trueLength ->
     forall n, prefix row k <= n < trueLength ->
       getLineInfoFromNotesPlayed tbl songIdx n trueLength
         = Some (k, prefix row k, trueLength - prefix row k)).
Proof.
  intros tbl songIdx row k tl Hrow Hb Ht Htl.
  pose proof Ht as (Hk & Hz & _).
  pose proof (prefix_bounds row k 0 Hb Hz) as Hpb.
  assert (Htl' : int_min + 255 * MAX_LINES <= tl <= int_max)
    by (unfold int_min, int_max, MAX_LINES in *; lia).
  split.
  - intros Hsum i Hi.
    destruct (index_mono row i k 0 Hz) as [c Hc]; [lia|].
    pose proof (terminator_at_nonzero _ _ _ _ Ht Hi Hc).
    pose proof (byte_row_index _ _ _ Hb Hc).
    pose proof (prefix_mono row k 0 (i + 1) k Hb Hz ltac:(lia) ltac:(lia)).
    rewrite (prefix_succ _ _ _ Hc) in *.
    pose proof (Hpb i ltac:(lia)).
    destruct (getLineInfo_first_stop tbl songIdx row Hrow Hb
                (prefix row i) tl k Hk Hz)
      as (li & c' & Hget & _ & _ & Hfs); [lia|done|].
    rewrite (first_stop_unique row _ _ _ Hfs
               (first_stop_line_start row k i Hb Ht Hi)) in Hget.
    eexists (prefix row i), _, _. split; [lia|exact Hget].
  - intros Hsum n Hn.
    pose proof (Hpb k ltac:(lia)).
    destruct (getLineInfo_first_stop tbl songIdx row Hrow Hb n tl k Hk Hz)
      as (li & c' & Hget & _ & Hc' & Hfs); [lia|done|].
    rewrite (first_stop_unique row _ _ _ Hfs
               (first_stop_terminator row k n Hb Ht ltac:(lia))) in *.
    rewrite Hz in Hc'. injection Hc' as <-. rewrite Hget. simpl.
    do 2 f_equal. lia.
Qed.

Lemma getLineInfo_coverage_witness :
  (prefix (zero_filled MAX_LINES
             [5; 2; 3; 3; 3; 2; 2; 2; 3; 2; 2; 3; 4; 4; 3; 4; 0]) 16 = 48 ->
   forall i, 0 <= i < 16 ->
   exists n st sp,
     0 <= n < 48 /\
     getLineInfoFromNotesPlayed (lineNoteCounts sketch) 2 n 48
       = Some (i, st, sp)) /\
  (prefix (zero_filled MAX_LINES
             [5; 2; 3; 3; 3; 2; 2; 2; 3; 2; 2; 3; 4; 4; 3; 4; 0]) 16 < 48 ->
   forall n,
     prefix (zero_filled MAX_LINES
               [5; 2; 3; 3; 3; 2; 2; 2; 3; 2; 2; 3; 4; 4; 3; 4; 0]) 16
       <= n < 48 ->
     getLineInfoFromNotesPlayed (lineNoteCounts sketch) 2 n 48
       = Some (16,
               prefix (zero_filled MAX_LINES
                         [5; 2; 3; 3; 3; 2; 2; 2; 3; 2; 2; 3; 4; 4; 3; 4; 0])
                 16,
               48 - prefix (zero_filled MAX_LINES
                         [5; 2; 3; 3; 3; 2; 2; 2; 3; 2; 2; 3; 4; 4; 3; 4; 0])
                      16)).
Proof.
  apply (getLineInfo_coverage (lineNoteCounts sketch) 2).
  - reflexivity.
  - unfold byte_row. vm_compute. repeat (constructor; [split; discriminate|]).
    constructor.
  - split; [unfold MAX_LINES; lia|]. split; [reflexivity|].
    vm_compute. repeat (constructor; [discriminate|]). constructor.
  - unfold int_max; lia.
Defined.

(** ** Line extractor *)

Lemma store_Some out i c :
  0 <= i < Z.of_nat (length out) ->
  store out i c = Some (<[Z.to_nat i := c]> out).
Proof.
  intros H. unfold store.
  destruct (Z.leb_spec 0 i); [|lia].
  destruct (Z.ltb_spec i (Z.of_nat (length out))); [done|lia].
Qed.

Lemma insert_holding (w out : list ascii) c :
  take (length w) out = w -> (length w < length out)%nat ->
  <[length w := c]> out = w ++ c :: drop (S (length w)) out.
Proof.
  intros Hw Hlen. rewrite insert_take_drop by done. by rewrite Hw.
Qed.

Lemma split_lines_LF s : split_lines (LF :: s) = [] :: split_lines s.
Proof. reflexivity. Qed.

Lemma split_lines_cons c s :
  Ascii.eqb c LF = false ->
  split_lines (c :: s)
    = (c :: hd [] (split_lines s)) :: tl (split_lines s).
Proof.
  intros H. cbn [split_lines]. rewrite H.
  destruct s as [|c' s']; [done|]. by destruct (split_lines (c' :: s')).
Qed.

Lemma split_lines_length_pos s : (0 < length (split_lines s))%nat.
Proof.
  induction s as [|c s IH]; cbn [split_lines]; [simpl; lia|].
  destruct (Ascii.eqb c LF); [simpl; lia|].
  destruct (split_lines s); simpl; lia.
Qed.

Lemma split_lines_lookup_0 s : split_lines s !! 0%nat = Some (hd [] (split_lines s)).
Proof.
  pose proof (split_lines_length_pos s).
  destruct (split_lines s); [simpl in *; lia|done].
Qed.

Lemma cstring_no_NUL a : NUL ∉ cstring a.
Proof.
  induction a as [|c a IH]; cbn [cstring]; [apply not_elem_of_nil|].
  destruct (Ascii.eqb_spec c NUL) as [|Hne]; [apply not_elem_of_nil|].
  apply not_elem_of_cons. split; [congruence|done].
Qed.

Lemma split_lines_elem s l c :
  l ∈ split_lines s -> c ∈ l -> c ∈ s.
Proof.
  revert l. induction s as [|x s IH]; intros l Hl Hc.
  - apply list_elem_of_singleton in Hl as ->. done.
  - destruct (Ascii.eqb x LF) eqn:Hx.
    + cbn [split_lines] in Hl. rewrite Hx in Hl.
      apply elem_of_cons in Hl as [->|Hl].
      * by apply not_elem_of_nil in Hc.
      * apply elem_of_cons. right. by apply (IH l).
    + rewrite (split_lines_cons _ _ Hx) in Hl.
      pose proof (split_lines_length_pos s) as Hpos.
      destruct (split_lines s) as [|l0 ls] eqn:Hs; [simpl in Hpos; lia|].
      simpl in Hl. apply elem_of_cons in Hl as [->|Hl].
      * apply elem_of_cons in Hc as [->|Hc]; [by left|].
        apply elem_of_cons. right. apply (IH l0); [by left|done].
      * apply elem_of_cons. right. apply (IH l); [by right|done].
Qed.

Lemma line_chars_elem l c : c ∈ line_chars l -> c ∈ l.
Proof.
  induction l as [|x l IH]; cbn [line_chars]; [done|].
  destruct (Ascii.eqb x CR).
  - intros H. right. by apply IH.
  - intros [->|H]%elem_of_cons; [by left|right; by apply IH].
Qed.

Lemma cstring_app_NUL w rest : NUL ∉ w -> cstring (w ++ NUL :: rest) = w.
Proof.
  induction w as [|c w IH]; intros Hw; [done|].
  apply not_elem_of_cons in Hw as [Hc Hw].
  cbn [app cstring]. destruct (Ascii.eqb_spec c NUL); [congruence|].
  by rewrite IH.
Qed.

Lemma cstring_holding w out : NUL ∉ w -> cstring (holding w out) = w.
Proof. apply cstring_app_NUL. Qed.

Lemma holding_length w out :
  (length w < length out)%nat -> length (holding w out) = length out.
Proof.
  intros H. unfold holding. rewrite length_app. cbn [length].
  rewrite length_drop. lia.
Qed.

Lemma holding_drop w out n :
  (length w < n)%nat -> (n <= length out)%nat ->
  drop n (holding w out) = drop n out.
Proof.
  intros Hw Hn. unfold holding.
  rewrite drop_app_ge by lia.
  replace (n - length w)%nat with (S (n - S (length w))) by lia.
  cbn [drop]. rewrite drop_drop. f_equal. lia.
Qed.

Lemma holding_lookup_NUL w out : holding w out !! length w = Some NUL.
Proof.
  unfold holding. rewrite lookup_app_r by lia.
  by replace (length w - length w)%nat with 0%nat by lia.
Qed.

Section Scan.

Variables line size : Z.
Hypothesis Hline : 0 <= line <= 255.
Hypothesis Hsize : 1 <= size <= 255.

(** The scan, once it is on the requested line with the string [w]
    already copied. *)
Lemma scan_on_line p :
  forall w out,
  Z.of_nat (length w) <= size - 1 -> size <= Z.of_nat (length out) ->
  take (length w) out = w ->
  scan p line size line (Z.of_nat (length w)) out
    = Some (true,
            holding (take (Z.to_nat (size - 1))
                       (w ++ line_chars (hd [] (lyric_lines p)))) out).
Proof.
  assert (Hfinish : forall w out,
    Z.of_nat (length w) <= size - 1 -> size <= Z.of_nat (length out) ->
    take (length w) out = w ->
    (out' ← store out (Z.of_nat (length w)) NUL; Some (true, out'))
      = Some (true, holding (take (Z.to_nat (size - 1)) (w ++ [])) out)).
  { intros w out Hw Hout Htake. rewrite store_Some by lia.
    cbn [mbind option_bind]. rewrite Nat2Z.id, app_nil_r.
    rewrite take_ge by lia. unfold holding.
    by rewrite insert_holding by (done || lia). }
  induction p as [|c p IH]; intros w out Hw Hout Htake.
  - cbn [scan]. unfold finish. rewrite Z.eqb_refl. by apply Hfinish.
  - cbn [scan]. unfold lyric_lines in *. cbn [cstring].
    destruct (Ascii.eqb_spec c NUL) as [->|HcN].
    { unfold finish. rewrite Z.eqb_refl. by apply Hfinish. }
    destruct (Ascii.eqb_spec c CR) as [->|HcR].
    { rewrite split_lines_cons by done. cbn [hd line_chars]. simpl (Ascii.eqb CR CR).
      by apply IH. }
    destruct (Ascii.eqb_spec c LF) as [->|HcL].
    { rewrite Z.eqb_refl, split_lines_LF. by apply Hfinish. }
    rewrite Z.eqb_refl.
    rewrite split_lines_cons by (by apply Ascii.eqb_neq).
    cbn [hd line_chars]. rewrite (proj2 (Ascii.eqb_neq c CR)) by done.
    rewrite (to_byte_id (size - 1)) by lia.
    destruct (Z.ltb_spec (Z.of_nat (length w)) (size - 1)) as [Hlt|Hge].
    + rewrite store_Some by lia. cbn [mbind option_bind].
      rewrite to_byte_id by lia. rewrite Nat2Z.id.
      set (out' := <[length w := c]> out).
      assert (Hlen' : length out' = length out) by apply length_insert.
      assert (Htake' : take (length (w ++ [c])) out' = w ++ [c]).
      { rewrite length_app. cbn [length]. unfold out'.
        rewrite insert_holding by (done || lia).
        replace (w ++ c :: drop (S (length w)) out)
          with ((w ++ [c]) ++ drop (S (length w)) out)
          by (by rewrite <- app_assoc).
        rewrite take_app_length'; [done|]. rewrite length_app. simpl. lia. }
      replace (Z.of_nat (length w) + 1) with (Z.of_nat (length (w ++ [c])))
        by (rewrite length_app; simpl; lia).
      rewrite IH; [|rewrite length_app; simpl; lia|lia|done].
      rewrite <- app_assoc. cbn [app].
      do 2 f_equal. unfold holding. do 2 f_equal.
      unfold out'. apply drop_insert_lt.
      rewrite length_take, length_app. cbn [length]. lia.
    + rewrite IH by done.
      do 3 f_equal. rewrite !take_app_le by lia. done.
Qed.

(** The scan before the requested line: [cur] lines are behind. *)
Lemma scan_before_line p :
  forall cur pos out,
  0 <= cur < line -> size <= Z.of_nat (length out) ->
  scan p line size cur pos out
    = match lyric_lines p !! Z.to_nat (line - cur) with
      | Some l =>
          Some (true, holding (take (Z.to_nat (size - 1)) (line_chars l)) out)
      | None => Some (false, <[0%nat := NUL]> out)
      end.
Proof.
  assert (Hfinish : forall cur pos out,
    0 <= cur < line -> size <= Z.of_nat (length out) ->
    finish line cur pos out
      = match ([[]] : list (list ascii)) !! Z.to_nat (line - cur) with
        | Some l =>
            Some (true, holding (take (Z.to_nat (size - 1)) (line_chars l)) out)
        | None => Some (false, <[0%nat := NUL]> out)
        end).
  { intros cur pos out Hcur Hout. unfold finish.
    destruct (Z.eqb_spec cur line); [lia|].
    rewrite store_Some by lia. cbn [mbind option_bind].
    replace (Z.to_nat (line - cur)) with (S (Z.to_nat (line - cur - 1))) by lia.
    done. }
  induction p as [|c p IH]; intros cur pos out Hcur Hout.
  - cbn [scan]. by apply Hfinish.
  - cbn [scan]. unfold lyric_lines in *. cbn [cstring].
    destruct (Ascii.eqb_spec c NUL) as [->|HcN]; [by apply Hfinish|].
    assert (Hskip : forall l ls,
              ((l :: ls) : list (list ascii)) !! Z.to_nat (line - cur)
                = ls !! Z.to_nat (line - cur - 1)).
    { intros l ls.
      replace (Z.to_nat (line - cur)) with (S (Z.to_nat (line - cur - 1))) by lia.
      done. }
    assert (Hsame : forall s,
              Ascii.eqb c LF = false ->
              split_lines (c :: s) !! Z.to_nat (line - cur)
                = split_lines s !! Z.to_nat (line - cur)).
    { intros s Hc. rewrite (split_lines_cons _ _ Hc), Hskip.
      pose proof (split_lines_length_pos s).
      destruct (split_lines s) as [|l0 ls]; [simpl in *; lia|].
      by rewrite Hskip. }
    destruct (Ascii.eqb_spec c CR) as [->|HcR].
    { rewrite Hsame by done. by apply IH. }
    destruct (Ascii.eqb_spec c LF) as [->|HcL].
    + destruct (Z.eqb_spec cur line); [lia|].
      rewrite split_lines_LF, Hskip.
      rewrite to_byte_id by lia.
      destruct (Z.eq_dec (cur + 1) line) as [Heq|Hne].
      * rewrite Heq.
        assert (Hon := scan_on_line p [] out ltac:(simpl; lia) ltac:(lia) eq_refl).
        cbn [length app] in Hon. change (Z.of_nat 0) with 0 in Hon. rewrite Hon.
        replace (Z.to_nat (line - cur - 1)) with 0%nat by lia.
        by rewrite split_lines_lookup_0.
      * rewrite IH by lia.
        by replace (line - (cur + 1)) with (line - cur - 1) by lia.
    + destruct (Z.eqb_spec cur line); [lia|].
      rewrite Hsame by done. by apply IH.
Qed.

End Scan.

(** What [getLyricLine] returns and leaves in [out] when there is room
    for the terminator. *)
Lemma getLyricLine_lines l1 l2 l3 songIdx line out size :
  0 <= line <= 255 -> 1 <= size <= 255 -> size <= Z.of_nat (length out) ->
  getLyricLine l1 l2 l3 songIdx line out size
    = match getLyricsPtr l1 l2 l3 songIdx ≫= (fun p => lyric_lines p !! Z.to_nat line) with
      | Some l =>
          Some (true, holding (take (Z.to_nat (size - 1)) (line_chars l)) out)
      | None => Some (false, holding [] out)
      end.
Proof.
  intros Hline Hsize Hout. unfold getLyricLine.
  destruct (Z.eqb_spec size 0); [lia|].
  rewrite store_Some by lia. cbn [mbind option_bind].
  change (Z.to_nat 0) with 0%nat.
  assert (Hh : <[0%nat := NUL]> out = holding [] out).
  { unfold holding. destruct out; [simpl in *; lia|done]. }
  assert (Hd : forall w, holding w (<[0%nat := NUL]> out) = holding w out).
  { intros w. unfold holding. do 2 f_equal. apply drop_insert_lt. lia. }
  destruct (getLyricsPtr l1 l2 l3 songIdx) as [p|]; cbn [mbind option_bind];
    [|by rewrite Hh].
  destruct (Z.eq_dec line 0) as [->|Hline0].
  - assert (Hon := scan_on_line 0 size Hsize p [] (<[0%nat := NUL]> out)
                    ltac:(simpl; lia) ltac:(rewrite length_insert; lia) eq_refl).
    cbn [length app] in Hon. change (Z.of_nat 0) with 0 in Hon. rewrite Hon.
    unfold lyric_lines in *. change (Z.to_nat 0) with 0%nat.
    rewrite split_lines_lookup_0. by rewrite Hd.
  - rewrite (scan_before_line line size Hline Hsize p 0 0 (<[0%nat := NUL]> out));
      [|lia|rewrite length_insert; lia].
    rewrite Z.sub_0_r.
    destruct (lyric_lines p !! Z.to_nat line); [by rewrite Hd|].
    rewrite list_insert_insert_eq. by rewrite Hh.
Qed.

Lemma extracted_no_NUL p i l n :
  lyric_lines p !! i = Some l -> NUL ∉ take n (line_chars l).
Proof.
  intros Hl Hin. apply (cstring_no_NUL p).
  apply (split_lines_elem _ l); [by apply (list_elem_of_lookup_2 _ i)|].
  apply line_chars_elem. by apply (subseteq_take n).
Qed.

(** C5, as stated: with [outSize = 0] the array is not emptied; it still
    holds what it held before the call. *)
Lemma empties_without_room_fails :
  ~ empties_without_room (lyrics1 sketch) (lyrics2 sketch) (lyrics3 sketch)
      0 0 (list_ascii_of_string "Almost heaven," ++ [NUL; NUL; NUL]).
Proof.
  intros (found & out' & Hget & Hempty).
  vm_compute in Hget. injection Hget as <- <-.
  vm_compute in Hempty. discriminate.
Qed.

(** C5, amended. [getLyricLine] returns true if and only if the lyric
    text of the song has a line of that index (the text after the last
    ['\n'] is a line, also when it is empty).  When [outSize] is zero it
    returns false and leaves the array untouched.  Otherwise the array
    ends up NUL-terminated within [outSize]: it holds the empty string on
    failure and the line, without its carriage returns and cut to
    [outSize - 1] characters, on success.  For the text of the three lines
    A, BB, CCC: line 0 is (A, true), line 2 is (CCC, true), line 3 is
    (empty, false). *)
Theorem getLyricLine_found_iff_line :
  forall l1 l2 l3 songIdx lineIndex out outSize,
    0 <= lineIndex <= 255 -> 0 <= outSize <= 255 ->
    outSize <= Z.of_nat (length out) ->
    (exists found out',
       getLyricLine l1 l2 l3 songIdx lineIndex out outSize
         = Some (found, out') /\
       (outSize = 0 -> found = false /\ out' = out) /\
       (1 <= outSize ->
        (found = true <->
         exists p l, getLyricsPtr l1 l2 l3 songIdx = Some p /\
                     lyric_lines p !! Z.to_nat lineIndex = Some l) /\
        (exists i, (i < Z.to_nat outSize)%nat /\ out' !! i = Some NUL) /\
        (found = false -> cstring out' = []) /\
        (forall p l,
           getLyricsPtr l1 l2 l3 songIdx = Some p ->
           lyric_lines p !! Z.to_nat lineIndex = Some l ->
           cstring out' = take (Z.to_nat (outSize - 1)) (line_chars l)))) /\
    (let text := packed ["A"; "BB"; "CCC"]%string in
     let buf := replicate 17 NUL in
     prod_map id cstring <$> getLyricLine text [] [] 0 0 buf 17
       = Some (true, list_ascii_of_string "A") /\
     prod_map id cstring <$> getLyricLine text [] [] 0 2 buf 17
       = Some (true, list_ascii_of_string "CCC") /\
     prod_map id cstring <$> getLyricLine text [] [] 0 3 buf 17
       = Some (false, [])).
Proof.
  intros l1 l2 l3 songIdx line out size Hline Hsize Hout. split; [|by vm_compute].
  destruct (Z.eq_dec size 0) as [->|Hsize0].
  { exists false, out. split; [done|]. split; [done|lia]. }
  rewrite getLyricLine_lines by lia.
  destruct (getLyricsPtr l1 l2 l3 songIdx) as [p|]; cbn [mbind option_bind].
  - destruct (lyric_lines p !! Z.to_nat line) as [l|] eqn:Hl.
    + eexists true, _. split; [done|]. split; [lia|]. intros _.
      pose proof (extracted_no_NUL p _ l (Z.to_nat (size - 1)) Hl) as Hno.
      split; [split; [eauto|done]|].
      split.
      { exists (length (take (Z.to_nat (size - 1)) (line_chars l))).
        split; [rewrite length_take; lia|apply holding_lookup_NUL]. }
      split; [done|].
      intros p' l' [= <-] Hl'. rewrite Hl in Hl'. injection Hl' as <-.
      by apply cstring_holding.
    + eexists false, _. split; [done|]. split; [lia|]. intros _.
      split; [split; [done|]; intros (p' & l' & [= <-] & Hl'); congruence|].
      split; [exists 0%nat; split; [lia|apply (holding_lookup_NUL [])]|].
      split; [done|]. intros p' l' [= <-] Hl'. congruence.
  - eexists false, _. split; [done|]. split; [lia|]. intros _.
    split; [split; [done|]; intros (p' & l' & Hp' & _); congruence|].
    split; [exists 0%nat; split; [lia|apply (holding_lookup_NUL [])]|].
    split; [done|]. intros p' l' Hp'. congruence.
Qed.

Lemma getLyricLine_found_iff_line_witness :
  exists found out',
    getLyricLine (lyrics1 sketch) (lyrics2 sketch) (lyrics3 sketch) 2 16
      (replicate 17 NUL) 17 = Some (found, out') /\
    found = false.
Proof.
  destruct (getLyricLine_found_iff_line
              (lyrics1 sketch) (lyrics2 sketch) (lyrics3 sketch) 2 16
              (replicate 17 NUL) 17)
    as [(found & out' & Hget & _ & Hrest) _]; [lia|lia|simpl; lia|].
  exists found, out'. split; [exact Hget|].
  destruct (Hrest ltac:(lia)) as (Hiff & _).
  destruct found; [|done].
  destruct (proj1 Hiff eq_refl) as (p & l & [= <-] & Hl).
  vm_compute in Hl. discriminate.
Defined.

(** C8. For every line and every [outSize >= 1], [getLyricLine] writes at
    most [outSize - 1] characters and a NUL: nothing at or beyond index
    [outSize] changes (and no write leaves an array of exactly [outSize]
    bytes), and a line longer than [outSize - 1] characters is cut to
    exactly [outSize - 1] characters, followed by the terminator. *)
Theorem getLyricLine_truncates :
  forall l1 l2 l3 songIdx lineIndex out outSize,
    0 <= lineIndex <= 255 -> 1 <= outSize <= 255 ->
    outSize <= Z.of_nat (length out) ->
    exists found out',
      getLyricLine l1 l2 l3 songIdx lineIndex out outSize
        = Some (found, out') /\
      length out' = length out /\
      drop (Z.to_nat outSize) out' = drop (Z.to_nat outSize) out /\
      Z.of_nat (length (cstring out')) <= outSize - 1 /\
      (forall p l,
         getLyricsPtr l1 l2 l3 songIdx = Some p ->
         lyric_lines p !! Z.to_nat lineIndex = Some l ->
         outSize - 1 < Z.of_nat (length (line_chars l)) ->
         found = true /\
         cstring out' = take (Z.to_nat (outSize - 1)) (line_chars l) /\
         Z.of_nat (length (cstring out')) = outSize - 1 /\
         out' !! Z.to_nat (outSize - 1) = Some NUL).
Proof.
  intros l1 l2 l3 songIdx line out size Hline Hsize Hout.
  rewrite getLyricLine_lines by lia.
  assert (Hempty : exists found out',
    Some (false, holding [] out) = Some (found, out') /\
    length out' = length out /\
    drop (Z.to_nat size) out' = drop (Z.to_nat size) out /\
    Z.of_nat (length (cstring out')) <= size - 1).
  { eexists _, _. split; [done|].
    split; [apply holding_length; simpl; lia|].
    split; [apply holding_drop; simpl; lia|].
    rewrite cstring_holding by apply not_elem_of_nil. simpl. lia. }
  destruct (getLyricsPtr l1 l2 l3 songIdx) as [p|]; cbn [mbind option_bind].
  - destruct (lyric_lines p !! Z.to_nat line) as [l|] eqn:Hl.
    + pose proof (extracted_no_NUL p _ l (Z.to_nat (size - 1)) Hl) as Hno.
      assert (Hw : (length (take (Z.to_nat (size - 1)) (line_chars l))
                      <= Z.to_nat (size - 1))%nat)
        by (rewrite length_take; lia).
      eexists _, _. split; [done|].
      split; [apply holding_length; lia|].
      split; [apply holding_drop; lia|].
      rewrite cstring_holding by done.
      split; [lia|].
      intros p' l' [= <-] Hl' Hlong. rewrite Hl in Hl'. injection Hl' as <-.
      split; [done|]. split; [done|].
      assert (Hlen : length (take (Z.to_nat (size - 1)) (line_chars l))
                       = Z.to_nat (size - 1))
        by (rewrite length_take; lia).
      split; [lia|]. rewrite <- Hlen at 1. apply holding_lookup_NUL.
    + destruct Hempty as (found & out' & He & H1 & H2 & H3).
      exists found, out'. do 4 (split; [done|]).
      intros p' l' [= <-] Hl'. congruence.
  - destruct Hempty as (found & out' & He & H1 & H2 & H3).
    exists found, out'. do 4 (split; [done|]).
    intros p' l' Hp'. congruence.
Qed.

Lemma getLyricLine_truncates_witness :
  exists found out',
    getLyricLine (lyrics1 sketch) (lyrics2 sketch) (lyrics3 sketch) 0 4
      (replicate 17 NUL) 17 = Some (found, out') /\
    cstring out' = list_ascii_of_string "Life's old there".
Proof.
  destruct (getLyricLine_truncates
              (lyrics1 sketch) (lyrics2 sketch) (lyrics3 sketch) 0 4
              (replicate 17 NUL) 17)
    as (found & out' & Hget & _ & _ & _ & Hlong); [lia|lia|simpl; lia|].
  exists found, out'. split; [exact Hget|].
  destruct (Hlong (lyrics1 sketch) (list_ascii_of_string "Life's old there,")
              eq_refl eq_refl) as (_ & Hc & _); [simpl; lia|].
  exact Hc.
Defined.

(** ** Single precision rounding *)

Lemma digits2_pos_bounds p :
  2 ^ (Z.pos (digits2_pos p) - 1) <= Z.pos p < 2 ^ Z.pos (digits2_pos p).
Proof.
  induction p as [p IH|p IH|]; cbn [digits2_pos].
  - rewrite Pos2Z.inj_succ. change (Z.pos p~1) with (2 * Z.pos p + 1).
    replace (Z.succ (Z.pos (digits2_pos p)) - 1)
      with (Z.succ (Z.pos (digits2_pos p) - 1)) by lia.
    rewrite !Z.pow_succ_r by lia. lia.
  - rewrite Pos2Z.inj_succ. change (Z.pos p~0) with (2 * Z.pos p).
    replace (Z.succ (Z.pos (digits2_pos p)) - 1)
      with (Z.succ (Z.pos (digits2_pos p) - 1)) by lia.
    rewrite !Z.pow_succ_r by lia. lia.
  - simpl. lia.
Qed.

Lemma Zdigits2_nonneg m : 0 <= Zdigits2 m.
Proof. destruct m; simpl; lia. Qed.

Lemma Zdigits2_lower m : 0 < m -> 2 ^ (Zdigits2 m - 1) <= m.
Proof.
  destruct m as [|p|p]; try lia. intros _. apply digits2_pos_bounds.
Qed.

Lemma Zdigits2_upper m b : 0 <= m < 2 ^ b -> 0 <= b -> Zdigits2 m <= b.
Proof.
  intros [Hm Hlt] Hb. destruct m as [|p|p]; [simpl; lia| |lia].
  pose proof (digits2_pos_bounds p) as [Hlo _]. cbn [Zdigits2].
  destruct (Z.le_gt_cases (Z.pos (digits2_pos p)) b) as [|Hgt]; [done|].
  exfalso.
  assert (2 ^ b <= 2 ^ (Z.pos (digits2_pos p) - 1))
    by (apply Z.pow_le_mono_r; lia).
  lia.
Qed.

Lemma shr_1_m mrs : 0 <= shr_m mrs -> shr_m (shr_1 mrs) = shr_m mrs / 2.
Proof.
  destruct mrs as [m r s]. cbn [shr_m]. intros Hm.
  destruct m as [|[p|p|]|p]; cbn [shr_1 shr_m]; try lia; try done.
  - apply Z.div_unique with 1; lia.
  - apply Z.div_unique with 0; lia.
Qed.

Lemma iter_shr_1_m p :
  forall mrs, 0 <= shr_m mrs ->
    shr_m (SpecFloat.iter_pos shr_1 p mrs) = shr_m mrs / 2 ^ Z.pos p.
Proof.
  induction p as [p IH|p IH|]; intros mrs Hm; cbn [SpecFloat.iter_pos].
  - assert (H1 : 0 <= shr_m (shr_1 mrs))
      by (rewrite shr_1_m by done; apply Z.div_pos; lia).
    assert (H2 : 0 <= shr_m (SpecFloat.iter_pos shr_1 p (shr_1 mrs)))
      by (rewrite IH by done; apply Z.div_pos; lia).
    rewrite IH, IH, shr_1_m by done.
    rewrite !Z.div_div by lia. f_equal.
    change (Z.pos p~1) with (2 * Z.pos p + 1).
    rewrite Z.pow_add_r, Z.pow_mul_r by lia.
    change (2 ^ 2) with 4. change (2 ^ 1) with 2.
    replace (4 ^ Z.pos p) with (2 ^ Z.pos p * 2 ^ Z.pos p); [lia|].
    rewrite <- Z.pow_mul_l. done.
  - assert (H2 : 0 <= shr_m (SpecFloat.iter_pos shr_1 p mrs))
      by (rewrite IH by done; apply Z.div_pos; lia).
    rewrite IH, IH by done.
    rewrite !Z.div_div by lia. f_equal.
    change (Z.pos p~0) with (2 * Z.pos p).
    rewrite Z.pow_mul_r by lia.
    change (2 ^ 2) with 4.
    rewrite <- Z.pow_mul_l. done.
  - rewrite shr_1_m by done. done.
Qed.

Lemma round_nearest_even_bounds q l :
  q <= round_nearest_even q l <= q + 1.
Proof.
  destruct l as [|[| |]]; cbn [round_nearest_even]; try lia.
  destruct (Z.even q); lia.
Qed.

(** A right shift by [fexp]: the shifted mantissa and exponent. *)
Lemma shr_fexp_m m e l :
  0 <= m ->
  let k := Z.max 0 (fexp prec32 emax32 (Zdigits2 m + e) - e) in
  let res := shr_fexp prec32 emax32 m e l in
  shr_m res.1 = m / 2 ^ k /\ res.2 = e + k /\
  (k = 0 -> res.1 = shr_record_of_loc m l).
Proof.
  intros Hm k res. unfold res, shr_fexp, shr. subst k.
  assert (Hrec : shr_m (shr_record_of_loc m l) = m)
    by (by destruct l as [|[| |]]).
  destruct (fexp prec32 emax32 (Zdigits2 m + e) - e) as [|p|p] eqn:Hk;
    cbn [fst snd].
  - rewrite Hrec, Z.div_1_r. split; [done|]. split; [lia|done].
  - rewrite iter_shr_1_m by lia. rewrite Hrec.
    replace (Z.max 0 (Z.pos p)) with (Z.pos p) by lia.
    split; [done|]. split; [done|lia].
  - rewrite Hrec. replace (Z.max 0 (Z.neg p)) with 0 by lia.
    rewrite Z.div_1_r. split; [done|]. split; [lia|done].
Qed.

(** Rounding to nearest: the result is the significand cut to 24 bits,
    or that plus one unit in the last place.  It never exceeds the exact
    value by more than one part in [2^23], is never below the cut
    significand, and is exact for a significand of at most 24 bits. *)
Lemma binary_round_aux_bounds m e :
  0 < m -> -149 <= e ->
  e + Z.max 0 (Zdigits2 m - 24) + 1 <= 104 ->
  exists m' e',
    binary_round_aux prec32 emax32 false m e loc_Exact = rounded m' e' /\
    0 <= m' /\
    e <= e' <= e + Z.max 0 (Zdigits2 m - 24) + 1 /\
    2 ^ 23 * (m' * 2 ^ (e' - e)) <= (2 ^ 23 + 1) * m /\
    m / 2 ^ Z.max 0 (Zdigits2 m - 24) * 2 ^ Z.max 0 (Zdigits2 m - 24)
      <= m' * 2 ^ (e' - e) /\
    (Zdigits2 m <= 24 -> m' = m /\ e' = e).
Proof.
  intros Hm He Hfin. unfold binary_round_aux.
  pose proof (shr_fexp_m m e loc_Exact ltac:(lia)) as (Hm1 & He1 & Hex1).
  destruct (shr_fexp prec32 emax32 m e loc_Exact) as [mrs1 e1].
  cbn [fst snd] in Hm1, He1, Hex1.
  set (k := Z.max 0 (fexp prec32 emax32 (Zdigits2 m + e) - e)) in *.
  assert (Hk : k = Z.max 0 (Zdigits2 m - 24)).
  { unfold k, fexp, emin, prec32, emax32. lia. }
  rewrite <- Hk.
  set (q' := round_nearest_even (shr_m mrs1) (loc_of_shr_record mrs1)).
  assert (H2k : 0 < 2 ^ k) by (apply Z.pow_pos_nonneg; lia).
  assert (Hq : 0 <= m / 2 ^ k /\ m / 2 ^ k * 2 ^ k <= m).
  { split; [apply Z.div_pos; lia|].
    rewrite Z.mul_comm. apply Z.mul_div_le. lia. }
  assert (Hr : m / 2 ^ k <= q' <= m / 2 ^ k + 1).
  { pose proof (round_nearest_even_bounds (shr_m mrs1)
                  (loc_of_shr_record mrs1)) as Hr. fold q' in Hr.
    by rewrite Hm1 in Hr. }
  assert (Hexact : k = 0 -> q' = m).
  { intros Hk0. unfold q'. by rewrite (Hex1 Hk0). }
  assert (Hq' : q' * 2 ^ k * 2 ^ 23 <= (2 ^ 23 + 1) * m /\ q' <= 2 ^ 24 + m).
  { destruct (Z.eq_dec k 0) as [Hk0|Hk0].
    - rewrite (Hexact Hk0), Hk0. change (2 ^ 0) with 1. lia.
    - assert (Hd : Zdigits2 m - 24 = k) by lia.
      pose proof (Zdigits2_lower m Hm) as Hlo.
      replace (Zdigits2 m - 1) with (k + 23) in Hlo by lia.
      rewrite Z.pow_add_r in Hlo by lia.
      split; [nia|].
      assert (m / 2 ^ k <= m) by (apply Z.div_le_upper_bound; nia). lia. }
  destruct Hq' as (Hqb & Hqm).
  pose proof (shr_fexp_m q' e1 loc_Exact ltac:(lia)) as (Hm2 & He2 & _).
  fold q'.
  destruct (shr_fexp prec32 emax32 q' e1 loc_Exact) as [mrs2 e2].
  cbn [fst snd] in Hm2, He2.
  set (k2 := Z.max 0 (fexp prec32 emax32 (Zdigits2 q' + e1) - e1)) in *.
  assert (Hk2 : k2 <= 1 /\ shr_m mrs2 * 2 ^ k2 = q').
  { rewrite Hm2. destruct (Z.eq_dec k 0) as [Hk0|Hk0].
    - assert (Hdq : Zdigits2 q' = Zdigits2 m) by (by rewrite (Hexact Hk0)).
      assert (k2 = 0) as ->
        by (unfold k2, fexp, emin, prec32, emax32; lia).
      change (2 ^ 0) with 1. rewrite Z.div_1_r. lia.
    - assert (Hd : Zdigits2 m - 24 = k) by lia.
      assert (Hq24 : q' <= 2 ^ 24).
      { assert (m / 2 ^ k < 2 ^ 24); [|lia].
        apply Z.div_lt_upper_bound; [lia|].
        rewrite <- Z.pow_add_r by lia.
        replace (k + 24) with (Zdigits2 m) by lia.
        destruct m as [|p|p]; try lia. apply digits2_pos_bounds. }
      assert (Hd25 : Zdigits2 q' <= 25) by (apply Zdigits2_upper; lia).
      destruct (Z.le_gt_cases (Zdigits2 q') 24) as [Hle|Hgt].
      + assert (k2 = 0) as ->
          by (unfold k2, fexp, emin, prec32, emax32; lia).
        change (2 ^ 0) with 1. rewrite Z.div_1_r. lia.
      + assert (k2 = 1) as ->
          by (unfold k2, fexp, emin, prec32, emax32; lia).
        assert (0 < q').
        { destruct (Z.eq_dec q' 0) as [Hz|]; [|lia].
          rewrite Hz in Hgt. simpl in Hgt. lia. }
        pose proof (Zdigits2_lower q' ltac:(lia)) as Hlo.
        assert (2 ^ 24 <= 2 ^ (Zdigits2 q' - 1))
          by (apply Z.pow_le_mono_r; lia).
        assert (q' = 2 ^ 24) as -> by lia.
        split; [lia|done]. }
  destruct Hk2 as (Hk2 & Hm2').
  assert (0 <= k2) by (unfold k2; lia).
  assert (0 < 2 ^ k2) by (apply Z.pow_pos_nonneg; lia).
  exists (shr_m mrs2), e2.
  assert (He2' : e2 = e + k + k2) by lia.
  assert (Hnn : 0 <= shr_m mrs2) by (rewrite Hm2; apply Z.div_pos; lia).
  split.
  { unfold rounded. destruct (shr_m mrs2) as [|p|p]; [done| |lia].
    destruct (Z.leb_spec e2 (emax32 - prec32)) as [|Hbig]; [done|].
    unfold emax32, prec32 in Hbig. lia. }
  split; [done|]. split; [lia|].
  assert (Heq : shr_m mrs2 * 2 ^ (e2 - e) = q' * 2 ^ k).
  { replace (e2 - e) with (k2 + k) by lia.
    rewrite Z.pow_add_r, Z.mul_assoc by lia. by rewrite Hm2'. }
  rewrite Heq.
  split; [lia|]. split; [nia|].
  intros Hd. assert (Hk0 : k = 0) by lia.
  assert (Hdq : Zdigits2 q' = Zdigits2 m) by (by rewrite (Hexact Hk0)).
  assert (Hk20 : k2 = 0) by (unfold k2, fexp, emin, prec32, emax32; lia).
  rewrite Hk20, (Hexact Hk0) in Hm2'. change (2 ^ 0) with 1 in Hm2'. lia.
Qed.

(** ** Articulation split *)

Lemma pos_iter_xO p d : Z.pos (Pos.iter xO p d) = Z.pos p * 2 ^ Z.pos d.
Proof.
  induction d as [|d IH] using Pos.peano_ind.
  - simpl. lia.
  - rewrite Pos.iter_succ, Pos2Z.inj_succ, Z.pow_succ_r by lia.
    change (Z.pos (Pos.iter xO p d)~0) with (2 * Z.pos (Pos.iter xO p d)).
    lia.
Qed.

(** [(float)n]: the significand is first aligned on 24 bits. *)
Lemma shl_align_ulong p :
  Z.pos p <= ulong_max ->
  exists mz ez,
    shl_align p 0 (fexp prec32 emax32 (Z.pos (digits2_pos p) + 0)) = (mz, ez) /\
    -23 <= ez <= 0 /\ Z.pos mz = Z.pos p * 2 ^ (- ez) /\ Z.pos mz < 2 ^ 32 /\
    (Z.pos p < 2 ^ 24 -> Z.pos mz < 2 ^ 24).
Proof.
  intros Hp. pose proof (digits2_pos_bounds p) as [Hlo Hhi].
  set (d := Z.pos (digits2_pos p)) in *.
  assert (Hd : 1 <= d <= 32).
  { split; [unfold d; lia|].
    change d with (Zdigits2 (Z.pos p)). apply Zdigits2_upper;
      unfold ulong_max in *; lia. }
  unfold shl_align.
  replace (fexp prec32 emax32 (d + 0) - 0) with (d - 24)
    by (unfold fexp, emin, prec32, emax32; lia).
  destruct (d - 24) as [|q|q] eqn:Hq.
  - exists p, 0. split; [done|]. split; [lia|].
    change (2 ^ (- 0)) with 1. unfold ulong_max in *. lia.
  - exists p, 0. split; [done|]. split; [lia|].
    change (2 ^ (- 0)) with 1. unfold ulong_max in *. lia.
  - exists (Pos.iter xO p q), (fexp prec32 emax32 (d + 0)).
    assert (He : fexp prec32 emax32 (d + 0) = d - 24)
      by (unfold fexp, emin, prec32, emax32; lia).
    split; [done|]. rewrite He. split; [lia|].
    rewrite pos_iter_xO. replace (- (d - 24)) with (Z.pos q) by lia.
    split; [done|].
    assert (2 ^ d * 2 ^ Z.pos q = 2 ^ 24).
    { rewrite <- Z.pow_add_r by lia. f_equal. lia. }
    assert (0 < 2 ^ Z.pos q) by (apply Z.pow_pos_nonneg; lia).
    assert (Z.pos p * 2 ^ Z.pos q < 2 ^ 24) by nia.
    change (2 ^ 24) with 16777216 in *. change (2 ^ 32) with 4294967296. lia.
Qed.

Lemma truncation_bounds m e E :
  0 <= m -> E <= e -> E <= 0 ->
  let v := if 0 <=? e then m * 2 ^ e else m / 2 ^ (- e) in
  0 <= v /\ v * 2 ^ (- E) <= m * 2 ^ (e - E) < (v + 1) * 2 ^ (- E).
Proof.
  intros Hm HE HE0 v. unfold v. destruct (Z.leb_spec 0 e) as [Hpos|Hneg].
  - assert (0 < 2 ^ e) by (apply Z.pow_pos_nonneg; lia).
    assert (0 < 2 ^ (- E)) by (apply Z.pow_pos_nonneg; lia).
    replace (e - E) with (e + - E) by lia. rewrite Z.pow_add_r by lia.
    split; [nia|]. split; [lia|nia].
  - assert (H2 : 0 < 2 ^ (- e)) by (apply Z.pow_pos_nonneg; lia).
    assert (0 < 2 ^ (e - E)) by (apply Z.pow_pos_nonneg; lia).
    replace (- E) with (- e + (e - E)) by lia. rewrite Z.pow_add_r by lia.
    pose proof (Z.mul_div_le m _ H2).
    pose proof (Z.mul_succ_div_gt m _ H2). unfold Z.succ in *.
    assert (0 <= m / 2 ^ (- e)) by (apply Z.div_pos; lia).
    split; [done|]. split; nia.
Qed.

(** The value of [(unsigned long)f] for the result of a rounding. *)
Lemma ulong_of_rounded m e :
  0 <= m ->
  (if 0 <=? e then m * 2 ^ e else m / 2 ^ (- e)) <= ulong_max ->
  ulong_of_float (rounded m e)
    = Some (if 0 <=? e then m * 2 ^ e else m / 2 ^ (- e)).
Proof.
  intros Hm Hv. destruct m as [|p|p]; [|cbn [rounded ulong_of_float]|lia].
  - cbn [rounded ulong_of_float]. destruct (0 <=? e); [done|].
    by rewrite Zdiv_0_l.
  - destruct (Z.leb_spec
                (if 0 <=? e then Z.pos p * 2 ^ e else Z.pos p / 2 ^ (- e))
                ulong_max); [done|lia].
Qed.

(** The articulation split, step by step: [n] aligned as [mz * 2^ez], its
    conversion [mx * 2^ex], and the rounded product [m2 * 2^e2] with the
    significand [15602811] of [GATE]. *)
Lemma gate_split_rounded n :
  1 <= n <= ulong_max ->
  exists mz ez mx ex m2 e2,
    (-23 <= ez <= 0 /\ mz = n * 2 ^ (- ez) /\ mz < 2 ^ 32) /\
    (0 <= mx /\ ez <= ex <= ez + 9 /\
     2 ^ 23 * (mx * 2 ^ (ex - ez)) <= (2 ^ 23 + 1) * mz) /\
    (n < 2 ^ 24 -> mz < 2 ^ 24 /\ mx = mz /\ ex = ez) /\
    (0 <= m2 /\
     ex - 24 <= e2 <= ex - 24 + Z.max 0 (Zdigits2 (mx * 15602811) - 24) + 1 /\
     2 ^ 23 * (m2 * 2 ^ (e2 - (ex - 24))) <= (2 ^ 23 + 1) * (mx * 15602811) /\
     mx * 15602811 / 2 ^ Z.max 0 (Zdigits2 (mx * 15602811) - 24)
       * 2 ^ Z.max 0 (Zdigits2 (mx * 15602811) - 24)
       <= m2 * 2 ^ (e2 - (ex - 24))) /\
    gate_split n
      = (on ← ulong_of_float (rounded m2 e2); Some (on, to_ulong (n - on))).
Proof.
  intros Hn. unfold gate_split, float_of_ulong, binary_normalize.
  destruct n as [|p|p]; try lia. unfold binary_round.
  destruct (shl_align_ulong p ltac:(lia))
    as (mz & ez & -> & Hez & Hmz & Hmz32 & Hmz24).
  assert (Hdz : Zdigits2 (Z.pos mz) <= 32) by (apply Zdigits2_upper; lia).
  destruct (binary_round_aux_bounds (Z.pos mz) ez)
    as (mx & ex & -> & Hmx & Hex & Hx & _ & Hxx); [lia|lia|lia|].
  assert (Hsmall : Z.pos p < 2 ^ 24 ->
            Z.pos mz < 2 ^ 24 /\ mx = Z.pos mz /\ ex = ez).
  { intros Hp. split; [by apply Hmz24|]. apply Hxx.
    apply Zdigits2_upper; [|lia]. split; [lia|by apply Hmz24]. }
  exists (Z.pos mz), ez, mx, ex.
  destruct mx as [|px|px]; [|cbn [rounded]|lia].
  { exists 0, (ex - 24). cbn [rounded SFmul GATE xorb].
    split; [done|]. split; [lia|]. split; [done|].
    split; [|done]. rewrite Z.sub_diag.
    change (Z.max 0 (Zdigits2 (0 * 15602811) - 24)) with 0.
    change (2 ^ 0) with 1. change (0 * 15602811 / 1 * 1) with 0. lia. }
  cbn [SFmul GATE xorb].
  assert (Hpow : 0 < 2 ^ (ex - ez)) by (apply Z.pow_pos_nonneg; lia).
  assert (Hpx : Z.pos px <= 2 ^ 33).
  { change (2 ^ 23) with 8388608 in Hx. change (2 ^ 32) with 4294967296 in *.
    change (2 ^ 33) with 8589934592. nia. }
  assert (Hd58 : Zdigits2 (Z.pos (px * 15602811)) <= 58).
  { apply Zdigits2_upper; [|lia]. rewrite Pos2Z.inj_mul.
    change (2 ^ 33) with 8589934592 in *.
    change (2 ^ 58) with 288230376151711744. lia. }
  destruct (binary_round_aux_bounds (Z.pos (px * 15602811)) (ex + -24))
    as (m2 & e2 & -> & Hm2 & He2 & H2 & H2l & _); [lia|lia|lia|].
  rewrite Pos2Z.inj_mul in *.
  replace (ex + -24) with (ex - 24) in * by lia.
  exists m2, e2. split; [done|]. split; [lia|]. split; [done|]. done.
Qed.

(** The articulation split never gives more on-time than the note has:
    the two parts add up to the total. *)
Lemma gate_split_sum n :
  1 <= n <= ulong_max ->
  exists on, gate_split n = Some (on, n - on) /\ 0 <= on <= n.
Proof.
  intros Hn.
  destruct (gate_split_rounded n Hn)
    as (mz & ez & mx & ex & m2 & e2 & (Hez & Hmz & _) & (Hmx & Hex & Hx)
        & _ & (Hm2 & He2 & H2 & _) & ->).
  set (G := 15602811) in *. set (E := ex - 24) in *.
  pose proof (truncation_bounds m2 e2 E Hm2 ltac:(lia) ltac:(unfold E; lia))
    as (Hv0 & H1 & _).
  set (v := if 0 <=? e2 then m2 * 2 ^ e2 else m2 / 2 ^ (- e2)) in *.
  set (A := 2 ^ (- E)) in *. set (B := 2 ^ (ex - ez)) in *.
  set (C := 2 ^ (- ez)) in *. set (P := m2 * 2 ^ (e2 - E)) in *.
  assert (HA : 0 < A) by (apply Z.pow_pos_nonneg; unfold E; lia).
  assert (HB : 0 < B) by (apply Z.pow_pos_nonneg; lia).
  assert (HC : 0 < C) by (apply Z.pow_pos_nonneg; lia).
  assert (HAB : A * B = 2 ^ 24 * C).
  { unfold A, B, C. rewrite <- !Z.pow_add_r by (unfold E; lia).
    f_equal. unfold E. lia. }
  change (2 ^ 23) with 8388608 in *. change (2 ^ 24) with 16777216 in *.
  assert (Hle : v <= n).
  { assert (H3 : 8388608 * (v * A) <= 8388609 * (mx * G)) by lia.
    assert (H4 : 8388608 * (8388608 * (v * A)) * B
                 <= 8388609 * G * (8388609 * (n * C))).
    { transitivity (8388609 * G * (8388608 * (mx * B))); [|subst mz; nia].
      replace (8388609 * G * (8388608 * (mx * B)))
        with (8388608 * (8388609 * (mx * G)) * B) by lia.
      apply Z.mul_le_mono_nonneg_r; lia. }
    replace (8388608 * (8388608 * (v * A)) * B)
      with (8388608 * 8388608 * v * (A * B)) in H4 by lia.
    rewrite HAB in H4.
    assert (H5 : 8388608 * 8388608 * 16777216 * v <= 8388609 * G * 8388609 * n).
    { apply (Z.mul_le_mono_pos_r _ _ C HC). lia. }
    unfold G in H5. lia. }
  rewrite ulong_of_rounded by (fold v; lia). fold v.
  cbn [mbind option_bind]. rewrite to_ulong_id by lia.
  exists v. split; [done|lia].
Qed.

(** Below 281943 the split is the floor of 93 hundredths of the total,
    unless the fractional part of that is above 96 hundredths. *)
Lemma gate_split_floor_analytic n :
  1 <= n < 281943 -> n * 93 mod 100 <= 96 ->
  gate_split n = Some (n * 93 / 100, n - n * 93 / 100).
Proof.
  intros Hn Hr. change 281943 with 281943 in Hn.
  assert (Hn' : 1 <= n <= ulong_max) by (unfold ulong_max; lia).
  destruct (gate_split_rounded n Hn')
    as (mz & ez & mx & ex & m2 & e2 & (Hez & Hmz & _) & _ & Hsmall
        & (Hm2 & He2 & H2 & H2l) & ->).
  destruct Hsmall as (Hmz24 & -> & ->); [change (2 ^ 24) with 16777216; lia|].
  set (G := 15602811) in *. set (E := ez - 24) in *.
  set (k := Z.max 0 (Zdigits2 (mz * G) - 24)) in *.
  pose proof (truncation_bounds m2 e2 E Hm2 ltac:(lia) ltac:(unfold E; lia))
    as (Hv0 & H1 & H1u).
  set (v := if 0 <=? e2 then m2 * 2 ^ e2 else m2 / 2 ^ (- e2)) in *.
  set (A := 2 ^ (- E)) in *. set (C := 2 ^ (- ez)) in *.
  set (P := m2 * 2 ^ (e2 - E)) in *.
  assert (HA : 0 < A) by (apply Z.pow_pos_nonneg; unfold E; lia).
  assert (HC : 0 < C) by (apply Z.pow_pos_nonneg; lia).
  assert (HAC : A = 2 ^ 24 * C).
  { unfold A, C. rewrite <- Z.pow_add_r by lia. f_equal. unfold E. lia. }
  pose proof (Z.div_mod (n * 93) 100 ltac:(lia)) as Hdm.
  pose proof (Z.mod_pos_bound (n * 93) 100 ltac:(lia)) as Hmb.
  set (k0 := n * 93 / 100) in *. set (r := n * 93 mod 100) in *.
  assert (Hk : 0 <= k <= 24).
  { unfold k. assert (Zdigits2 (mz * G) <= 48); [|lia].
    apply Zdigits2_upper; [|lia]. unfold G.
    change (2 ^ 24) with 16777216 in *.
    change (2 ^ 48) with 281474976710656. nia. }
  assert (H2k : 0 < 2 ^ k) by (apply Z.pow_pos_nonneg; lia).
  change (2 ^ 23) with 8388608 in *. change (2 ^ 24) with 16777216 in *.
  assert (Hlow : k0 <= v).
  { assert (k0 * A <= P); [|nia].
    etransitivity; [|exact H2l].
    assert (HAk : A = 2 ^ (- E - k) * 2 ^ k).
    { unfold A. rewrite <- Z.pow_add_r by (unfold E; lia). f_equal. lia. }
    rewrite HAk, Z.mul_assoc.
    apply Z.mul_le_mono_nonneg_r; [lia|].
    apply Z.div_le_lower_bound; [lia|].
    replace (2 ^ k * (k0 * 2 ^ (- E - k))) with (k0 * A) by (rewrite HAk; lia).
    rewrite HAC, Hmz. fold C. unfold G. nia. }
  assert (Hupp : v <= k0).
  { assert (P < (k0 + 1) * A); [|nia].
    assert (8388608 * P < 8388608 * ((k0 + 1) * A)); [|lia].
    eapply Z.le_lt_trans; [exact H2|].
    rewrite HAC, Hmz. fold C. unfold G.
    assert (8388609 * (n * 15602811) < 8388608 * ((k0 + 1) * 16777216)) by lia.
    nia. }
  assert (Hv : v = k0) by lia.
  rewrite ulong_of_rounded by (fold v; unfold ulong_max; lia). fold v.
  rewrite Hv. cbn [mbind option_bind].
  rewrite to_ulong_id by (unfold ulong_max; lia). done.
Qed.

Lemma split_agrees_spec step fuel :
  forall n, split_agrees fuel n step = true ->
  forall j, 0 <= j < Z.of_nat fuel ->
    gate_split (n + step * j)
      = Some ((n + step * j) * 93 / 100,
              (n + step * j) - (n + step * j) * 93 / 100).
Proof.
  induction fuel as [|fuel IH]; intros n H j Hj; [lia|].
  cbn [split_agrees] in H.
  destruct (gate_split n) as [[on off]|] eqn:Hn; [|done].
  apply andb_prop in H as [H Hrest]. apply andb_prop in H as [Hon Hoff].
  apply Z.eqb_eq in Hon, Hoff.
  destruct (Z.eq_dec j 0) as [->|Hne].
  - rewrite Z.mul_0_r, Z.add_0_r, Hn. by subst.
  - replace (n + step * j) with (n + step + step * (j - 1)) by lia.
    apply IH; [done|lia].
Qed.

(** The totals below 281943 whose 93 hundredths have a fractional part
    of 97, 98 or 99 hundredths: those that end in 29, 86 or 43. *)
Lemma split_agrees_29 : split_agrees 2820 29 100 = true.
Proof. vm_compute. reflexivity. Qed.

Lemma split_agrees_86 : split_agrees 2819 86 100 = true.
Proof. vm_compute. reflexivity. Qed.

Lemma split_agrees_43 : split_agrees 2819 43 100 = true.
Proof. vm_compute. reflexivity. Qed.

Lemma gate_split_floor n :
  1 <= n < 281943 ->
  gate_split n = Some (n * 93 / 100, n - n * 93 / 100).
Proof.
  intros Hn.
  destruct (Z.le_gt_cases (n * 93 mod 100) 96) as [Hr|Hr];
    [by apply gate_split_floor_analytic|].
  pose proof (Z.div_mod (n * 93) 100 ltac:(lia)) as Hdm.
  pose proof (Z.mod_pos_bound (n * 93) 100 ltac:(lia)) as Hmb.
  pose proof (Z.div_mod n 100 ltac:(lia)) as Hdn.
  pose proof (Z.mod_pos_bound n 100 ltac:(lia)) as Hnb.
  set (k0 := n * 93 / 100) in *. set (r := n * 93 mod 100) in *.
  set (j := n / 100) in *. set (t := n mod 100) in *.
  assert (Ht : t = 57 * r + 100 * (57 * k0 - 5301 * j - 53 * t)) by lia.
  assert (Hcases : t = 29 \/ t = 86 \/ t = 43) by lia.
  assert (Hn100 : n = t + 100 * j) by lia.
  unfold k0. rewrite Hn100.
  destruct Hcases as [Ht'|[Ht'|Ht']]; rewrite Ht'.
  - apply (split_agrees_spec 100 2820 29 split_agrees_29). lia.
  - apply (split_agrees_spec 100 2819 86 split_agrees_86). lia.
  - apply (split_agrees_spec 100 2819 43 split_agrees_43). lia.
Qed.

Lemma note_total_range durU unitMs : 1 <= note_total durU unitMs <= ulong_max.
Proof.
  unfold note_total, to_ulong, ulong_max.
  pose proof (Z.mod_pos_bound (durU * unitMs) (2 ^ 32) ltac:(lia)).
  destruct (Z.eqb_spec ((durU * unitMs) mod 2 ^ 32) 0); lia.
Qed.

(** C3, as stated: a note of 149 units at tempo 13 lasts 343743 ms;
    [floor(343743 * 0.93)] is 319680, the sketch computes 319681. *)
Lemma split_is_floor_fails : ~ split_is_floor 13 149.
Proof.
  intros (unitMs & Hu & Hs). vm_compute in Hu. injection Hu as <-.
  vm_compute in Hs. discriminate.
Qed.

(** A note of a song of tempo 28 or more lasts less than 281943 ms. *)
Lemma note_total_tempo bpm durU :
  28 <= bpm <= int_max -> 0 <= durU <= 255 ->
  note_total durU (60000 / bpm / 2) < 281943.
Proof.
  intros Hbpm Hdur.
  assert (H1 : 60000 / bpm <= 60000 / 28)
    by (apply Z.div_le_compat_l; lia).
  assert (H2 : 60000 / bpm / 2 <= 60000 / 28 / 2)
    by (apply Z.div_le_mono; lia).
  change (60000 / 28 / 2) with 1071 in H2.
  assert (H0 : 0 <= 60000 / bpm / 2)
    by (apply Z.div_pos; [apply Z.div_pos|]; lia).
  unfold note_total.
  rewrite to_ulong_id by (unfold ulong_max; nia).
  destruct (Z.eqb_spec (durU * (60000 / bpm / 2)) 0); nia.
Qed.

(** C3, amended. For every note, [onTime] is the binary32 product of the
    note total and the binary32 constant nearest to 0.93, truncated, and
    [offTime = noteTotal - onTime]: the two add up to [noteTotal] and
    neither is negative.  [onTime] is [floor(noteTotal * 0.93)] whenever
    [noteTotal < 281943], which is so for every note of a song of tempo
    28 or more; for [noteTotal = 624] the split is 580 and 44. *)
Theorem gate_split_articulation :
  forall durU unitMs,
    exists onTime offTime,
      gate_split (note_total durU unitMs) = Some (onTime, offTime) /\
      offTime = note_total durU unitMs - onTime /\
      onTime + offTime = note_total durU unitMs /\
      0 <= onTime /\ 0 <= offTime /\
      (note_total durU unitMs < 281943 ->
       onTime = note_total durU unitMs * 93 / 100) /\
      (forall bpm,
         28 <= bpm <= int_max -> eighthMs bpm = Some unitMs ->
         0 <= durU <= 255 ->
         onTime = note_total durU unitMs * 93 / 100) /\
      gate_split 624 = Some (580, 44).
Proof.
  intros durU unitMs. pose proof (note_total_range durU unitMs) as Hr.
  destruct (gate_split_sum _ Hr) as (on & Hsplit & Hon).
  exists on, (note_total durU unitMs - on).
  split; [done|]. split; [done|]. split; [lia|]. split; [lia|].
  split; [lia|].
  assert (Hfloor : note_total durU unitMs < 281943 ->
                   on = note_total durU unitMs * 93 / 100).
  { intros Hlt. rewrite gate_split_floor in Hsplit by lia. congruence. }
  split; [done|]. split; [|by vm_compute].
  intros bpm Hbpm Hu Hdur. apply Hfloor.
  rewrite eighthMs_nested in Hu by lia. injection Hu as <-.
  by apply note_total_tempo.
Qed.

Lemma gate_split_articulation_witness :
  exists onTime offTime,
    gate_split (note_total 2 312) = Some (onTime, offTime) /\
    onTime = 580 /\ offTime = 44.
Proof.
  destruct (gate_split_articulation 2 312)
    as (on & off & Hs & Hoff & _ & _ & _ & Hfloor & _ & _).
  exists on, off. split; [exact Hs|].
  assert (Hon : on = 580) by (apply Hfloor; vm_compute; reflexivity).
  split; [exact Hon|]. rewrite Hoff, Hon. reflexivity.
Defined.

(** ** Playback engine *)

Lemma run_app s tr1 tr2 : run s (tr1 ++ tr2) = run (run s tr1) tr2.
Proof. apply fold_left_app. Qed.

Lemma lights_on_app tr1 tr2 :
  lights_on (tr1 ++ tr2) = (lights_on tr1 + lights_on tr2)%nat.
Proof. unfold lights_on. by rewrite List.filter_app, length_app. Qed.

Lemma inert_run s tr :
  forallb is_inert tr = true -> run s tr = s.
Proof.
  revert s. induction tr as [|e tr IH]; intros s H; [done|].
  cbn [forallb] in H. apply andb_prop in H as [He Htr].
  cbn [run fold_left]. change (fold_left run_event tr) with (fun s => run s tr).
  cbn beta. rewrite IH by done. by destruct e.
Qed.

Lemma inert_lights_on tr :
  forallb is_inert tr = true -> lights_on tr = 0%nat.
Proof.
  induction tr as [|e tr IH]; intros H; [done|].
  cbn [forallb] in H. apply andb_prop in H as [He Htr].
  unfold lights_on in *. cbn [List.filter].
  destruct e; try done; cbn [is_light_on]; by apply IH.
Qed.

Lemma inert_app tr1 tr2 :
  forallb is_inert (tr1 ++ tr2)
    = forallb is_inert tr1 && forallb is_inert tr2.
Proof. apply forallb_app. Qed.

Lemma print_row_inert cols text : forallb is_inert (print_row cols text) = true.
Proof.
  assert (Hpad : forall n, forallb is_inert (replicate n (LcdPrint SPACE)) = true).
  { induction n as [|n IH]; [done|]. cbn [replicate forallb is_inert]. done. }
  revert text. induction cols as [|cols IH]; intros text; [done|].
  cbn [print_row]. destruct text as [|c text]; [apply Hpad|].
  destruct (Ascii.eqb c NUL); [apply Hpad|].
  cbn [forallb is_inert]. apply IH.
Qed.

Lemma showTwoLines_inert l1 l2 : forallb is_inert (showTwoLines l1 l2) = true.
Proof.
  unfold showTwoLines, lcdPrintFixed. rewrite inert_app.
  cbn [forallb is_inert]. by rewrite !print_row_inert.
Qed.

(** After [noTone] and [allLEDsOff], whatever came before, the lights are
    off and the tone is stopped. *)
Lemma silenced s tr :
  leds_off (run s (tr ++ [NoTone BUZZER_PIN] ++ allLEDsOff)) /\
  sounding (run s (tr ++ [NoTone BUZZER_PIN] ++ allLEDsOff)) = None.
Proof.
  rewrite run_app. generalize (run s tr). intros s'. split; [|done].
  intros pin Hpin. unfold LED_PINS in Hpin.
  repeat (apply elem_of_cons in Hpin as [-> | Hpin]; [done|]).
  by apply not_elem_of_nil in Hpin.
Qed.

Lemma silenced_then s tr rest :
  forallb is_inert rest = true ->
  leds_off (run s (tr ++ [NoTone BUZZER_PIN] ++ allLEDsOff ++ rest)) /\
  sounding (run s (tr ++ [NoTone BUZZER_PIN] ++ allLEDsOff ++ rest)) = None.
Proof.
  intros Hrest.
  replace (tr ++ [NoTone BUZZER_PIN] ++ allLEDsOff ++ rest)
    with ((tr ++ [NoTone BUZZER_PIN] ++ allLEDsOff) ++ rest)
    by (by rewrite <- !app_assoc).
  rewrite run_app, inert_run by done. apply silenced.
Qed.

(** The end of an iteration: release, lights off, rest. *)
Lemma step_silenced s a b c w1 w2 :
  leds_off (run s (a ++ b ++ c ++ [Wait w1; NoTone BUZZER_PIN]
                     ++ allLEDsOff ++ [Wait w2])) /\
  sounding (run s (a ++ b ++ c ++ [Wait w1; NoTone BUZZER_PIN]
                     ++ allLEDsOff ++ [Wait w2])) = None.
Proof.
  rewrite !run_app. generalize (run (run (run s a) b) c). intros s'.
  split; [|done].
  intros pin Hpin. unfold LED_PINS in Hpin.
  repeat (apply elem_of_cons in Hpin as [-> | Hpin]; [done|]).
  by apply not_elem_of_nil in Hpin.
Qed.

(** The clamp of the light index and the pin that it selects. *)
Lemma start_note_events noteHz li :
  0 <= li <= 255 ->
  exists pin,
    index LED_PINS (Z.min li 4) = Some pin /\
    start_note noteHz li
      = Some (if noteHz =? NOTE_REST then [NoTone BUZZER_PIN]
              else [DigitalWrite pin true; Tone BUZZER_PIN noteHz]).
Proof.
  intros Hli. unfold start_note.
  assert (Hclamp : (if li >? 4 then 4 else li) = Z.min li 4).
  { destruct (Z.gtb_spec li 4); lia. }
  rewrite Hclamp.
  assert (Hcases : Z.min li 4 = 0 \/ Z.min li 4 = 1 \/ Z.min li 4 = 2
                   \/ Z.min li 4 = 3 \/ Z.min li 4 = 4) by lia.
  destruct (noteHz =? NOTE_REST);
    destruct Hcases as [-> | [-> | [-> | [-> | ->]]]]; eexists; split; done.
Qed.

Lemma to_byte_range z : 0 <= to_byte z <= 255.
Proof. unfold to_byte. pose proof (Z.mod_pos_bound z 256 ltac:(lia)). lia. Qed.

Section Song.

Variables (cat : catalog) (songIdx len bpm unitMs : Z).
Hypothesis Hplay : playable cat songIdx len bpm.

(** What [refresh_lyrics] returns keeps the two arrays at 17 bytes and
    sends only display commands. *)
Lemma refresh_lyrics_ok c li :
  length (top c) = 17%nat -> length (bot c) = 17%nat ->
  exists c1 shown,
    refresh_lyrics cat songIdx c li = Some (c1, shown) /\
    notesPlayed c1 = notesPlayed c /\ lastLineDisplayed c1 = li /\
    length (top c1) = 17%nat /\ length (bot c1) = 17%nat /\
    forallb is_inert shown = true.
Proof.
  intros Htop Hbot. unfold refresh_lyrics.
  destruct (Z.eqb_spec li (lastLineDisplayed c)) as [-> | Hne].
  { exists c, []. done. }
  assert (Hline : forall L buf, length buf = 17%nat ->
            exists ok buf',
              lyricLine cat songIdx (to_byte L) buf 17 = Some (ok, buf') /\
              length buf' = 17%nat).
  { intros L buf Hbuf. unfold lyricLine.
    rewrite getLyricLine_lines;
      [|apply to_byte_range|lia|rewrite Hbuf; simpl; lia].
    destruct (_ ≫= _) as [l|]; eexists _, _; (split; [done|]).
    - rewrite holding_length; [done|]. rewrite length_take, Hbuf.
      change (Z.to_nat (17 - 1)) with 16%nat. lia.
    - rewrite holding_length; [done|]. rewrite Hbuf. simpl. lia. }
  assert (Hblank : forall ok buf, length buf = 17%nat ->
            exists buf', blank_unless (ok, buf) = Some buf' /\
                         length buf' = 17%nat).
  { intros ok buf Hbuf. unfold blank_unless. cbn [fst snd].
    destruct ok; [by exists buf|].
    rewrite store_Some by (rewrite Hbuf; simpl; lia).
    eexists. split; [done|]. by rewrite length_insert. }
  destruct (Hline li (top c) Htop) as (ok1 & top1 & -> & Htop1).
  destruct (Hline (to_int (li + 1)) (bot c) Hbot) as (ok2 & bot1 & -> & Hbot1).
  cbn [mbind option_bind].
  destruct (Hblank ok1 top1 Htop1) as (top2 & -> & Htop2).
  destruct (Hblank ok2 bot1 Hbot1) as (bot2 & -> & Hbot2).
  cbn [mbind option_bind].
  eexists _, _. split; [done|]. cbn.
  repeat (split; [done|]). apply showTwoLines_inert.
Qed.

(** One iteration of the loop of [playSong], for a note within the
    song. *)
Lemma note_step_ok c :
  0 <= notesPlayed c < len ->
  length (top c) = 17%nat -> length (bot c) = 17%nat ->
  exists c1 ev li st sp,
    note_step cat songIdx len unitMs c = Some (c1, ev) /\
    getLineInfoFromNotesPlayed (lineNoteCounts cat) songIdx
      (notesPlayed c) len = Some (li, st, sp) /\
    notesPlayed c1 = notesPlayed c + 1 /\ lastLineDisplayed c1 = li /\
    length (top c1) = 17%nat /\ length (bot c1) = 17%nat /\
    lights_on ev
      = (if sounds cat songIdx (Z.to_nat (notesPlayed c)) then 1 else 0)%nat /\
    (forall s, leds_off (run s ev) /\ sounding (run s ev) = None).
Proof.
  intros Hn Htop Hbot.
  destruct Hplay as (Hlen & Hlenr & Hbpm & Hbpmr & (notes & Hnotes & Hnl)
                     & (durs & Hdurs & Hdl) & (leds & Hleds & Hll)
                     & (row & k & Hrow & Hbyte & Hk & Hz)).
  unfold note_step.
  destruct (getLineInfo_first_stop _ _ _ Hrow Hbyte (notesPlayed c) len k Hk Hz)
    as (li & cnt & Hget & _); [unfold int_max; lia|
                               unfold int_min, int_max, MAX_LINES; lia|].
  rewrite Hget. cbn [mbind option_bind].
  destruct (refresh_lyrics_ok c li Htop Hbot)
    as (c1 & shown & -> & Hnp & Hlast & Htop1 & Hbot1 & Hinert).
  cbn [mbind option_bind]. rewrite Hnotes, Hdurs, Hleds.
  cbn [mbind option_bind].
  destruct (index_is_Some notes (notesPlayed c)) as [noteHz HnoteHz]; [lia|].
  destruct (index_is_Some durs (notesPlayed c)) as [durU HdurU]; [lia|].
  destruct (index_is_Some leds (notesPlayed c)) as [l Hl]; [lia|].
  rewrite HnoteHz, HdurU, Hl. cbn [mbind option_bind].
  destruct (gate_split_sum _ (note_total_range (to_byte durU) unitMs))
    as (on & -> & Hon).
  cbn [mbind option_bind].
  destruct (start_note_events (to_int noteHz) (to_byte l) (to_byte_range l))
    as (pin & Hpin & ->).
  cbn [mbind option_bind].
  eexists _, _, li, _, _. split; [done|]. split; [done|].
  cbn [notesPlayed lastLineDisplayed top bot].
  split; [apply to_int_id; unfold int_min, int_max; lia|].
  do 3 (split; [done|]). split.
  - rewrite !lights_on_app, (inert_lights_on shown) by done.
    unfold sounds. rewrite Hnotes. cbn [mbind option_bind].
    apply index_Some in HnoteHz as [_ ->].
    destruct (to_int noteHz =? NOTE_REST); done.
  - intros s. apply step_silenced.
Qed.

(** The loop from [notesPlayed c] to the end of the song: one iteration
    for each note that remains. *)
Lemma play_loop_ok fuel :
  forall c,
  0 <= notesPlayed c <= len -> len - notesPlayed c <= Z.of_nat fuel ->
  length (top c) = 17%nat -> length (bot c) = 17%nat ->
  exists c' steps,
    play_loop cat songIdx fuel len unitMs c = Some (c', steps) /\
    notesPlayed c' = len /\
    Z.of_nat (length steps) = len - notesPlayed c /\
    (forall i ev, steps !! i = Some ev ->
       lights_on ev
         = (if sounds cat songIdx (Z.to_nat (notesPlayed c) + i)
            then 1 else 0)%nat /\
       (forall s, leds_off (run s ev) /\ sounding (run s ev) = None)).
Proof.
  induction fuel as [|fuel IH]; intros c Hn Hfuel Htop Hbot; cbn [play_loop].
  - destruct (Z.ltb_spec (notesPlayed c) len); [lia|].
    exists c, []. split; [done|]. split; [lia|]. split; [simpl; lia|].
    intros i ev Hi. done.
  - destruct (Z.ltb_spec (notesPlayed c) len) as [Hlt|Hge].
    + destruct (note_step_ok c ltac:(lia) Htop Hbot)
        as (c1 & ev & li & st & sp & -> & _ & Hnp & _ & Htop1 & Hbot1
            & Hlights & Hoff).
      cbn [mbind option_bind].
      destruct (IH c1) as (c2 & steps & -> & Hend & Hcount & Hsteps);
        [lia|lia|done|done|].
      cbn [mbind option_bind].
      exists c2, (ev :: steps). split; [done|]. split; [done|].
      split; [cbn [length]; lia|].
      intros [|i] ev' Hi.
      * injection Hi as <-. by rewrite Nat.add_0_r.
      * cbn in Hi. destruct (Hsteps i ev' Hi) as [Hl Ho].
        split; [|done]. rewrite Hl.
        by replace (Z.to_nat (notesPlayed c1) + i)%nat
          with (Z.to_nat (notesPlayed c) + S i)%nat by lia.
    + exists c, []. split; [done|]. split; [lia|]. split; [simpl; lia|].
      intros i ev Hi. done.
Qed.

End Song.

Lemma lights_on_concat steps cat songIdx :
  (forall i ev, steps !! i = Some ev ->
     lights_on ev = (if sounds cat songIdx i then 1 else 0)%nat) ->
  lights_on (concat steps) = sounding_notes cat songIdx (length steps).
Proof.
  induction steps as [|ev steps IH] using rev_ind; intros H; [done|].
  rewrite concat_app, lights_on_app, length_app. cbn [concat length].
  rewrite app_nil_r, Nat.add_1_r. cbn [sounding_notes].
  rewrite IH.
  - f_equal. apply (H (length steps)).
    rewrite lookup_app_r by lia. by rewrite Nat.sub_diag.
  - intros i ev' Hi. apply H. by apply lookup_app_l_Some.
Qed.

Lemma announce_lights songIdx :
  lights_on (announce songIdx) = 0%nat /\
  forallb is_inert (lcdPrintFixed 0 0 (list_ascii_of_string "Now Playing:")) = true.
Proof.
  split; [|done]. unfold announce.
  rewrite !lights_on_app.
  destruct (songIdx =? 0), (songIdx =? 1), (songIdx =? 2); done.
Qed.

Lemma inert_addresses_led tr :
  forallb is_inert tr = true -> forallb addresses_led tr = true.
Proof.
  induction tr as [|e tr IH]; [done|]. cbn [forallb].
  intros [He Htr]%andb_prop. rewrite IH by done. by destruct e.
Qed.

Lemma start_note_addresses_led noteHz li ev :
  start_note noteHz li = Some ev -> forallb addresses_led ev = true.
Proof.
  unfold start_note. destruct (noteHz =? NOTE_REST); [by intros [= <-]|].
  intros (pin & Hpin & [= <-])%bind_Some.
  apply index_Some in Hpin as [_ Hpin].
  apply list_elem_of_lookup_2 in Hpin. unfold LED_PINS in *.
  repeat (apply elem_of_cons in Hpin as [-> | Hpin]; [done|]).
  by apply not_elem_of_nil in Hpin.
Qed.

Lemma refresh_lyrics_inv cat songIdx c li c1 shown :
  refresh_lyrics cat songIdx c li = Some (c1, shown) ->
  lastLineDisplayed c1 = li /\ notesPlayed c1 = notesPlayed c /\
  forallb is_inert shown = true.
Proof.
  unfold refresh_lyrics. destruct (Z.eqb_spec li (lastLineDisplayed c)) as [-> | Hne].
  { by intros [= <- <-]. }
  intros (r1 & _ & (r2 & _ & (top2 & _ & (bot2 & _ & [= <- <-])%bind_Some)
          %bind_Some)%bind_Some)%bind_Some.
  cbn. split; [done|]. split; [done|]. apply showTwoLines_inert.
Qed.

(** What a completed iteration of the loop has done. *)
Lemma note_step_inv cat songIdx totalNotes unitMs c c1 ev :
  note_step cat songIdx totalNotes unitMs c = Some (c1, ev) ->
  exists li st sp,
    getLineInfoFromNotesPlayed (lineNoteCounts cat) songIdx
      (notesPlayed c) totalNotes = Some (li, st, sp) /\
    lastLineDisplayed c1 = li /\
    notesPlayed c1 = to_int (notesPlayed c + 1) /\
    forallb addresses_led ev = true.
Proof.
  unfold note_step.
  intros ([[li st] sp] & Hget & H)%bind_Some.
  apply bind_Some in H as ([c' shown] & Hrefresh & H).
  apply bind_Some in H as (notes & _ & H).
  apply bind_Some in H as (noteHz & _ & H).
  apply bind_Some in H as (durs & _ & H).
  apply bind_Some in H as (durU & _ & H).
  apply bind_Some in H as ([on off] & _ & H).
  apply bind_Some in H as (leds & _ & H).
  apply bind_Some in H as (l & _ & H).
  apply bind_Some in H as (started & Hstart & H).
  injection H as <- <-.
  apply refresh_lyrics_inv in Hrefresh as (Hlast & _ & Hinert).
  exists li, st, sp. split; [done|]. split; [done|]. split; [done|].
  rewrite !forallb_app.
  rewrite (inert_addresses_led shown Hinert).
  cbn [forallb]. rewrite forallb_app.
  rewrite (start_note_addresses_led _ _ _ Hstart). done.
Qed.

Lemma play_loop_addresses_led cat songIdx totalNotes unitMs fuel :
  forall c c' steps,
    play_loop cat songIdx fuel totalNotes unitMs c = Some (c', steps) ->
    forallb addresses_led (concat steps) = true.
Proof.
  induction fuel as [|fuel IH]; intros c c' steps; cbn [play_loop].
  - destruct (notesPlayed c <? totalNotes); [done|]. by intros [= <- <-].
  - destruct (notesPlayed c <? totalNotes); [|by intros [= <- <-]].
    intros ([c1 ev] & Hstep & H)%bind_Some.
    apply bind_Some in H as ([c2 evs] & Hloop & [= <- <-]).
    cbn [concat]. rewrite forallb_app.
    apply note_step_inv in Hstep as (_ & _ & _ & _ & _ & _ & ->).
    by rewrite (IH _ _ _ Hloop).
Qed.

(** C4. For a playable song whose tables cover its notes, [playSong]
    runs to completion with exactly [trueLength] iterations of its loop,
    each switches one light on when its note is not a rest (none when it
    is) and ends with the lights off and the tone stopped, and at
    completion all lights are off and the tone is stopped. *)
Theorem playSong_plays_every_note :
  forall cat songIdx trueLength tempo,
    playable cat songIdx trueLength tempo ->
    exists pre steps post,
      playSong_parts cat songIdx = Some (pre, steps, post) /\
      playSong cat songIdx = Some (pre ++ concat steps ++ post) /\
      length steps = Z.to_nat trueLength /\
      (forall i ev, steps !! i = Some ev ->
         lights_on ev = (if sounds cat songIdx i then 1 else 0)%nat /\
         (forall s, leds_off (run s ev) /\ sounding (run s ev) = None)) /\
      lights_on (pre ++ concat steps ++ post)
        = sounding_notes cat songIdx (Z.to_nat trueLength) /\
      (forall s,
         leds_off (run s (pre ++ concat steps ++ post)) /\
         sounding (run s (pre ++ concat steps ++ post)) = None).
Proof.
  intros cat songIdx len bpm Hplay.
  pose proof Hplay as (Hlen & Hlenr & Hbpm & Hbpmr & _).
  assert (Hparts : exists steps,
    playSong_parts cat songIdx = Some (announce songIdx, steps, cleanup) /\
    length steps = Z.to_nat len /\
    (forall i ev, steps !! i = Some ev ->
       lights_on ev = (if sounds cat songIdx i then 1 else 0)%nat /\
       (forall s, leds_off (run s ev) /\ sounding (run s ev) = None))).
  { unfold playSong_parts. rewrite Hlen, Hbpm. cbn [mbind option_bind].
    rewrite to_byte_id by lia.
    rewrite to_int_id by (unfold int_min, int_max in *; lia).
    destruct (Z.leb_spec len 0); [lia|]. destruct (Z.leb_spec bpm 0); [lia|].
    cbn [orb].
    rewrite eighthMs_nested by lia.
    cbn [mbind option_bind].
    destruct (play_loop_ok cat songIdx len bpm (60000 / bpm / 2) Hplay
                (Z.to_nat len) cursor0)
      as (c' & steps & -> & _ & Hcount & Hsteps);
      [cbn; lia|cbn; lia|done|done|].
    cbn in Hcount.
    exists steps. split; [done|]. split; [lia|]. exact Hsteps. }
  destruct Hparts as (steps & Hparts & Hcount & Hsteps).
  exists (announce songIdx), steps, cleanup.
  split; [done|]. split; [unfold playSong; by rewrite Hparts|].
  split; [done|]. split; [done|]. split.
  - rewrite !lights_on_app, (proj1 (announce_lights songIdx)).
    rewrite (lights_on_concat steps cat songIdx), Hcount;
      [|intros i ev Hi; by apply Hsteps].
    change (lights_on cleanup) with 0%nat. lia.
  - intros s. rewrite app_assoc. unfold cleanup. by apply silenced_then.
Qed.

Lemma three_notes_playable : playable three_notes 0 3 120.
Proof.
  split; [reflexivity|]. split; [lia|]. split; [reflexivity|].
  split; [unfold int_max; lia|].
  split; [eexists; split; [reflexivity|simpl; lia]|].
  split; [eexists; split; [reflexivity|simpl; lia]|].
  split; [eexists; split; [reflexivity|simpl; lia]|].
  eexists _, 3. split; [reflexivity|]. split.
  - unfold byte_row. vm_compute. repeat (constructor; [split; discriminate|]).
    constructor.
  - split; [unfold MAX_LINES; lia|reflexivity].
Defined.

Lemma playSong_plays_every_note_witness :
  exists pre steps post,
    playSong three_notes 0 = Some (pre ++ concat steps ++ post) /\
    length steps = 3%nat /\
    lights_on (pre ++ concat steps ++ post) = 3%nat.
Proof.
  destruct (playSong_plays_every_note three_notes 0 3 120 three_notes_playable)
    as (pre & steps & post & _ & Hplay & Hlen & _ & Hlights & _).
  exists pre, steps, post. split; [exact Hplay|]. split; [exact Hlen|].
  exact Hlights.
Defined.

(** C6. A song whose length or tempo is not positive is rejected before
    anything is sent: [playSong] returns with no display write, no light
    change and no tone command, and every sink is as it was. *)
Theorem playSong_rejects_unplayable :
  forall cat songIdx trueLength tempo,
    index (melodyLen cat) songIdx = Some trueLength ->
    index (tempoBPM cat) songIdx = Some tempo ->
    to_byte trueLength <= 0 \/ to_int tempo <= 0 ->
    playSong cat songIdx = Some [] /\
    forall s tr, playSong cat songIdx = Some tr -> run s tr = s.
Proof.
  intros cat songIdx len bpm Hlen Hbpm Hbad.
  assert (Hnone : playSong cat songIdx = Some []).
  { unfold playSong, playSong_parts. rewrite Hlen, Hbpm.
    cbn [mbind option_bind].
    destruct (Z.leb_spec (to_byte len) 0); [done|].
    destruct (Z.leb_spec (to_int bpm) 0); [done|lia]. }
  split; [done|]. intros s tr Htr. rewrite Hnone in Htr. by injection Htr as <-.
Qed.

Lemma playSong_rejects_unplayable_witness :
  playSong tempo_zero 0 = Some [] /\
  forall s tr, playSong tempo_zero 0 = Some tr -> run s tr = s.
Proof.
  apply (playSong_rejects_unplayable tempo_zero 0 3 0 eq_refl eq_refl).
  right. vm_compute. discriminate.
Defined.

(** The commands of a completed iteration of the loop of [playSong], and
    the table entries that they were made from. *)
Lemma note_step_events cat songIdx totalNotes unitMs c c1 ev :
  note_step cat songIdx totalNotes unitMs c = Some (c1, ev) ->
  exists li c0 shown notes noteHz durs durU leds v started on off,
    refresh_lyrics cat songIdx c li = Some (c0, shown) /\
    index (melodyNotes cat) songIdx = Some notes /\
    index notes (notesPlayed c) = Some noteHz /\
    index (durationUnits cat) songIdx = Some durs /\
    index durs (notesPlayed c) = Some durU /\
    index (ledIndex cat) songIdx = Some leds /\
    index leds (notesPlayed c) = Some v /\
    gate_split (note_total (to_byte durU) unitMs) = Some (on, off) /\
    start_note (to_int noteHz) (to_byte v) = Some started /\
    ev = shown ++ allLEDsOff ++ started
           ++ [Wait on; NoTone BUZZER_PIN] ++ allLEDsOff ++ [Wait off].
Proof.
  unfold note_step.
  intros ([[li st] sp] & Hget & H)%bind_Some.
  apply bind_Some in H as ([c0 shown] & Hrefresh & H).
  apply bind_Some in H as (notes & Hnotes & H).
  apply bind_Some in H as (noteHz & HnoteHz & H).
  apply bind_Some in H as (durs & Hdurs & H).
  apply bind_Some in H as (durU & HdurU & H).
  apply bind_Some in H as ([on off] & Hsplit & H).
  apply bind_Some in H as (leds & Hleds & H).
  apply bind_Some in H as (v & Hv & H).
  apply bind_Some in H as (started & Hstart & H).
  apply (inj Some) in H. apply pair_equal_spec in H as [_ <-].
  exists li, c0, shown, notes, noteHz, durs, durU, leds, v, started, on, off.
  do 9 (split; [done|]). done.
Qed.

(** What holds of every completed iteration holds of every step of the
    loop, at the index of its note. *)
Lemma play_loop_steps cat songIdx totalNotes unitMs
    (P : nat -> list event -> Prop) :
  (forall c c1 ev,
     0 <= notesPlayed c ->
     note_step cat songIdx totalNotes unitMs c = Some (c1, ev) ->
     P (Z.to_nat (notesPlayed c)) ev) ->
  totalNotes <= int_max ->
  forall fuel c c' steps,
    play_loop cat songIdx fuel totalNotes unitMs c = Some (c', steps) ->
    0 <= notesPlayed c ->
    forall i ev, steps !! i = Some ev ->
      P (Z.to_nat (notesPlayed c) + i)%nat ev.
Proof.
  intros Hstep Htotal.
  induction fuel as [|fuel IH]; intros c c' steps; cbn [play_loop].
  - destruct (notesPlayed c <? totalNotes); [done|].
    intros [= <- <-] _ i ev Hi. done.
  - destruct (Z.ltb_spec (notesPlayed c) totalNotes) as [Hlt|Hge];
      [|intros [= <- <-] _ i ev Hi; done].
    intros ([c1 ev1] & Hs & H)%bind_Some Hn.
    apply bind_Some in H as ([c2 evs] & Hloop & [= <- <-]).
    pose proof (Hstep _ _ _ Hn Hs) as HP.
    apply note_step_inv in Hs as (_ & _ & _ & _ & _ & Hnext & _).
    rewrite to_int_id in Hnext by (unfold int_min, int_max in *; lia).
    intros [|i] ev Hi.
    + injection Hi as <-. by rewrite Nat.add_0_r.
    + cbn in Hi.
      replace (Z.to_nat (notesPlayed c) + S i)%nat
        with (Z.to_nat (notesPlayed c1) + i)%nat by lia.
      apply (IH _ _ _ Hloop); [lia|done].
Qed.

(** A playable song: the loop runs to its end and [playSong] is the
    preamble, the steps of the loop and the cleanup. *)
Lemma playSong_parts_playable cat songIdx len bpm :
  playable cat songIdx len bpm ->
  exists c' steps,
    play_loop cat songIdx (Z.to_nat len) len (60000 / bpm / 2) (cursor0)
      = Some (c', steps) /\
    playSong_parts cat songIdx = Some (announce songIdx, steps, cleanup) /\
    playSong cat songIdx = Some (announce songIdx ++ concat steps ++ cleanup) /\
    length steps = Z.to_nat len.
Proof.
  intros Hplay.
  pose proof Hplay as (Hlen & Hlenr & Hbpm & Hbpmr & _).
  destruct (play_loop_ok cat songIdx len bpm (60000 / bpm / 2) Hplay
              (Z.to_nat len) cursor0)
    as (c' & steps & Hloop & _ & Hcount & _);
    [cbn; lia|cbn; lia|done|done|].
  cbn in Hcount.
  assert (Hparts : playSong_parts cat songIdx
                   = Some (announce songIdx, steps, cleanup)).
  { unfold playSong_parts. rewrite Hlen, Hbpm. cbn [mbind option_bind].
    rewrite to_byte_id by lia.
    rewrite to_int_id by (unfold int_min, int_max in *; lia).
    destruct (Z.leb_spec len 0); [lia|]. destruct (Z.leb_spec bpm 0); [lia|].
    cbn [orb]. rewrite eighthMs_nested by lia. cbn [mbind option_bind].
    by rewrite Hloop. }
  exists c', steps. split; [done|]. split; [done|].
  split; [unfold playSong; by rewrite Hparts|]. lia.
Qed.

Lemma inert_no_light tr :
  forallb is_inert tr = true -> List.filter is_light_on tr = [].
Proof.
  intros H. apply inert_lights_on in H. unfold lights_on in H.
  by apply nil_length_inv.
Qed.

(** The light that an iteration switches on is the one of its entry of
    the light table, clamped to 4. *)
Lemma note_step_light cat songIdx totalNotes unitMs c c1 ev :
  0 <= notesPlayed c ->
  note_step cat songIdx totalNotes unitMs c = Some (c1, ev) ->
  exists noteHz v pin,
    (index (melodyNotes cat) songIdx
       ≫= (fun notes => notes !! Z.to_nat (notesPlayed c))) = Some noteHz /\
    (index (ledIndex cat) songIdx
       ≫= (fun leds => leds !! Z.to_nat (notesPlayed c))) = Some v /\
    index LED_PINS (Z.max 0 (Z.min (to_byte v) 4)) = Some pin /\
    List.filter is_light_on ev
      = (if to_int noteHz =? NOTE_REST then [] else [DigitalWrite pin true]).
Proof.
  intros Hn Hstep.
  destruct (note_step_events _ _ _ _ _ _ _ Hstep)
    as (li & c0 & shown & notes & noteHz & durs & durU & leds & v & started
        & on & off & Hrefresh & Hnotes & HnoteHz & _ & _ & Hleds & Hv & _
        & Hstart & ->).
  destruct (start_note_events (to_int noteHz) (to_byte v) (to_byte_range v))
    as (pin & Hpin & Hstarted).
  rewrite Hstarted in Hstart. injection Hstart as <-.
  exists noteHz, v, pin.
  rewrite Hnotes, Hleds. cbn [mbind option_bind].
  apply index_Some in HnoteHz as [_ ->]. apply index_Some in Hv as [_ ->].
  split; [done|]. split; [done|].
  pose proof (to_byte_range v).
  replace (Z.max 0 (Z.min (to_byte v) 4)) with (Z.min (to_byte v) 4) by lia.
  split; [done|].
  apply refresh_lyrics_inv in Hrefresh as (_ & _ & Hinert).
  rewrite List.filter_app, (inert_no_light shown Hinert).
  destruct (to_int noteHz =? NOTE_REST); reflexivity.
Qed.

(** C7. For every note slot that the playback engine processes, the
    indicator addressed is the one of index
    [clamp(lightTrack[notesPlayed], 0, 4)]: a playable song is played to
    its end whatever the entries of its light track, the iteration of
    note [i] switches on exactly the light of pin
    [LED_PINS[clamp(ledIndex[songIdx][i], 0, 4)]] when the note is not a
    rest and none when it is, so that an entry of 5 or more lights
    indicator 4, and no pin other than the five indicator pins is
    written. *)
Theorem led_index_clamped :
  forall cat songIdx trueLength tempo,
    playable cat songIdx trueLength tempo ->
    exists pre steps post,
      playSong_parts cat songIdx = Some (pre, steps, post) /\
      playSong cat songIdx = Some (pre ++ concat steps ++ post) /\
      length steps = Z.to_nat trueLength /\
      (forall i ev, steps !! i = Some ev ->
         exists noteHz v pin,
           (index (melodyNotes cat) songIdx
              ≫= (fun notes => notes !! i)) = Some noteHz /\
           (index (ledIndex cat) songIdx
              ≫= (fun leds => leds !! i)) = Some v /\
           index LED_PINS (Z.max 0 (Z.min (to_byte v) 4)) = Some pin /\
           (5 <= to_byte v -> index LED_PINS 4 = Some pin) /\
           List.filter is_light_on ev
             = (if to_int noteHz =? NOTE_REST then []
                else [DigitalWrite pin true])) /\
      forallb addresses_led (pre ++ concat steps ++ post) = true.
Proof.
  intros cat songIdx len bpm Hplay.
  pose proof Hplay as (_ & Hlenr & _).
  destruct (playSong_parts_playable cat songIdx len bpm Hplay)
    as (c' & steps & Hloop & Hparts & Hsong & Hcount).
  exists (announce songIdx), steps, cleanup.
  split; [done|]. split; [done|]. split; [done|]. split.
  - intros i ev Hi.
    pose proof (play_loop_steps cat songIdx len (60000 / bpm / 2)
      (fun i ev =>
         exists noteHz v pin,
           (index (melodyNotes cat) songIdx
              ≫= (fun notes => notes !! i)) = Some noteHz /\
           (index (ledIndex cat) songIdx
              ≫= (fun leds => leds !! i)) = Some v /\
           index LED_PINS (Z.max 0 (Z.min (to_byte v) 4)) = Some pin /\
           List.filter is_light_on ev
             = (if to_int noteHz =? NOTE_REST then []
                else [DigitalWrite pin true]))) as Hsteps.
    cbn beta in Hsteps.
    destruct (Hsteps
                (fun c c1 ev Hn Hs =>
                   note_step_light cat songIdx len _ c c1 ev Hn Hs)
                ltac:(unfold int_max; lia) _ _ _ _ Hloop
                ltac:(cbn; lia) i ev Hi)
      as (noteHz & v & pin & Hnote & Hv & Hpin & Hlight).
    change (Z.to_nat (notesPlayed cursor0) + i)%nat with i in *.
    exists noteHz, v, pin. do 3 (split; [done|]). split; [|done].
    intros H5. by replace (Z.max 0 (Z.min (to_byte v) 4)) with 4 in Hpin by lia.
  - rewrite !forallb_app.
    rewrite (play_loop_addresses_led _ _ _ _ _ _ _ _ Hloop).
    unfold announce.
    destruct (songIdx =? 0), (songIdx =? 1), (songIdx =? 2); done.
Qed.

Lemma led_index_clamped_witness :
  exists pre steps post ev,
    playSong three_notes 0 = Some (pre ++ concat steps ++ post) /\
    steps !! 2%nat = Some ev /\
    List.filter is_light_on ev = [DigitalWrite 8 true].
Proof.
  destruct (led_index_clamped three_notes 0 3 120 three_notes_playable)
    as (pre & steps & post & _ & Hsong & Hcount & Hsteps & _).
  destruct (lookup_lt_is_Some_2 steps 2%nat) as [ev Hev];
    [rewrite Hcount; simpl; lia|].
  exists pre, steps, post, ev. split; [exact Hsong|]. split; [exact Hev|].
  destruct (Hsteps 2%nat ev Hev)
    as (noteHz & v & pin & Hnote & Hv & Hpin & _ & Hlight).
  injection Hnote as <-. injection Hv as <-. injection Hpin as <-.
  exact Hlight.
Defined.

(** C10. For a song whose row of counts holds a zero within its
    [MAX_LINES] entries, the line index is monotonically non-decreasing in
    [notesPlayed]; hence the line that [playSong] has on display never
    moves backwards from one iteration of its loop to the next. *)
Theorem lineIndex_monotone :
  forall cat songIdx row trueLength,
    index (lineNoteCounts cat) songIdx = Some row -> byte_row row ->
    (exists k, 0 <= k < MAX_LINES /\ index row k = Some 0) ->
    int_min + 255 * MAX_LINES <= trueLength <= int_max ->
    (forall n m,
       0 <= n -> n <= m -> m <= int_max ->
       exists ln sn cn lm sm cm,
         getLineInfoFromNotesPlayed (lineNoteCounts cat) songIdx n trueLength
           = Some (ln, sn, cn) /\
         getLineInfoFromNotesPlayed (lineNoteCounts cat) songIdx m trueLength
           = Some (lm, sm, cm) /\
         ln <= lm) /\
    (forall unitMs c c1 ev1 c2 ev2,
       0 <= notesPlayed c < int_max ->
       note_step cat songIdx trueLength unitMs c = Some (c1, ev1) ->
       note_step cat songIdx trueLength unitMs c1 = Some (c2, ev2) ->
       lastLineDisplayed c1 <= lastLineDisplayed c2).
Proof.
  intros cat songIdx row tl Hrow Hb (k & Hk & Hz) Htl.
  assert (Hmono : forall n m,
    0 <= n -> n <= m -> m <= int_max ->
    exists ln sn cn lm sm cm,
      getLineInfoFromNotesPlayed (lineNoteCounts cat) songIdx n tl
        = Some (ln, sn, cn) /\
      getLineInfoFromNotesPlayed (lineNoteCounts cat) songIdx m tl
        = Some (lm, sm, cm) /\
      ln <= lm).
  { intros n m Hn Hnm Hm.
    destruct (getLineInfo_first_stop _ songIdx row Hrow Hb n tl k Hk Hz)
      as (ln & cn & Hgn & _ & Hcn & Hn0 & Hsn & Hfn); [lia|done|].
    destruct (getLineInfo_first_stop _ songIdx row Hrow Hb m tl k Hk Hz)
      as (lm & cm & Hgm & _ & Hcm & Hm0 & Hsm & Hfm); [lia|done|].
    do 6 eexists. split; [exact Hgn|]. split; [exact Hgm|].
    destruct (Z.le_gt_cases ln lm) as [|Hlt]; [done|]. exfalso.
    apply (Hfn lm); [lia|].
    destruct Hsm as (c & Hc & Hd). exists c. split; [done|].
    destruct Hd as [Hzero|Hneg]; [by left|right; lia]. }
  split; [exact Hmono|].
  intros unitMs c c1 ev1 c2 ev2 Hn Hstep1 Hstep2.
  apply note_step_inv in Hstep1 as (l1 & s1 & p1 & Hg1 & <- & Hn1 & _).
  apply note_step_inv in Hstep2 as (l2 & s2 & p2 & Hg2 & <- & _ & _).
  rewrite Hn1, to_int_id in Hg2 by (unfold int_min, int_max in *; lia).
  destruct (Hmono (notesPlayed c) (notesPlayed c + 1))
    as (ln & sn & cn & lm & sm & cm & Hgn & Hgm & Hle); [lia|lia|lia|].
  rewrite Hg1 in Hgn. rewrite Hg2 in Hgm.
  injection Hgn as <- _ _. injection Hgm as <- _ _. done.
Qed.

Lemma lineIndex_monotone_witness :
  exists ln sn cn lm sm cm,
    getLineInfoFromNotesPlayed (lineNoteCounts sketch) 2 46 48
      = Some (ln, sn, cn) /\
    getLineInfoFromNotesPlayed (lineNoteCounts sketch) 2 47 48
      = Some (lm, sm, cm) /\
    ln <= lm.
Proof.
  refine (proj1 (lineIndex_monotone sketch 2
                   (zero_filled MAX_LINES
                      [5; 2; 3; 3; 3; 2; 2; 2; 3; 2; 2; 3; 4; 4; 3; 4; 0])
                   48 eq_refl _ _ _) 46 47 _ _ _).
  - unfold byte_row. vm_compute. repeat (constructor; [split; discriminate|]).
    constructor.
  - exists 16. split; [unfold MAX_LINES; lia|reflexivity].
  - unfold int_min, int_max, MAX_LINES; lia.
  - lia.
  - lia.
  - unfold int_max; lia.
Defined.

(** * Further properties of the code *)

(** ** Fixed-width rows on the display *)

Lemma show_app d tr1 tr2 : show d (tr1 ++ tr2) = show (show d tr1) tr2.
Proof. apply fold_left_app. Qed.

Lemma padded_length w : length (padded w) = 16%nat.
Proof.
  unfold padded. rewrite length_app, length_replicate, length_take. lia.
Qed.

(** The two loops of [lcdPrintFixed] print the string cut to [cols]
    characters, then spaces up to [cols] characters. *)
Lemma print_row_chars cols :
  forall text,
    print_row cols text
      = LcdPrint <$> (take cols (cstring text)
                        ++ replicate (cols - length (take cols (cstring text)))
                             SPACE).
Proof.
  induction cols as [|cols IH]; intros text; [by destruct (cstring text)|].
  cbn [print_row]. destruct text as [|c text].
  - cbn [cstring take length app]. rewrite Nat.sub_0_r.
    by rewrite fmap_replicate.
  - cbn [cstring]. destruct (Ascii.eqb c NUL).
    + cbn [take length app]. rewrite Nat.sub_0_r. by rewrite fmap_replicate.
    + cbn [take length app fmap list_fmap]. by rewrite IH.
Qed.

Lemma lcdPrintFixed_padded col row text :
  lcdPrintFixed col row text
    = LcdSetCursor col row :: (LcdPrint <$> padded (cstring text)).
Proof. unfold lcdPrintFixed, padded. by rewrite print_row_chars. Qed.

(** Printing the characters of [w] writes them from the cursor on, to the
    right, and touches no other cell. *)
Lemma show_prints w :
  forall d,
    cursor_row (show d (LcdPrint <$> w)) = cursor_row d /\
    cursor_col (show d (LcdPrint <$> w))
      = cursor_col d + Z.of_nat (length w) /\
    forall r k,
      cell (show d (LcdPrint <$> w)) r k
        = if (r =? cursor_row d) && (cursor_col d <=? k)
               && (k <? cursor_col d + Z.of_nat (length w))
          then default SPACE (w !! Z.to_nat (k - cursor_col d))
          else cell d r k.
Proof.
  induction w as [|c w IH]; intros d.
  - cbn. split; [done|]. split; [lia|]. intros r k.
    destruct (r =? cursor_row d), (Z.leb_spec (cursor_col d) k),
      (Z.ltb_spec k (cursor_col d + Z.of_nat 0)); try done; lia.
  - destruct (IH (show_event d (LcdPrint c))) as (Hrow & Hcol & Hcell).
    change (show d (LcdPrint <$> c :: w))
      with (show (show_event d (LcdPrint c)) (LcdPrint <$> w)).
    split; [by rewrite Hrow|].
    split; [rewrite Hcol; cbn [show_event cursor_col length]; lia|].
    intros r k. rewrite Hcell.
    cbn [show_event cursor_row cursor_col cell length].
    destruct (Z.eqb_spec r (cursor_row d)) as [-> | Hr]; cbn [andb]; [|done].
    destruct (Z.leb_spec (cursor_col d + 1) k),
      (Z.ltb_spec k (cursor_col d + 1 + Z.of_nat (length w))),
      (Z.leb_spec (cursor_col d) k),
      (Z.ltb_spec k (cursor_col d + Z.of_nat (S (length w))));
      cbn [andb]; try lia;
      destruct (Z.eqb_spec k (cursor_col d)) as [Hk|Hk];
      try lia; try done.
    + replace (Z.to_nat (k - cursor_col d))
        with (S (Z.to_nat (k - (cursor_col d + 1)))) by lia. done.
    + rewrite Hk, Z.sub_diag. done.
Qed.

(** The cells after [lcdPrintFixed]: the 16 cells from [(row, col)] on
    hold the padded string, the others are as before. *)
Lemma lcdPrintFixed_cells d col row text r k :
  cell (show d (lcdPrintFixed col row text)) r k
    = if (r =? row) && (col <=? k) && (k <? col + 16)
      then default SPACE (padded (cstring text) !! Z.to_nat (k - col))
      else cell d r k.
Proof.
  rewrite lcdPrintFixed_padded.
  change (show d (LcdSetCursor col row :: (LcdPrint <$> padded (cstring text))))
    with (show (show_event d (LcdSetCursor col row))
            (LcdPrint <$> padded (cstring text))).
  destruct (show_prints (padded (cstring text)) (show_event d (LcdSetCursor col row)))
    as (_ & _ & Hcell).
  rewrite Hcell. cbn [show_event cursor_row cursor_col cell].
  by rewrite padded_length.
Qed.

(** A row of the display is the list [w] of 16 characters when each of
    its cells holds the character of [w] at its column. *)
Lemma visible_eq d r w :
  length w = 16%nat ->
  (forall i, (i < 16)%nat ->
     cell d r (Z.of_nat i) = default SPACE (w !! i)) ->
  visible d r = w.
Proof.
  intros Hlen Hcells. apply list_eq. intros i. unfold visible.
  rewrite list_lookup_fmap.
  destruct (decide (i < 16)%nat) as [Hi|Hi].
  - rewrite lookup_seq_lt by done. cbn. rewrite Hcells by done.
    destruct (lookup_lt_is_Some_2 w i ltac:(lia)) as [c ->]. done.
  - rewrite lookup_seq_ge by lia. cbn. symmetry. apply lookup_ge_None. lia.
Qed.

Lemma lcdPrintFixed_row d row text :
  visible (show d (lcdPrintFixed 0 row text)) row = padded (cstring text).
Proof.
  apply visible_eq; [apply padded_length|]. intros i Hi.
  rewrite lcdPrintFixed_cells. rewrite Z.eqb_refl.
  destruct (Z.leb_spec 0 (Z.of_nat i)); [|lia].
  destruct (Z.ltb_spec (Z.of_nat i) (0 + 16)); [|lia].
  cbn [andb]. by rewrite Z.sub_0_r, Nat2Z.id.
Qed.

Lemma lcdPrintFixed_other_row d col row text r :
  r <> row ->
  visible (show d (lcdPrintFixed col row text)) r = visible d r.
Proof.
  intros Hr. unfold visible. apply list_fmap_ext. intros _ i _.
  rewrite lcdPrintFixed_cells.
  destruct (Z.eqb_spec r row); [done|]. done.
Qed.

Lemma showTwoLines_rows d l1 l2 :
  visible (show d (showTwoLines l1 l2)) 0 = padded (cstring l1) /\
  visible (show d (showTwoLines l1 l2)) 1 = padded (cstring l2).
Proof.
  unfold showTwoLines. rewrite show_app. split.
  - rewrite lcdPrintFixed_other_row by done. apply lcdPrintFixed_row.
  - apply lcdPrintFixed_row.
Qed.

Lemma print_row_lcd cols text : forallb is_lcd (print_row cols text) = true.
Proof.
  rewrite print_row_chars.
  induction (take cols (cstring text) ++ _) as [|c w IH]; [done|]. done.
Qed.

Lemma showTwoLines_lcd l1 l2 : forallb is_lcd (showTwoLines l1 l2) = true.
Proof.
  unfold showTwoLines, lcdPrintFixed. rewrite forallb_app.
  cbn [forallb is_lcd]. by rewrite !print_row_lcd.
Qed.

(** X1.  [lcdPrintFixed(col, row, text)] always sends the cursor
    command and exactly 16 characters: the characters of the string up to
    its NUL, at most 16 of them, then spaces.  On a display row that has
    room for them it overwrites the 16 cells from [(row, col)] on with
    the string padded with spaces, so that nothing of what was shown
    there remains, and changes no other cell. *)
Theorem lcdPrintFixed_overwrites_row :
  forall d col row text,
    0 <= col <= 24 -> 0 <= row <= 1 ->
    lcdPrintFixed col row text
      = LcdSetCursor col row :: (LcdPrint <$> padded (cstring text)) /\
    length (padded (cstring text)) = 16%nat /\
    (forall r k,
       cell (show d (lcdPrintFixed col row text)) r k
         = if (r =? row) && (col <=? k) && (k <? col + 16)
           then default SPACE (padded (cstring text) !! Z.to_nat (k - col))
           else cell d r k) /\
    (col = 0 ->
     visible (show d (lcdPrintFixed col row text)) row
       = padded (cstring text)).
Proof.
  intros d col row text _ _.
  split; [apply lcdPrintFixed_padded|]. split; [apply padded_length|].
  split; [intros r k; apply lcdPrintFixed_cells|].
  intros ->. apply lcdPrintFixed_row.
Qed.

Lemma lcdPrintFixed_overwrites_row_witness :
  visible
    (show (show {| cell := fun _ _ => SPACE; cursor_col := 0; cursor_row := 0 |}
             (lcdPrintFixed 0 1 (list_ascii_of_string "Choose another!")))
       (lcdPrintFixed 0 1 (list_ascii_of_string "Try again!"))) 1
    = list_ascii_of_string "Try again!      ".
Proof.
  destruct (lcdPrintFixed_overwrites_row
              (show {| cell := fun _ _ => SPACE; cursor_col := 0; cursor_row := 0 |}
                 (lcdPrintFixed 0 1 (list_ascii_of_string "Choose another!")))
              0 1 (list_ascii_of_string "Try again!")
              ltac:(lia) ltac:(lia)) as (_ & _ & _ & Hrow).
  rewrite (Hrow eq_refl). reflexivity.
Defined.

(** X2.  After [showTwoLines(l1, l2)], whatever the display showed
    before, its two rows show exactly the two strings, each cut to 16
    characters and padded with spaces; only display commands are sent. *)
Theorem showTwoLines_shows :
  forall d l1 l2,
    visible (show d (showTwoLines l1 l2)) 0 = padded (cstring l1) /\
    visible (show d (showTwoLines l1 l2)) 1 = padded (cstring l2) /\
    forallb is_lcd (showTwoLines l1 l2) = true.
Proof.
  intros d l1 l2. destruct (showTwoLines_rows d l1 l2) as [H0 H1].
  split; [done|]. split; [done|]. apply showTwoLines_lcd.
Qed.

(** ** The line of a note *)

(** X3.  For a row of counts with a terminator and a note [n] of the
    song, [0 <= n < totalNotes], the triple that the indexer returns
    brackets the note: [lineStartNote <= n < lineStartNote +
    lineNoteSpan], with a line index that is not past the terminator. *)
Theorem getLineInfo_brackets_note :
  forall tbl songIdx row k n totalNotes,
    index tbl songIdx = Some row -> byte_row row ->
    0 <= k < MAX_LINES -> index row k = Some 0 ->
    0 <= n < totalNotes -> totalNotes <= int_max ->
    exists lineIndex lineStartNote lineNoteSpan,
      getLineInfoFromNotesPlayed tbl songIdx n totalNotes
        = Some (lineIndex, lineStartNote, lineNoteSpan) /\
      0 <= lineIndex <= k /\
      lineStartNote <= n < lineStartNote + lineNoteSpan.
Proof.
  intros tbl songIdx row k n total Hrow Hbyte Hk Hz Hn Htotal.
  destruct (getLineInfo_first_stop tbl songIdx row Hrow Hbyte n total k Hk Hz)
    as (li & c & Hget & Hle & Hc & Hli & (c' & Hc' & Hstop) & Hfirst);
    [lia|unfold int_min, int_max, MAX_LINES in *; lia|].
  rewrite Hc in Hc'. injection Hc' as Heq. subst c'.
  exists li, (prefix row li),
    (if c =? 0 then Z.max 1 (total - prefix row li) else c).
  split; [done|]. split; [lia|].
  assert (Hstart : prefix row li <= n).
  { destruct (Z.eq_dec li 0) as [-> | Hne]; [rewrite prefix_0; lia|].
    destruct (index_mono row (li - 1) li c Hc ltac:(lia)) as [b Hb].
    pose proof (Hfirst (li - 1) ltac:(lia)) as Hnot.
    pose proof (prefix_succ row (li - 1) b Hb) as Hsucc.
    replace (li - 1 + 1) with li in Hsucc by lia.
    destruct (Z.lt_ge_cases n (prefix row li)) as [Hlt|Hge]; [|done].
    exfalso. apply Hnot. exists b. split; [done|]. right.
    replace (li - 1 + 1) with li by lia. lia. }
  split; [done|].
  pose proof (prefix_succ row li c Hc) as Hsucc.
  destruct (Z.eqb_spec c 0) as [H0 | Hne]; [lia|].
  destruct Hstop as [H0 | Hneg]; [done|]. lia.
Qed.

Lemma getLineInfo_brackets_note_witness :
  exists lineIndex lineStartNote lineNoteSpan,
    getLineInfoFromNotesPlayed (lineNoteCounts sketch) 0 20 65
      = Some (lineIndex, lineStartNote, lineNoteSpan) /\
    0 <= lineIndex <= 16 /\
    lineStartNote <= 20 < lineStartNote + lineNoteSpan.
Proof.
  apply (getLineInfo_brackets_note (lineNoteCounts sketch) 0
           (zero_filled MAX_LINES
              [4; 4; 4; 6; 4; 5; 6; 5; 3; 3; 3; 3; 4; 4; 3; 4; 0])).
  - reflexivity.
  - unfold byte_row. vm_compute. repeat (constructor; [split; discriminate|]).
    constructor.
  - unfold MAX_LINES; lia.
  - reflexivity.
  - lia.
  - unfold int_max; lia.
Defined.

(** The first loop of the indexer on a row that holds no terminator,
    for a note past the sum of its counts: it leaves the row. *)
Lemma find_line_exhausts tbl songIdx row n :
  index tbl songIdx = Some row -> byte_row row ->
  Z.of_nat (length row) = MAX_LINES -> Forall (fun c => c <> 0) row ->
  prefix row MAX_LINES <= n <= int_max ->
  forall fuel li tmp,
    0 <= li <= MAX_LINES -> MAX_LINES - li <= Z.of_nat fuel ->
    tmp = n - prefix row li ->
    find_line tbl fuel songIdx li tmp = Some MAX_LINES.
Proof.
  intros Hrow Hbyte Hlen Hnz Hn.
  destruct (index_is_Some row (MAX_LINES - 1)) as [cl Hcl];
    [unfold MAX_LINES in *; lia|].
  induction fuel as [|fuel IH]; intros li tmp Hli Hfuel Htmp; cbn [find_line].
  - destruct (Z.ltb_spec li MAX_LINES); [lia|]. f_equal. lia.
  - destruct (Z.ltb_spec li MAX_LINES) as [Hlt|Hge]; [|f_equal; lia].
    destruct (index_is_Some row li) as [c Hc]; [lia|].
    rewrite (read_count_row _ _ _ _ _ Hrow Hbyte Hc). cbn [mbind option_bind].
    pose proof (byte_row_index _ _ _ Hbyte Hc) as Hcb.
    assert (Hc0 : c <> 0).
    { apply index_Some in Hc as [_ Hc].
      by apply (Forall_lookup_1 _ _ _ _ Hnz Hc). }
    destruct (Z.eqb_spec c 0); [done|].
    pose proof (prefix_succ _ _ _ Hc) as Hsucc.
    pose proof (prefix_mono row (MAX_LINES - 1) cl (li + 1) MAX_LINES
                  Hbyte Hcl ltac:(lia) ltac:(lia)) as Hmono.
    pose proof (prefix_bounds row (MAX_LINES - 1) cl Hbyte Hcl li
                  ltac:(lia)) as Hpre.
    rewrite (to_int_id (tmp - c)) by (unfold int_min, int_max in *; lia).
    destruct (Z.ltb_spec (tmp - c) 0); [lia|].
    rewrite (to_int_id (li + 1))
      by (unfold int_min, int_max, MAX_LINES in *; lia).
    apply IH; lia.
Qed.

(** X4.  A row of line counts must hold its terminator: when all
    [MAX_LINES] counts of a row are non-zero, the indexer runs off the row
    for every note from the sum of the counts on, and reads
    [lineNoteCounts[songIdx][MAX_LINES]], one entry past the row. *)
Theorem getLineInfo_unterminated_row :
  forall tbl songIdx row n totalNotes,
    index tbl songIdx = Some row -> byte_row row ->
    Z.of_nat (length row) = MAX_LINES -> Forall (fun c => c <> 0) row ->
    prefix row MAX_LINES <= n <= int_max ->
    find_line tbl (Z.to_nat MAX_LINES) songIdx 0 n = Some MAX_LINES /\
    read_count tbl songIdx MAX_LINES = None /\
    getLineInfoFromNotesPlayed tbl songIdx n totalNotes = None.
Proof.
  intros tbl songIdx row n totalNotes Hrow Hbyte Hlen Hnz Hn.
  assert (Hfind : find_line tbl (Z.to_nat MAX_LINES) songIdx 0 n
                  = Some MAX_LINES).
  { apply (find_line_exhausts tbl songIdx row n);
      first [done | unfold MAX_LINES; lia | rewrite prefix_0; lia]. }
  assert (Hread : read_count tbl songIdx MAX_LINES = None).
  { unfold read_count. rewrite Hrow. cbn [mbind option_bind].
    unfold index. destruct (0 <=? MAX_LINES); [|done].
    rewrite (proj2 (lookup_ge_None row (Z.to_nat MAX_LINES))) by lia.
    done. }
  split; [done|]. split; [done|].
  unfold getLineInfoFromNotesPlayed. rewrite Hfind. cbn [mbind option_bind].
  destruct (sum_before _ _ _ _ _ _); [|done]. cbn [mbind option_bind].
  by rewrite Hread.
Qed.

Lemma getLineInfo_unterminated_row_witness :
  getLineInfoFromNotesPlayed [replicate 30 2] 0 60 61 = None.
Proof.
  apply (getLineInfo_unterminated_row [replicate 30 2] 0 (replicate 30 2)
           60 61).
  - reflexivity.
  - unfold byte_row. apply Forall_replicate. cbn beta. lia.
  - reflexivity.
  - apply Forall_replicate. cbn beta. lia.
  - split; [vm_compute; discriminate|unfold int_max; lia].
Defined.

(** ** Tempo and note times *)

(** X5.  The unit time falls as the tempo rises, is at most 30000 ms,
    and is zero exactly for the tempos above 30000. *)
Theorem eighthMs_antitone :
  forall t1 t2,
    0 < t1 -> t1 <= t2 -> t2 <= int_max ->
    exists u1 u2,
      eighthMs t1 = Some u1 /\ eighthMs t2 = Some u2 /\
      0 <= u2 /\ u2 <= u1 /\ u1 <= 30000 /\
      (u2 = 0 <-> 30000 < t2).
Proof.
  intros t1 t2 H1 H12 H2.
  exists (60000 / t1 / 2), (60000 / t2 / 2).
  rewrite !eighthMs_nested by lia. split; [done|]. split; [done|].
  split; [apply Z.div_pos; [apply Z.div_pos|]; lia|].
  split.
  { apply Z.div_le_mono; [lia|]. apply Z.div_le_compat_l; lia. }
  split.
  { rewrite Z.div_div by lia. apply Z.div_le_upper_bound; lia. }
  rewrite Z.div_div by lia. split.
  - intros H0. destruct (Z.lt_ge_cases 30000 t2) as [Hlt|Hge]; [done|].
    assert (1 <= 60000 / (t2 * 2)) by (apply Z.div_le_lower_bound; lia).
    lia.
  - intros Hlt. apply Z.div_small. lia.
Qed.

Lemma eighthMs_antitone_witness :
  exists u1 u2,
    eighthMs 45 = Some u1 /\ eighthMs 96 = Some u2 /\
    0 <= u2 /\ u2 <= u1 /\ u1 <= 30000 /\ (u2 = 0 <-> 30000 < 96).
Proof.
  apply (eighthMs_antitone 45 96); unfold int_max; lia.
Defined.

(** X6.  For a tempo that [playSong] accepts and a duration of the byte
    table, the product [durU * unitMs] does not wrap around in [unsigned
    long]: the note time is that product, or 1 ms when it is zero, and
    lies between 1 ms and 7650 s. *)
Theorem note_total_no_wrap :
  forall tempo durU,
    0 < tempo <= int_max -> 0 <= durU <= 255 ->
    exists unitMs,
      eighthMs tempo = Some unitMs /\
      note_total durU unitMs = Z.max 1 (durU * unitMs) /\
      1 <= note_total durU unitMs <= 7650000.
Proof.
  intros tempo durU Htempo HdurU.
  exists (60000 / tempo / 2). split; [by apply eighthMs_nested|].
  assert (Hu : 0 <= 60000 / tempo / 2 <= 30000).
  { split; [apply Z.div_pos; [apply Z.div_pos|]; lia|].
    rewrite Z.div_div by lia. apply Z.div_le_upper_bound; lia. }
  set (u := 60000 / tempo / 2) in *.
  assert (Hp : 0 <= durU * u <= 7650000) by nia.
  unfold note_total. rewrite to_ulong_id by (unfold ulong_max; lia).
  destruct (Z.eqb_spec (durU * u) 0) as [-> | Hne]; lia.
Qed.

Lemma note_total_no_wrap_witness :
  exists unitMs,
    eighthMs 45 = Some unitMs /\
    note_total 6 unitMs = Z.max 1 (6 * unitMs) /\
    1 <= note_total 6 unitMs <= 7650000.
Proof.
  apply (note_total_no_wrap 45 6); unfold int_max; lia.
Defined.

(** The time that the tone sounds is at most 93.0001 hundredths of the
    note time. *)
Lemma gate_split_upper n :
  1 <= n <= ulong_max ->
  exists on, gate_split n = Some (on, n - on) /\
             0 <= on /\ 1000000 * on <= 930001 * n.
Proof.
  intros Hn.
  destruct (gate_split_rounded n Hn)
    as (mz & ez & mx & ex & m2 & e2 & (Hez & Hmz & _) & (Hmx & Hex & Hx)
        & _ & (Hm2 & He2 & H2 & _) & ->).
  set (G := 15602811) in *. set (E := ex - 24) in *.
  pose proof (truncation_bounds m2 e2 E Hm2 ltac:(lia) ltac:(unfold E; lia))
    as (Hv0 & H1 & _).
  set (v := if 0 <=? e2 then m2 * 2 ^ e2 else m2 / 2 ^ (- e2)) in *.
  set (A := 2 ^ (- E)) in *. set (B := 2 ^ (ex - ez)) in *.
  set (C := 2 ^ (- ez)) in *. set (P := m2 * 2 ^ (e2 - E)) in *.
  assert (HA : 0 < A) by (apply Z.pow_pos_nonneg; unfold E; lia).
  assert (HB : 0 < B) by (apply Z.pow_pos_nonneg; lia).
  assert (HC : 0 < C) by (apply Z.pow_pos_nonneg; lia).
  assert (HAB : A * B = 2 ^ 24 * C).
  { unfold A, B, C. rewrite <- !Z.pow_add_r by (unfold E; lia).
    f_equal. unfold E. lia. }
  change (2 ^ 23) with 8388608 in *. change (2 ^ 24) with 16777216 in *.
  assert (Hle : 1000000 * v <= 930001 * n).
  { assert (H3 : 8388608 * (v * A) <= 8388609 * (mx * G)) by lia.
    assert (H4 : 8388608 * (8388608 * (v * A)) * B
                 <= 8388609 * G * (8388609 * (n * C))).
    { transitivity (8388609 * G * (8388608 * (mx * B))); [|subst mz; nia].
      replace (8388609 * G * (8388608 * (mx * B)))
        with (8388608 * (8388609 * (mx * G)) * B) by lia.
      apply Z.mul_le_mono_nonneg_r; lia. }
    replace (8388608 * (8388608 * (v * A)) * B)
      with (8388608 * 8388608 * v * (A * B)) in H4 by lia.
    rewrite HAB in H4.
    assert (H5 : 8388608 * 8388608 * 16777216 * v <= 8388609 * G * 8388609 * n).
    { apply (Z.mul_le_mono_pos_r _ _ C HC). lia. }
    unfold G in H5. lia. }
  rewrite ulong_of_rounded by (fold v; lia). fold v.
  cbn [mbind option_bind]. rewrite to_ulong_id by lia.
  exists v. split; [done|lia].
Qed.

Lemma refresh_lyrics_lcd cat songIdx c li c1 shown :
  refresh_lyrics cat songIdx c li = Some (c1, shown) ->
  forallb is_lcd shown = true.
Proof.
  unfold refresh_lyrics. destruct (li =? lastLineDisplayed c).
  { by intros [= <- <-]. }
  intros (r1 & _ & (r2 & _ & (top2 & _ & (bot2 & _ & [= <- <-])%bind_Some)
          %bind_Some)%bind_Some)%bind_Some.
  apply showTwoLines_lcd.
Qed.

Lemma timeline_app tr1 :
  forall s tr2,
    timeline s (tr1 ++ tr2) = timeline s tr1 ++ timeline (run s tr1) tr2.
Proof.
  induction tr1 as [|e tr1 IH]; intros s tr2; [done|].
  destruct e; cbn [app timeline]; rewrite IH; done.
Qed.

(** Display commands take no time and leave the pins and the tone as
    they are. *)
Lemma timeline_lcd tr :
  forallb is_lcd tr = true ->
  forall s, timeline s tr = [] /\ run s tr = s.
Proof.
  induction tr as [|e tr IH]; [done|]. cbn [forallb].
  intros [He Htr]%andb_prop s.
  destruct e; try done; apply (IH Htr).
Qed.

(** The two busy-waits of an iteration of the loop of [playSong]: the
    tone of the note sounds during the first and nothing during the
    second, which lasts at least 1 ms. *)
Lemma note_step_gap cat songIdx totalNotes unitMs c c1 ev :
  0 <= notesPlayed c ->
  note_step cat songIdx totalNotes unitMs c = Some (c1, ev) ->
  exists noteHz durU onTime offTime,
    (index (melodyNotes cat) songIdx
       ≫= (fun notes => notes !! Z.to_nat (notesPlayed c))) = Some noteHz /\
    (index (durationUnits cat) songIdx
       ≫= (fun durs => durs !! Z.to_nat (notesPlayed c))) = Some durU /\
    (forall s,
       timeline s ev
         = [(onTime,
             if to_int noteHz =? NOTE_REST then None
             else Some (to_int noteHz));
            (offTime, None)]) /\
    onTime + offTime = note_total (to_byte durU) unitMs /\
    0 <= onTime /\ 1 <= offTime /\
    1000000 * onTime <= 930001 * note_total (to_byte durU) unitMs.
Proof.
  intros Hn Hstep.
  destruct (note_step_events _ _ _ _ _ _ _ Hstep)
    as (li & c0 & shown & notes & noteHz & durs & durU & leds & v & started
        & on & off & Hrefresh & Hnotes & HnoteHz & Hdurs & HdurU & _ & _
        & Hsplit & Hstart & ->).
  pose proof (note_total_range (to_byte durU) unitMs) as Hrange.
  destruct (gate_split_upper _ Hrange) as (on' & Hsplit' & Hon & Hup).
  rewrite Hsplit' in Hsplit. injection Hsplit as <- <-.
  destruct (start_note_events (to_int noteHz) (to_byte v) (to_byte_range v))
    as (pin & _ & Hstarted).
  rewrite Hstarted in Hstart. injection Hstart as <-.
  exists noteHz, durU, on', (note_total (to_byte durU) unitMs - on').
  rewrite Hnotes, Hdurs. cbn [mbind option_bind].
  apply index_Some in HnoteHz as [_ ->]. apply index_Some in HdurU as [_ ->].
  split; [done|]. split; [done|]. split.
  - intros s. rewrite timeline_app.
    destruct (timeline_lcd shown (refresh_lyrics_lcd _ _ _ _ _ _ Hrefresh) s)
      as [-> ->].
    destruct (to_int noteHz =? NOTE_REST); reflexivity.
  - split; [lia|]. split; [done|]. split; [|done].
    assert (930001 * note_total (to_byte durU) unitMs
            < 1000000 * note_total (to_byte durU) unitMs) by lia.
    lia.
Qed.

(** X7.  Every note ends with a silent gap.  A playable song is played
    to its end, and the iteration of each of its notes has exactly two
    busy-waits: during the first the tone of the note sounds (nothing for
    a rest), during the second nothing sounds.  The two add up to the
    note time, the tone sounds for at most 93.0001 hundredths of it and
    the silent gap lasts at least 1 ms, so that a note of 1 ms does not
    sound at all. *)
Theorem gate_split_gap :
  forall cat songIdx trueLength tempo,
    playable cat songIdx trueLength tempo ->
    exists unitMs pre steps post,
      eighthMs tempo = Some unitMs /\
      playSong_parts cat songIdx = Some (pre, steps, post) /\
      length steps = Z.to_nat trueLength /\
      forall i ev, steps !! i = Some ev ->
        exists noteHz durU onTime offTime,
          (index (melodyNotes cat) songIdx
             ≫= (fun notes => notes !! i)) = Some noteHz /\
          (index (durationUnits cat) songIdx
             ≫= (fun durs => durs !! i)) = Some durU /\
          (forall s,
             timeline s ev
               = [(onTime,
                   if to_int noteHz =? NOTE_REST then None
                   else Some (to_int noteHz));
                  (offTime, None)]) /\
          onTime + offTime = note_total (to_byte durU) unitMs /\
          0 <= onTime /\ 1 <= offTime /\
          1000000 * onTime <= 930001 * note_total (to_byte durU) unitMs /\
          (note_total (to_byte durU) unitMs = 1 -> onTime = 0).
Proof.
  intros cat songIdx len bpm Hplay.
  pose proof Hplay as (_ & Hlenr & _ & Hbpmr & _).
  destruct (playSong_parts_playable cat songIdx len bpm Hplay)
    as (c' & steps & Hloop & Hparts & _ & Hcount).
  exists (60000 / bpm / 2), (announce songIdx), steps, cleanup.
  split; [by apply eighthMs_nested|]. split; [done|]. split; [done|].
  intros i ev Hi.
  pose proof (play_loop_steps cat songIdx len (60000 / bpm / 2)
    (fun i ev =>
       exists noteHz durU onTime offTime,
         (index (melodyNotes cat) songIdx
            ≫= (fun notes => notes !! i)) = Some noteHz /\
         (index (durationUnits cat) songIdx
            ≫= (fun durs => durs !! i)) = Some durU /\
         (forall s,
            timeline s ev
              = [(onTime,
                  if to_int noteHz =? NOTE_REST then None
                  else Some (to_int noteHz));
                 (offTime, None)]) /\
         onTime + offTime = note_total (to_byte durU) (60000 / bpm / 2) /\
         0 <= onTime /\ 1 <= offTime /\
         1000000 * onTime
           <= 930001 * note_total (to_byte durU) (60000 / bpm / 2)))
    as Hsteps.
  cbn beta in Hsteps.
  destruct (Hsteps
              (fun c c1 ev Hn Hs =>
                 note_step_gap cat songIdx len _ c c1 ev Hn Hs)
              ltac:(unfold int_max; lia) _ _ _ _ Hloop
              ltac:(cbn; lia) i ev Hi)
    as (noteHz & durU & on & off & Hnote & Hdur & Htime & Hsum & Hon & Hoff
        & Hup).
  change (Z.to_nat (notesPlayed cursor0) + i)%nat with i in *.
  exists noteHz, durU, on, off. do 6 (split; [done|]). split; [done|].
  intros H1. lia.
Qed.

Lemma gate_split_gap_witness :
  exists steps ev onTime offTime,
    playSong_parts three_notes 0 = Some (announce 0, steps, cleanup) /\
    steps !! 2%nat = Some ev /\
    (forall s, timeline s ev = [(onTime, Some NOTE_G4); (offTime, None)]) /\
    onTime + offTime = 500 /\ 1 <= offTime.
Proof.
  destruct (gate_split_gap three_notes 0 3 120 three_notes_playable)
    as (unitMs & pre & steps & post & Hunit & Hparts & Hcount & Hsteps).
  destruct (playSong_parts_playable three_notes 0 3 120 three_notes_playable)
    as (c' & steps' & _ & Hparts' & _).
  rewrite Hparts' in Hparts. injection Hparts as <- <- <-.
  destruct (lookup_lt_is_Some_2 steps' 2%nat) as [ev Hev];
    [rewrite Hcount; simpl; lia|].
  destruct (Hsteps 2%nat ev Hev)
    as (noteHz & durU & on & off & Hnote & Hdur & Htime & Hsum & _ & Hoff & _).
  injection Hnote as <-. injection Hdur as <-. injection Hunit as <-.
  exists steps', ev, on, off.
  split; [exact Hparts'|]. split; [exact Hev|]. split; [exact Htime|].
  split; [exact Hsum|exact Hoff].
Defined.

(** ** Lines of a packed lyric text *)

Lemma cstring_id w : NUL ∉ w -> cstring w = w.
Proof.
  induction w as [|c w IH]; intros H; [done|]. cbn [cstring].
  apply not_elem_of_cons in H as [Hc Hw].
  destruct (Ascii.eqb_spec c NUL); [congruence|]. by rewrite IH.
Qed.

Lemma cstring_elem a c : c ∈ cstring a -> c ∈ a.
Proof.
  induction a as [|x a IH]; cbn [cstring]; [done|].
  destruct (Ascii.eqb x NUL); [by intros ?%not_elem_of_nil|].
  intros [-> | H]%elem_of_cons; [left|right; by apply IH].
Qed.

Lemma take_elem {A} n (l : list A) x : x ∈ take n l -> x ∈ l.
Proof.
  intros H. rewrite <- (take_drop n l). apply elem_of_app. by left.
Qed.

Lemma line_chars_id l : CR ∉ l -> line_chars l = l.
Proof.
  induction l as [|c l IH]; intros H; [done|]. cbn [line_chars].
  apply not_elem_of_cons in H as [Hc Hl].
  destruct (Ascii.eqb_spec c CR); [congruence|]. by rewrite IH.
Qed.

Lemma line_chars_no_CR l : CR ∉ line_chars l.
Proof.
  induction l as [|c l IH]; cbn [line_chars]; [apply not_elem_of_nil|].
  destruct (Ascii.eqb_spec c CR) as [-> | Hne]; [done|].
  apply not_elem_of_cons. split; [congruence|done].
Qed.

Lemma split_lines_no_LF s : forall l, l ∈ split_lines s -> LF ∉ l.
Proof.
  induction s as [|c s IH]; intros l.
  - cbn. intros [-> | H]%elem_of_cons;
      [apply not_elem_of_nil|by apply not_elem_of_nil in H].
  - destruct (Ascii.eqb_spec c LF) as [-> | Hne].
    + rewrite split_lines_LF. intros [-> | H]%elem_of_cons;
        [apply not_elem_of_nil|by apply IH].
    + rewrite split_lines_cons by (by apply Ascii.eqb_neq).
      pose proof (split_lines_length_pos s) as Hpos.
      destruct (split_lines s) as [|l0 ls]; [cbn in Hpos; lia|].
      cbn [hd tl]. intros [-> | H]%elem_of_cons.
      * apply not_elem_of_cons. split; [congruence|]. apply IH. by left.
      * apply IH. by right.
Qed.

Lemma split_lines_single w : LF ∉ w -> split_lines w = [w].
Proof.
  induction w as [|c w IH]; intros H; [done|].
  apply not_elem_of_cons in H as [Hc Hw].
  rewrite split_lines_cons by (apply Ascii.eqb_neq; congruence).
  by rewrite IH.
Qed.

Lemma split_lines_app_LF w s :
  LF ∉ w -> split_lines (w ++ LF :: s) = w :: split_lines s.
Proof.
  induction w as [|c w IH]; intros H; [done|].
  apply not_elem_of_cons in H as [Hc Hw]. cbn [app].
  rewrite split_lines_cons by (apply Ascii.eqb_neq; congruence).
  by rewrite IH.
Qed.

Lemma plain_not_elem l :
  plain l ->
  (NUL ∉ list_ascii_of_string l) /\ (LF ∉ list_ascii_of_string l)
  /\ (CR ∉ list_ascii_of_string l).
Proof.
  unfold plain. rewrite Forall_forall. intros H.
  repeat split; intros Hin; destruct (H _ Hin) as (? & ? & ?); congruence.
Qed.

Lemma packed_no_NUL lines : Forall plain lines -> NUL ∉ packed lines.
Proof.
  induction 1 as [|l ls Hl Hls IH]; [apply not_elem_of_nil|].
  destruct (plain_not_elem l Hl) as (HN & _ & _).
  cbn [packed]. destruct ls as [|l' ls]; [done|].
  intros [H | H]%elem_of_app; [done|].
  apply elem_of_cons in H as [H | H]; [discriminate|by apply IH].
Qed.

(** The lines of a packed text are the lines that were packed. *)
Lemma packed_lines lines :
  Forall plain lines -> lines <> [] ->
  lyric_lines (packed lines) = list_ascii_of_string <$> lines.
Proof.
  intros Hplain Hne. unfold lyric_lines.
  rewrite cstring_id by (by apply packed_no_NUL).
  induction Hplain as [|l ls Hl Hls IH]; [done|].
  destruct (plain_not_elem l Hl) as (_ & HLF & _).
  cbn [packed]. destruct ls as [|l' ls].
  - by rewrite split_lines_single.
  - rewrite split_lines_app_LF by done. by rewrite IH.
Qed.

(** X8.  Round trip of the lyric literals: for a text written as lines
    joined by newlines, the line extractor finds exactly the lines that
    were written, returning line [i] cut to [outSize - 1] characters, and
    reports every index from the number of lines on as missing, with the
    empty string. *)
Theorem getLyricLine_packed_round_trip :
  forall lines l1 l2 l3 songIdx i out outSize,
    getLyricsPtr l1 l2 l3 songIdx = Some (packed lines) ->
    Forall plain lines -> lines <> [] ->
    0 <= i <= 255 -> 1 <= outSize <= 255 ->
    outSize <= Z.of_nat (length out) ->
    exists found out',
      getLyricLine l1 l2 l3 songIdx i out outSize = Some (found, out') /\
      (found = true <-> i < Z.of_nat (length lines)) /\
      cstring out'
        = take (Z.to_nat (outSize - 1))
            (default [] (list_ascii_of_string <$> lines !! Z.to_nat i)).
Proof.
  intros lines l1 l2 l3 songIdx i out size Hptr Hplain Hne Hi Hsize Hout.
  rewrite getLyricLine_lines by done. rewrite Hptr. cbn [mbind option_bind].
  rewrite packed_lines by done. rewrite list_lookup_fmap.
  destruct (lines !! Z.to_nat i) as [l|] eqn:Hl; cbn [fmap option_fmap option_map default].
  - eexists _, _. split; [done|].
    pose proof (lookup_lt_Some _ _ _ Hl) as Hlt.
    split; [split; [lia|done]|].
    rewrite Forall_forall in Hplain.
    destruct (plain_not_elem l (Hplain l (list_elem_of_lookup_2 _ _ _ Hl)))
      as (HN & _ & HCR).
    rewrite line_chars_id by done.
    apply cstring_holding. intros Hin. by apply take_elem in Hin.
  - eexists _, _. split; [done|].
    apply lookup_ge_None in Hl.
    split; [split; [done|lia]|].
    rewrite take_nil. by apply cstring_holding, not_elem_of_nil.
Qed.

Lemma getLyricLine_packed_round_trip_witness :
  exists found out',
    getLyricLine (lyrics1 three_notes) [] [] 0 1 (replicate 17 NUL) 17
      = Some (found, out') /\
    (found = true <-> 1 < Z.of_nat (length ["A"; "BB"; "CCC"]%string)) /\
    cstring out'
      = take (Z.to_nat (17 - 1))
          (default []
             (list_ascii_of_string
                <$> ["A"; "BB"; "CCC"]%string !! Z.to_nat 1)).
Proof.
  apply (getLyricLine_packed_round_trip ["A"; "BB"; "CCC"]%string).
  - reflexivity.
  - repeat (constructor;
            [repeat (constructor; [repeat split; discriminate|]); constructor|]).
    constructor.
  - discriminate.
  - lia.
  - lia.
  - simpl. lia.
Defined.

(** X9.  The string that the extractor leaves in the buffer is made of
    characters of the lyric text of the song only, none of them a NUL, a
    newline or a carriage return: nothing of what the buffer held before
    remains in it, and no control character of the text reaches the
    display. *)
Theorem getLyricLine_only_text :
  forall l1 l2 l3 songIdx i out outSize,
    0 <= i <= 255 -> 1 <= outSize <= 255 ->
    outSize <= Z.of_nat (length out) ->
    exists found out',
      getLyricLine l1 l2 l3 songIdx i out outSize = Some (found, out') /\
      forall c, c ∈ cstring out' ->
        c <> NUL /\ c <> LF /\ c <> CR /\
        exists p, getLyricsPtr l1 l2 l3 songIdx = Some p /\ c ∈ p.
Proof.
  intros l1 l2 l3 songIdx i out size Hi Hsize Hout.
  rewrite getLyricLine_lines by done.
  destruct (getLyricsPtr l1 l2 l3 songIdx) as [p|] eqn:Hptr;
    cbn [mbind option_bind].
  - destruct (lyric_lines p !! Z.to_nat i) as [l|] eqn:Hl.
    + eexists _, _. split; [done|]. intros c Hc.
      rewrite cstring_holding in Hc by (by eapply extracted_no_NUL).
      apply take_elem in Hc.
      pose proof (list_elem_of_lookup_2 _ _ _ Hl) as Hin.
      pose proof (line_chars_elem _ _ Hc) as Hcl.
      assert (Hcp : c ∈ cstring p) by (by apply (split_lines_elem _ l)).
      split; [intros ->; by apply (cstring_no_NUL p)|].
      split; [intros ->; by apply (split_lines_no_LF _ _ Hin)|].
      split; [intros ->; by apply (line_chars_no_CR l)|].
      exists p. split; [done|]. by apply cstring_elem.
    + eexists _, _. split; [done|]. intros c Hc.
      rewrite cstring_holding in Hc by apply not_elem_of_nil.
      by apply not_elem_of_nil in Hc.
  - eexists _, _. split; [done|]. intros c Hc.
    rewrite cstring_holding in Hc by apply not_elem_of_nil.
    by apply not_elem_of_nil in Hc.
Qed.

Lemma getLyricLine_only_text_witness :
  exists found out',
    getLyricLine (lyrics1 sketch) (lyrics2 sketch) (lyrics3 sketch) 1 3
      (list_ascii_of_string "Baa baa black" ++ [NUL; NUL; NUL; NUL]) 17
      = Some (found, out') /\
    forall c, c ∈ cstring out' ->
      c <> NUL /\ c <> LF /\ c <> CR /\
      exists p,
        getLyricsPtr (lyrics1 sketch) (lyrics2 sketch) (lyrics3 sketch) 1
          = Some p /\ c ∈ p.
Proof.
  apply (getLyricLine_only_text (lyrics1 sketch) (lyrics2 sketch)
           (lyrics3 sketch) 1 3); [lia|lia|simpl; lia].
Defined.

(** ** The lyric rows of the playback *)

(** One buffer of [playSong] after [getLyricLine] and the blanking that
    follows it: it holds the row of the line. *)
Lemma lyricLine_row cat songIdx line buf :
  length buf = 17%nat -> 0 <= line <= 255 ->
  exists r buf',
    lyricLine cat songIdx line buf 17 = Some r /\
    blank_unless r = Some buf' /\
    length buf' = 17%nat /\
    cstring buf' = lyric_row cat songIdx line.
Proof.
  intros Hbuf Hline. unfold lyricLine, lyric_row.
  rewrite getLyricLine_lines by (rewrite ?Hbuf; simpl; lia).
  change (Z.to_nat (17 - 1)) with 16%nat.
  destruct (_ ≫= _) as [l|] eqn:Hl.
  - eexists _, _. split; [done|]. unfold blank_unless. cbn [fst snd].
    split; [done|]. split.
    + rewrite holding_length; [done|]. rewrite length_take, Hbuf. lia.
    + apply cstring_holding.
      apply bind_Some in Hl as (p & _ & Hl). by eapply extracted_no_NUL.
  - eexists _, _. split; [done|]. unfold blank_unless. cbn [fst snd].
    rewrite store_Some
      by (rewrite holding_length; rewrite Hbuf; simpl; lia).
    split; [done|]. split.
    + rewrite length_insert, holding_length; [done|]. rewrite Hbuf. simpl. lia.
    + done.
Qed.

(** X10.  The lyric part of an iteration of the loop of [playSong]
    sends display commands only.  When the line index is the one shown it
    sends nothing; when it has changed, the top row of the display shows
    the line of that index and the bottom row the line after it, each
    without carriage returns, cut to 16 characters and padded with
    spaces, and a row whose line does not exist is blank. *)
Theorem refresh_lyrics_shows :
  forall cat songIdx c lineIndex0,
    length (top c) = 17%nat -> length (bot c) = 17%nat ->
    0 <= lineIndex0 < 255 ->
    exists c1 shown,
      refresh_lyrics cat songIdx c lineIndex0 = Some (c1, shown) /\
      forallb is_lcd shown = true /\
      (lineIndex0 = lastLineDisplayed c -> c1 = c /\ shown = []) /\
      (lineIndex0 <> lastLineDisplayed c ->
       lastLineDisplayed c1 = lineIndex0 /\
       cstring (top c1) = lyric_row cat songIdx lineIndex0 /\
       cstring (bot c1) = lyric_row cat songIdx (lineIndex0 + 1) /\
       forall d,
         visible (show d shown) 0
           = padded (lyric_row cat songIdx lineIndex0) /\
         visible (show d shown) 1
           = padded (lyric_row cat songIdx (lineIndex0 + 1))).
Proof.
  intros cat songIdx c li Htop Hbot Hli. unfold refresh_lyrics.
  destruct (Z.eqb_spec li (lastLineDisplayed c)) as [Heq|Hne].
  { exists c, []. split; [done|]. split; [done|]. split; [done|]. done. }
  rewrite (to_byte_id li) by lia.
  rewrite (to_int_id (li + 1)) by (unfold int_min, int_max; lia).
  rewrite (to_byte_id (li + 1)) by lia.
  destruct (lyricLine_row cat songIdx li (top c) Htop ltac:(lia))
    as (r1 & top2 & -> & Hb1 & Hl1 & Hs1).
  destruct (lyricLine_row cat songIdx (li + 1) (bot c) Hbot ltac:(lia))
    as (r2 & bot2 & -> & Hb2 & Hl2 & Hs2).
  cbn [mbind option_bind]. rewrite Hb1, Hb2. cbn [mbind option_bind].
  eexists _, _. split; [done|]. split; [apply showTwoLines_lcd|].
  split; [done|]. intros _. cbn [lastLineDisplayed top bot].
  split; [done|]. split; [done|]. split; [done|].
  intros d. rewrite <- Hs1, <- Hs2. apply showTwoLines_rows.
Qed.

Lemma refresh_lyrics_shows_witness :
  exists c1 shown,
    refresh_lyrics sketch 0 cursor0 15 = Some (c1, shown) /\
    forall d,
      visible (show d shown) 0 = list_ascii_of_string "country roads.  " /\
      visible (show d shown) 1 = list_ascii_of_string "                ".
Proof.
  destruct (refresh_lyrics_shows sketch 0 cursor0 15 eq_refl eq_refl
              ltac:(lia))
    as (c1 & shown & Hr & _ & _ & Hshow).
  exists c1, shown. split; [exact Hr|]. intros d.
  destruct (Hshow ltac:(discriminate)) as (_ & _ & _ & Hrows).
  exact (Hrows d).
Defined.

(** ** The time that a song takes *)

Lemma waits_app tr1 tr2 : waits (tr1 ++ tr2) = waits tr1 + waits tr2.
Proof. unfold waits. by rewrite fmap_app, sumZ_app. Qed.

Lemma waits_cons e tr : waits (e :: tr) = wait_ms e + waits tr.
Proof. reflexivity. Qed.

Lemma waits_lcd tr : forallb is_lcd tr = true -> waits tr = 0.
Proof.
  induction tr as [|e tr IH]; [done|]. cbn [forallb].
  intros [He Htr]%andb_prop. unfold waits in *. cbn [fmap list_fmap sumZ foldr].
  fold (sumZ (wait_ms <$> tr)). rewrite IH by done. by destruct e.
Qed.

Lemma start_note_waits noteHz li ev :
  start_note noteHz li = Some ev -> waits ev = 0.
Proof.
  unfold start_note. destruct (noteHz =? NOTE_REST); [by intros [= <-]|].
  by intros (pin & Hpin & [= <-])%bind_Some.
Qed.

(** The two busy-waits of an iteration last the time of its note. *)
Lemma note_step_waits cat songIdx totalNotes unitMs c c1 ev :
  note_step cat songIdx totalNotes unitMs c = Some (c1, ev) ->
  waits ev = note_ms cat songIdx unitMs (Z.to_nat (notesPlayed c)).
Proof.
  unfold note_step.
  intros ([[li st] sp] & Hget & H)%bind_Some.
  apply bind_Some in H as ([c' shown] & Hrefresh & H).
  apply bind_Some in H as (notes & _ & H).
  apply bind_Some in H as (noteHz & _ & H).
  apply bind_Some in H as (durs & Hdurs & H).
  apply bind_Some in H as (durU & HdurU & H).
  apply bind_Some in H as ([on off] & Hsplit & H).
  apply bind_Some in H as (leds & _ & H).
  apply bind_Some in H as (l & _ & H).
  apply bind_Some in H as (started & Hstart & H).
  injection H as <- <-.
  destruct (gate_split_sum _ (note_total_range (to_byte durU) unitMs))
    as (on' & Hsum & _).
  rewrite Hsum in Hsplit. injection Hsplit as <- <-.
  unfold note_ms. rewrite Hdurs. cbn [mbind option_bind].
  apply index_Some in HdurU as [_ ->].
  rewrite waits_app.
  rewrite (waits_lcd shown (refresh_lyrics_lcd _ _ _ _ _ _ Hrefresh)).
  rewrite !waits_cons, waits_app, (start_note_waits _ _ _ Hstart).
  rewrite !waits_cons. cbn [wait_ms]. change (waits []) with 0. lia.
Qed.

Lemma play_loop_waits cat songIdx totalNotes unitMs fuel :
  forall c c' steps,
    play_loop cat songIdx fuel totalNotes unitMs c = Some (c', steps) ->
    0 <= notesPlayed c <= totalNotes -> totalNotes <= int_max ->
    waits (concat steps)
      = song_ms cat songIdx unitMs (Z.to_nat totalNotes)
        - song_ms cat songIdx unitMs (Z.to_nat (notesPlayed c)).
Proof.
  induction fuel as [|fuel IH]; intros c c' steps; cbn [play_loop].
  - destruct (Z.ltb_spec (notesPlayed c) totalNotes); [done|].
    intros [= <- <-] Hn _. replace (notesPlayed c) with totalNotes by lia.
    cbn. lia.
  - destruct (Z.ltb_spec (notesPlayed c) totalNotes) as [Hlt|Hge].
    + intros ([c1 ev] & Hstep & H)%bind_Some Hn Htotal.
      apply bind_Some in H as ([c2 evs] & Hloop & [= <- <-]).
      cbn [concat]. rewrite waits_app.
      rewrite (note_step_waits _ _ _ _ _ _ _ Hstep).
      apply note_step_inv in Hstep as (_ & _ & _ & _ & _ & Hnext & _).
      rewrite to_int_id in Hnext by (unfold int_min, int_max in *; lia).
      rewrite (IH _ _ _ Hloop) by lia.
      rewrite Hnext.
      replace (Z.to_nat (notesPlayed c + 1))
        with (S (Z.to_nat (notesPlayed c))) by lia.
      cbn [song_ms]. lia.
    + intros [= <- <-] Hn _. replace (notesPlayed c) with totalNotes by lia.
      cbn. lia.
Qed.

(** A playable song is played: the preamble, one iteration for each
    note, the cleanup. *)
Lemma playSong_playable cat songIdx len bpm :
  playable cat songIdx len bpm ->
  exists steps,
    eighthMs bpm = Some (60000 / bpm / 2) /\
    playSong cat songIdx
      = Some (announce songIdx ++ concat steps ++ cleanup) /\
    length steps = Z.to_nat len /\
    waits (concat steps)
      = song_ms cat songIdx (60000 / bpm / 2) (Z.to_nat len).
Proof.
  intros Hplay.
  pose proof Hplay as (Hlen & Hlenr & Hbpm & Hbpmr & _).
  destruct (play_loop_ok cat songIdx len bpm (60000 / bpm / 2) Hplay
              (Z.to_nat len) cursor0)
    as (c' & steps & Hloop & _ & Hcount & _);
    [cbn; lia|cbn; lia|done|done|].
  cbn in Hcount.
  exists steps. split; [by apply eighthMs_nested|]. split.
  - unfold playSong, playSong_parts. rewrite Hlen, Hbpm.
    cbn [mbind option_bind].
    rewrite to_byte_id by lia.
    rewrite to_int_id by (unfold int_min, int_max in *; lia).
    destruct (Z.leb_spec len 0); [lia|]. destruct (Z.leb_spec bpm 0); [lia|].
    cbn [orb]. rewrite eighthMs_nested by lia. cbn [mbind option_bind].
    rewrite Hloop. done.
  - split; [lia|].
    rewrite (play_loop_waits _ _ _ _ _ _ _ _ Hloop)
      by (cbn; unfold int_max; lia).
    change (notesPlayed cursor0) with 0. change (Z.to_nat 0) with 0%nat.
    cbn [song_ms]. lia.
Qed.

Lemma waits_announce songIdx : waits (announce songIdx) = 900.
Proof.
  unfold announce. destruct (songIdx =? 0), (songIdx =? 1), (songIdx =? 2);
    reflexivity.
Qed.

(** X11.  A playable song lasts the sum of the times of its notes:
    the busy-waits of [playSong] add up to the 900 ms of the announcement,
    the note time of each of its [trueLength] notes (its duration units
    times the unit time of the tempo, 1 ms when that is zero), and the
    1200 ms of the end message; within an iteration the sounding time and
    the gap add up to the note time. *)
Theorem playSong_duration :
  forall cat songIdx trueLength tempo,
    playable cat songIdx trueLength tempo ->
    exists unitMs tr,
      eighthMs tempo = Some unitMs /\
      playSong cat songIdx = Some tr /\
      waits tr
        = 900 + song_ms cat songIdx unitMs (Z.to_nat trueLength) + 1200 /\
      (forall c c1 ev,
         note_step cat songIdx trueLength unitMs c = Some (c1, ev) ->
         waits ev = note_ms cat songIdx unitMs (Z.to_nat (notesPlayed c))).
Proof.
  intros cat songIdx len bpm Hplay.
  destruct (playSong_playable cat songIdx len bpm Hplay)
    as (steps & Hunit & Hsong & _ & Hwaits).
  eexists _, _. split; [exact Hunit|]. split; [exact Hsong|]. split.
  - rewrite !waits_app, waits_announce, Hwaits.
    change (waits cleanup) with 1200. lia.
  - intros c c1 ev. apply note_step_waits.
Qed.

Lemma playSong_duration_witness :
  exists tr, playSong three_notes 0 = Some tr /\ waits tr = 3100.
Proof.
  destruct (playSong_duration three_notes 0 3 120 three_notes_playable)
    as (unitMs & tr & Hunit & Hplay & Hwaits & _).
  exists tr. split; [exact Hplay|].
  injection Hunit as <-. exact Hwaits.
Defined.

(** ** Reading the choice *)

Lemma first_nonblank_cons c serial :
  first_nonblank (c :: serial)
    = if is_blank c then first_nonblank serial else c.
Proof. unfold first_nonblank. cbn [List.filter]. by destruct (is_blank c). Qed.

Lemma readChoiceChar_fst arrivals serial :
  (readChoiceChar arrivals serial).1 = first_nonblank serial.
Proof.
  induction serial as [|c serial IH]; [done|].
  rewrite first_nonblank_cons. cbn [readChoiceChar].
  by destruct (is_blank c).
Qed.

Lemma newlines_cons c serial :
  newlines (c :: serial)
    = ((if Ascii.eqb c LF then 1 else 0) + newlines serial)%nat.
Proof. unfold newlines. cbn [List.filter]. by destruct (Ascii.eqb c LF). Qed.

Lemma drain_line_newlines serial :
  newlines (drain_line serial) = (newlines serial - 1)%nat /\
  (newlines serial = 0%nat -> drain_line serial = []).
Proof.
  induction serial as [|c serial [IH1 IH2]]; [done|].
  rewrite newlines_cons. cbn [drain_line].
  destruct (Ascii.eqb c LF); [split; [lia|done]|].
  split; [by rewrite IH1|]. intros H. by apply IH2.
Qed.

Lemma drain_quiet rounds :
  forall serial,
    (newlines serial < rounds)%nat -> drain (replicate rounds []) serial = [].
Proof.
  induction rounds as [|rounds IH]; intros serial Hn; [lia|].
  cbn [replicate drain]. rewrite app_nil_r.
  destruct (drain_line_newlines serial) as [H1 H2].
  destruct (Nat.eq_dec (newlines serial) 0%nat) as [H0|H0].
  - rewrite H2 by done. clear. induction rounds as [|rounds IH]; [done|].
    cbn [replicate drain app drain_line]. exact IH.
  - apply IH. lia.
Qed.

Lemma readChoiceChar_blank arrivals serial :
  forallb is_blank serial = true ->
  readChoiceChar arrivals serial = (NUL, []).
Proof.
  induction serial as [|c serial IH]; [done|].
  cbn [forallb readChoiceChar]. intros [-> H]%andb_prop. by apply IH.
Qed.

(** X12.  [readChoiceChar] skips the newlines, carriage returns,
    spaces and tabs at the head of the queue and returns the first
    character that is none of them, whatever arrives meanwhile; it
    returns 0 and leaves the queue empty when no such character is
    pending. *)
Theorem readChoiceChar_first_nonblank :
  forall arrivals serial,
    (readChoiceChar arrivals serial).1 = first_nonblank serial /\
    (forall blanks c rest,
       serial = blanks ++ c :: rest ->
       forallb is_blank blanks = true -> is_blank c = false ->
       readChoiceChar arrivals serial = (c, drain arrivals rest)) /\
    (forallb is_blank serial = true ->
     readChoiceChar arrivals serial = (NUL, [])).
Proof.
  intros arrivals serial. split; [apply readChoiceChar_fst|]. split.
  - intros blanks c rest -> Hblanks Hc.
    induction blanks as [|b blanks IH]; cbn [app readChoiceChar].
    + by rewrite Hc.
    + cbn [forallb] in Hblanks. apply andb_prop in Hblanks as [-> Hblanks].
      by apply IH.
  - apply readChoiceChar_blank.
Qed.

(** X13.  A selection typed ahead is lost: when nothing more arrives
    during the 25 ms and the body of the timed loop runs more often than
    there are newlines pending, as it does on the board, where one run
    takes microseconds, [readChoiceChar] returns the first choice and
    discards everything else that was pending, later lines included. *)
Theorem readChoiceChar_discards_pending :
  forall rounds serial,
    (newlines serial < rounds)%nat ->
    readChoiceChar (replicate rounds []) serial
      = (first_nonblank serial, []).
Proof.
  intros rounds serial. induction serial as [|c serial IH]; [done|].
  rewrite newlines_cons, first_nonblank_cons. cbn [readChoiceChar].
  intros Hn. destruct (is_blank c) eqn:Hc; [apply IH; lia|].
  rewrite drain_quiet; [done|]. lia.
Qed.

Lemma readChoiceChar_discards_pending_witness :
  readChoiceChar (replicate 3 [])
    (list_ascii_of_string (String "1" (String LF (String "2" (String LF EmptyString)))))
    = ("1"%char, []).
Proof.
  apply (readChoiceChar_discards_pending 3
           (list_ascii_of_string
              (String "1" (String LF (String "2" (String LF EmptyString)))))).
  vm_compute. lia.
Defined.

(** ** The menu and the main loop *)

(** The test [choice >= '1' && choice <= '3'] and the two conversions to
    [byte] that follow it, for every character. *)
Lemma loop_choice cat choice (rest : list ascii) :
  (if (char_value "1" <=? char_value choice)
        && (char_value choice <=? char_value "3")
   then
     let songNum := to_byte (char_value choice - char_value "0") in
     let songIdx := to_byte (songNum - 1) in
     played ← playSong cat songIdx;
     Some (playing_banner songNum ++ played ++ displayMenu, rest)
   else Some (handleInvalidInput, rest))
  = match selection choice return option (list event * list ascii) with
    | Some songIdx =>
        played ← playSong cat songIdx;
        Some (playing_banner (songIdx + 1) ++ played ++ displayMenu, rest)
    | None => Some (handleInvalidInput, rest)
    end.
Proof.
  destruct choice as [[] [] [] [] [] [] [] []]; reflexivity.
Qed.

Lemma loop_selection cat arrivals serial :
  serial <> [] ->
  loop cat arrivals serial
    = match selection (first_nonblank serial)
            return option (list event * list ascii) with
      | Some songIdx =>
          played ← playSong cat songIdx;
          Some (playing_banner (songIdx + 1) ++ played ++ displayMenu,
                (readChoiceChar arrivals serial).2)
      | None =>
          Some (handleInvalidInput, (readChoiceChar arrivals serial).2)
      end.
Proof.
  intros Hne. unfold loop. destruct serial as [|c serial]; [done|].
  rewrite <- (readChoiceChar_fst arrivals (c :: serial)).
  destruct (readChoiceChar arrivals (c :: serial)) as [choice rest].
  cbn [fst snd]. apply loop_choice.
Qed.

Lemma selection_range c songIdx :
  selection c = Some songIdx -> 0 <= songIdx <= 2.
Proof.
  unfold selection.
  destruct (Ascii.eqb c "1"); [intros [= <-]; lia|].
  destruct (Ascii.eqb c "2"); [intros [= <-]; lia|].
  destruct (Ascii.eqb c "3"); [intros [= <-]; lia|done].
Qed.

Lemma selection_blank c : is_blank c = true -> selection c = None.
Proof.
  unfold is_blank. intros H.
  repeat (apply orb_prop in H as [H | H]);
    apply Ascii.eqb_eq in H as ->; reflexivity.
Qed.

Lemma first_nonblank_blank serial :
  forallb is_blank serial = true -> first_nonblank serial = NUL.
Proof.
  induction serial as [|c serial IH]; [done|].
  rewrite first_nonblank_cons. cbn [forallb].
  intros [-> H]%andb_prop. by apply IH.
Qed.

Lemma displayMenu_shows d : menu_shown (show d displayMenu).
Proof. split; reflexivity. Qed.

Lemma displayMenu_inert : forallb is_inert displayMenu = true.
Proof. reflexivity. Qed.

Lemma handleInvalidInput_inert : forallb is_inert handleInvalidInput = true.
Proof. reflexivity. Qed.

Lemma handleInvalidInput_shows d : menu_shown (show d handleInvalidInput).
Proof. split; reflexivity. Qed.

(** X14.  [loop()] does nothing while no character is pending.
    Otherwise the first pending character that is not blank decides:
    ['1'], ['2'] and ['3'] play the song of index 0, 1 and 2 between its
    banner and the menu, and [playSong] is called with no other index;
    every other choice, a line of blanks included, is answered with the
    error message and the menu, which change no light and start no
    tone. *)
Theorem loop_dispatch :
  forall cat arrivals serial,
    loop cat arrivals [] = Some ([], []) /\
    (serial <> [] ->
     loop cat arrivals serial
       = match selection (first_nonblank serial)
               return option (list event * list ascii) with
         | Some songIdx =>
             played ← playSong cat songIdx;
             Some (playing_banner (songIdx + 1) ++ played ++ displayMenu,
                   (readChoiceChar arrivals serial).2)
         | None =>
             Some (handleInvalidInput, (readChoiceChar arrivals serial).2)
         end) /\
    (forall songIdx,
       selection (first_nonblank serial) = Some songIdx ->
       0 <= songIdx <= 2) /\
    (serial <> [] -> forallb is_blank serial = true ->
     loop cat arrivals serial = Some (handleInvalidInput, [])) /\
    (forall s, run s handleInvalidInput = s) /\
    (forall d, menu_shown (show d handleInvalidInput)).
Proof.
  intros cat arrivals serial. split; [done|].
  split; [apply loop_selection|].
  split; [intros songIdx; apply selection_range|].
  split.
  - intros Hne Hblank. rewrite loop_selection by done.
    rewrite first_nonblank_blank by done.
    by rewrite (readChoiceChar_blank arrivals serial Hblank).
  - split; [intros s; apply inert_run, handleInvalidInput_inert|].
    apply handleInvalidInput_shows.
Qed.

(** ** The three songs of the sketch *)

Lemma sketch_playable songIdx :
  0 <= songIdx <= 2 ->
  exists len bpm, playable sketch songIdx len bpm.
Proof.
  intros H.
  assert (Hcases : songIdx = 0 \/ songIdx = 1 \/ songIdx = 2) by lia.
  destruct Hcases as [-> | [-> | ->]].
  - exists 65, 45.
    split; [reflexivity|]. split; [lia|]. split; [reflexivity|].
    split; [unfold int_max; lia|].
    split; [eexists; split; [reflexivity|simpl; lia]|].
    split; [eexists; split; [reflexivity|simpl; lia]|].
    split; [eexists; split; [reflexivity|simpl; lia]|].
    eexists _, 16. split; [reflexivity|]. split.
    + unfold byte_row. vm_compute.
      repeat (constructor; [split; discriminate|]). constructor.
    + split; [unfold MAX_LINES; lia|reflexivity].
  - exists 42, 96.
    split; [reflexivity|]. split; [lia|]. split; [reflexivity|].
    split; [unfold int_max; lia|].
    split; [eexists; split; [reflexivity|simpl; lia]|].
    split; [eexists; split; [reflexivity|simpl; lia]|].
    split; [eexists; split; [reflexivity|simpl; lia]|].
    eexists _, 22. split; [reflexivity|]. split.
    + unfold byte_row. vm_compute.
      repeat (constructor; [split; discriminate|]). constructor.
    + split; [unfold MAX_LINES; lia|reflexivity].
  - exists 48, 66.
    split; [reflexivity|]. split; [lia|]. split; [reflexivity|].
    split; [unfold int_max; lia|].
    split; [eexists; split; [reflexivity|simpl; lia]|].
    split; [eexists; split; [reflexivity|simpl; lia]|].
    split; [eexists; split; [reflexivity|simpl; lia]|].
    eexists _, 16. split; [reflexivity|]. split.
    + unfold byte_row. vm_compute.
      repeat (constructor; [split; discriminate|]). constructor.
    + split; [unfold MAX_LINES; lia|reflexivity].
Qed.

(** Whatever was played before, the menu is on the display after it. *)
Lemma song_then_menu_shows d banner played :
  menu_shown (show d (banner ++ played ++ displayMenu)).
Proof. rewrite !app_assoc, show_app. apply displayMenu_shows. Qed.

(** ** One light at a time *)

Lemma along_app P tr1 :
  forall s tr2,
    along P s tr1 -> along P (run s tr1) tr2 -> along P s (tr1 ++ tr2).
Proof.
  induction tr1 as [|e tr1 IH]; intros s tr2 H1 H2; [done|].
  destruct H1 as [Hs H1]. cbn [app along]. split; [done|].
  apply IH; done.
Qed.

Lemma along_start P s tr : along P s tr -> P s.
Proof. destruct tr; [done|]. by intros [H _]. Qed.

Lemma leds_off_levels s :
  leds_off s ->
  level s 4 = false /\ level s 5 = false /\ level s 6 = false
  /\ level s 7 = false /\ level s 8 = false.
Proof.
  intros H. unfold LED_PINS in H.
  repeat split; apply H; repeat first [by left | right].
Qed.

Lemma quiet_light_with_tone s : quiet s -> light_with_tone s.
Proof.
  intros [Hoff Hnone].
  destruct (leds_off_levels s Hoff) as (H4 & H5 & H6 & H7 & H8).
  unfold light_with_tone, lit, LED_PINS. cbn [List.filter].
  rewrite H4, H5, H6, H7, H8. cbn [length]. split; [lia|done].
Qed.

Lemma quiet_event s e :
  keeps_quiet e = true -> quiet s -> quiet (run_event s e).
Proof.
  intros He [Hoff Hnone]. destruct e as [| | | pin [] | | | |]; try done.
  split; [|done]. intros q Hq. cbn. destruct (q =? pin); [done|].
  by apply Hoff.
Qed.

(** A trace that switches no light on and starts no tone keeps the
    lights off and the tone stopped throughout. *)
Lemma quiet_along tr :
  forall s,
    forallb keeps_quiet tr = true -> quiet s ->
    along light_with_tone s tr /\ quiet (run s tr).
Proof.
  induction tr as [|e tr IH]; intros s Htr Hs.
  - split; [by apply quiet_light_with_tone|done].
  - cbn [forallb] in Htr. apply andb_prop in Htr as [He Htr].
    destruct (IH (run_event s e) Htr (quiet_event s e He Hs)) as [Ha Hq].
    split; [|done]. split; [by apply quiet_light_with_tone|done].
Qed.

Lemma inert_keeps_quiet tr :
  forallb is_inert tr = true -> forallb keeps_quiet tr = true.
Proof.
  induction tr as [|e tr IH]; [done|]. cbn [forallb].
  intros [He Htr]%andb_prop. rewrite IH by done. by destruct e.
Qed.

(** A sounding note, from its light to the end of its gap. *)
Lemma note_on_along s pin hz on off :
  quiet s -> pin ∈ LED_PINS ->
  along light_with_tone s
    ([DigitalWrite pin true; Tone BUZZER_PIN hz]
       ++ [Wait on; NoTone BUZZER_PIN] ++ allLEDsOff ++ [Wait off]) /\
  quiet (run s ([DigitalWrite pin true; Tone BUZZER_PIN hz]
                  ++ [Wait on; NoTone BUZZER_PIN] ++ allLEDsOff
                  ++ [Wait off])).
Proof.
  intros [Hoff Hnone] Hpin.
  destruct (leds_off_levels s Hoff) as (H4 & H5 & H6 & H7 & H8).
  split.
  - unfold LED_PINS in Hpin.
    repeat (apply elem_of_cons in Hpin as [-> | Hpin];
            [cbn; unfold light_with_tone, lit; cbn;
             rewrite ?H4, ?H5, ?H6, ?H7, ?H8, ?Hnone; cbn;
             repeat split; first [lia | done | congruence]|]).
    by apply not_elem_of_nil in Hpin.
  - split; [|done]. intros q Hq. unfold LED_PINS in Hq.
    repeat (apply elem_of_cons in Hq as [-> | Hq]; [done|]).
    by apply not_elem_of_nil in Hq.
Qed.

(** The commands of a completed iteration of the loop of [playSong]. *)
Lemma note_step_shape cat songIdx totalNotes unitMs c c1 ev :
  note_step cat songIdx totalNotes unitMs c = Some (c1, ev) ->
  exists shown started on off,
    ev = shown ++ allLEDsOff ++ started
           ++ [Wait on; NoTone BUZZER_PIN] ++ allLEDsOff ++ [Wait off] /\
    forallb is_inert shown = true /\
    (started = [NoTone BUZZER_PIN] \/
     exists pin hz, pin ∈ LED_PINS /\
                    started = [DigitalWrite pin true; Tone BUZZER_PIN hz]).
Proof.
  unfold note_step.
  intros ([[li st] sp] & Hget & H)%bind_Some.
  apply bind_Some in H as ([c' shown] & Hrefresh & H).
  apply bind_Some in H as (notes & _ & H).
  apply bind_Some in H as (noteHz & _ & H).
  apply bind_Some in H as (durs & _ & H).
  apply bind_Some in H as (durU & _ & H).
  apply bind_Some in H as ([on off] & _ & H).
  apply bind_Some in H as (leds & _ & H).
  apply bind_Some in H as (l & _ & H).
  apply bind_Some in H as (started & Hstart & H).
  apply (inj Some) in H. apply pair_equal_spec in H as [_ <-].
  apply refresh_lyrics_inv in Hrefresh as (_ & _ & Hinert).
  exists shown, started, on, off. split; [done|]. split; [done|].
  unfold start_note in Hstart.
  destruct (to_int noteHz =? NOTE_REST); [left; by injection Hstart|].
  apply bind_Some in Hstart as (pin & Hpin & [= <-]).
  right. exists pin, (to_int noteHz). split; [|done].
  apply index_Some in Hpin as [_ Hpin].
  by apply list_elem_of_lookup_2 in Hpin.
Qed.

Lemma note_step_along cat songIdx totalNotes unitMs c c1 ev s :
  note_step cat songIdx totalNotes unitMs c = Some (c1, ev) ->
  quiet s ->
  along light_with_tone s ev /\ quiet (run s ev).
Proof.
  intros Hstep Hs.
  destruct (note_step_shape _ _ _ _ _ _ _ Hstep)
    as (shown & started & on & off & -> & Hshown & Hstarted).
  destruct (quiet_along shown s (inert_keeps_quiet _ Hshown) Hs) as [Ha1 Hq1].
  destruct (quiet_along allLEDsOff (run s shown) eq_refl Hq1) as [Ha2 Hq2].
  rewrite (run_app s shown), (run_app _ allLEDsOff).
  destruct Hstarted as [-> | (pin & hz & Hpin & ->)].
  - destruct (quiet_along ([NoTone BUZZER_PIN] ++ [Wait on; NoTone BUZZER_PIN]
                             ++ allLEDsOff ++ [Wait off])
                (run (run s shown) allLEDsOff) eq_refl Hq2) as [Ha3 Hq3].
    split; [|done].
    apply along_app; [done|]. apply along_app; [done|]. done.
  - destruct (note_on_along (run (run s shown) allLEDsOff) pin hz on off
                Hq2 Hpin) as [Ha3 Hq3].
    split; [|done].
    apply along_app; [done|]. apply along_app; [done|]. done.
Qed.

Lemma play_loop_along cat songIdx totalNotes unitMs fuel :
  forall c c' steps s,
    play_loop cat songIdx fuel totalNotes unitMs c = Some (c', steps) ->
    quiet s ->
    along light_with_tone s (concat steps) /\ quiet (run s (concat steps)).
Proof.
  induction fuel as [|fuel IH]; intros c c' steps s; cbn [play_loop].
  - destruct (notesPlayed c <? totalNotes); [done|].
    intros [= <- <-] Hs. split; [by apply quiet_light_with_tone|done].
  - destruct (notesPlayed c <? totalNotes).
    + intros ([c1 ev] & Hstep & H)%bind_Some Hs.
      apply bind_Some in H as ([c2 evs] & Hloop & [= <- <-]).
      destruct (note_step_along _ _ _ _ _ _ _ s Hstep Hs) as [Ha1 Hq1].
      destruct (IH _ _ _ _ Hloop Hq1) as [Ha2 Hq2].
      cbn [concat]. rewrite run_app. split; [|done].
      by apply along_app.
    + intros [= <- <-] Hs. split; [by apply quiet_light_with_tone|done].
Qed.

Lemma announce_keeps_quiet songIdx :
  forallb keeps_quiet (announce songIdx) = true.
Proof.
  unfold announce. destruct (songIdx =? 0), (songIdx =? 1), (songIdx =? 2);
    reflexivity.
Qed.

Lemma playSong_along cat songIdx tr s :
  playSong cat songIdx = Some tr -> quiet s ->
  along light_with_tone s tr /\ quiet (run s tr).
Proof.
  unfold playSong, playSong_parts.
  intros ([[pre steps] post] & Hparts & [= <-])%bind_Some Hs.
  apply bind_Some in Hparts as (len & _ & Hparts).
  apply bind_Some in Hparts as (bpm & _ & Hparts).
  destruct (_ || _).
  { injection Hparts as <- <- <-. split; [by apply quiet_light_with_tone|done]. }
  apply bind_Some in Hparts as (unitMs & _ & Hparts).
  apply bind_Some in Hparts as ([c' steps'] & Hloop & [= <- <- <-]).
  destruct (quiet_along (announce songIdx) s (announce_keeps_quiet songIdx) Hs)
    as [Ha1 Hq1].
  destruct (play_loop_along _ _ _ _ _ _ _ _ _ Hloop Hq1) as [Ha2 Hq2].
  destruct (quiet_along cleanup _ eq_refl Hq2) as [Ha3 Hq3].
  rewrite !run_app. split; [|done].
  apply along_app; [done|]. apply along_app; done.
Qed.

(** X15.  Never two lights at once, and no tone without its light:
    for every catalog and every song index, when the lights are off and
    the tone is stopped before [playSong], then in every state that the
    pins and the tone generator go through while it runs at most one of
    the five lights is on, exactly one is on whenever the tone sounds,
    and at the end the lights are off and the tone is stopped; the same
    holds of every iteration of its loop. *)
Theorem playSong_one_light_at_a_time :
  forall cat songIdx s,
    quiet s ->
    (forall tr,
       playSong cat songIdx = Some tr ->
       along light_with_tone s tr /\ quiet (run s tr)) /\
    (forall totalNotes unitMs c c1 ev,
       note_step cat songIdx totalNotes unitMs c = Some (c1, ev) ->
       along light_with_tone s ev /\ quiet (run s ev)).
Proof.
  intros cat songIdx s Hs. split.
  - intros tr Htr. by apply (playSong_along cat songIdx).
  - intros totalNotes unitMs c c1 ev Hstep.
    by apply (note_step_along cat songIdx totalNotes unitMs c c1).
Qed.

Lemma playSong_one_light_at_a_time_witness :
  exists tr,
    playSong three_notes 0 = Some tr /\
    along light_with_tone {| level := fun _ => false; sounding := None |} tr.
Proof.
  destruct (playSong_playable three_notes 0 3 120 three_notes_playable)
    as (steps & _ & Hplay & _).
  eexists. split; [exact Hplay|].
  apply (playSong_one_light_at_a_time three_notes 0
           {| level := fun _ => false; sounding := None |});
    [split; [intros pin _; reflexivity|reflexivity]|exact Hplay].
Defined.

(** ** The main loop on the tables of the sketch *)

Lemma playing_banner_keeps_quiet songNum :
  forallb keeps_quiet (playing_banner songNum) = true.
Proof.
  unfold playing_banner.
  destruct (songNum =? 1), (songNum =? 2), (songNum =? 3); reflexivity.
Qed.

(** X16.  With the tables of the sketch, [loop()] completes whatever
    is pending on the serial line and whatever arrives meanwhile: no
    table is read outside its bounds.  When the lights were off and the
    tone stopped before, at most one light is on at any moment of the
    run, exactly one while the tone sounds, and the lights are off and
    the tone stopped afterwards; when a character was pending the display
    shows the menu at the end. *)
Theorem loop_sketch_completes :
  forall arrivals serial,
    exists tr rest,
      loop sketch arrivals serial = Some (tr, rest) /\
      (forall s, quiet s ->
         along light_with_tone s tr /\ quiet (run s tr)) /\
      (serial <> [] -> forall d, menu_shown (show d tr)).
Proof.
  intros arrivals serial.
  destruct serial as [|c serial].
  { exists [], []. split; [done|]. split; [|done].
    intros s Hs. split; [by apply quiet_light_with_tone|done]. }
  rewrite loop_selection by done.
  destruct (selection (first_nonblank (c :: serial))) as [songIdx|] eqn:Hsel.
  - apply selection_range in Hsel.
    destruct (sketch_playable songIdx Hsel) as (len & bpm & Hplay).
    destruct (playSong_playable sketch songIdx len bpm Hplay)
      as (steps & _ & Hsong & _).
    rewrite Hsong. cbn [mbind option_bind].
    eexists _, _. split; [done|]. split.
    + intros s Hs.
      destruct (quiet_along _ s (playing_banner_keeps_quiet (songIdx + 1)) Hs)
        as [Ha1 Hq1].
      destruct (playSong_along sketch songIdx _ _ Hsong Hq1) as [Ha2 Hq2].
      destruct (quiet_along displayMenu _ eq_refl Hq2) as [Ha3 Hq3].
      rewrite !run_app in Hq3. rewrite !run_app. split; [|done].
      apply along_app; [done|]. apply along_app; [done|]. done.
    + intros _ d. apply song_then_menu_shows.
  - eexists _, _. split; [done|]. split.
    + intros s Hs. by apply quiet_along.
    + intros _ d. apply handleInvalidInput_shows.
Qed.

(** ** Start-up *)

(** X17.  [setup()] configures the buzzer pin and the five light pins
    as outputs and, whatever the state of the pins and of the display
    before, leaves the five lights off, the tone generator untouched and
    the menu on the display. *)
Theorem setup_establishes :
  forall s d,
    Forall (fun pin => PinModeOutput pin ∈ setup) (BUZZER_PIN :: LED_PINS) /\
    leds_off (boot s setup) /\
    sounding (boot s setup) = sounding s /\
    menu_shown (boot_show d setup).
Proof.
  intros s d. split.
  { repeat (constructor; [repeat first [by left | right]|]). constructor. }
  split.
  { intros pin Hpin. unfold LED_PINS in Hpin.
    repeat (apply elem_of_cons in Hpin as [-> | Hpin]; [done|]).
    by apply not_elem_of_nil in Hpin. }
  split; [done|]. split; reflexivity.
Qed.
